(** * Relocatable snapshot archive utilities (hotspot/share/memory/archiveUtils.cpp)

    A shallow embedding of the pointer-relocation bitmap ([ArchivePtrMarker]),
    the bump allocator ([DumpRegion]) and the serialization closures
    ([WriteClosure] / [ReadClosure]), followed by the properties of the
    archive specification that are established on it.

    Conventions of the embedding.
    - Target is LP64: [sizeof(intptr_t) = 8]; addresses are byte addresses in [Z].
    - Memory is byte addressed; words are stored little-endian.
    - [assert(...)] is a checked condition (ASSERT build): a violated
      assertion ends the run with [AssertFailed].  Fatal exits
      ([vm_exit_during_initialization], [fail_stop], [ShouldNotReachHere])
      end the run with their own error.
    - In/out parameters of scalar type ([u4* p], [bool* p], [oop* p],
      [void** p]) are passed by value: the writer receives [*p], the reader
      returns the value it stores into [*p] (and receives the old [*p] where
      the code inspects it).  The caller's buffer of a raw region is passed
      as its byte contents together with its start address.
    - A pointer is its address, the null pointer is 0.  A pointer plus a
      requested size is computed in the 64-bit address space and wraps at
      2^64 ([DumpRegion::allocate]); one word added to a cursor (the top of
      a region in [append_intptr_t], the reader's cursor) is taken exactly,
      a region not ending within a word of 2^64.  A [ReservedSpace*]
      carries, beside the address, the object it points to; dereferencing
      it when it is null ends the run with [Crash]. *)

From Stdlib Require Import ZArith Lia List String Bool.
From coqutil Require Import Byte Word.LittleEndianList.
Import ListNotations.
Local Open Scope Z_scope.

(** ** Machine integers *)

Definition wordSize : Z := 8.                       (* sizeof(intptr_t) *)
Definition M : Z := 1024 * 1024.

Definition to_uintx (z : Z) : Z := z mod 2 ^ 64.    (* (uintx) / (size_t) *)
Definition to_intptr (z : Z) : Z := (z + 2 ^ 63) mod 2 ^ 64 - 2 ^ 63.  (* (intptr_t) *)
Definition to_u4 (z : Z) : Z := z mod 2 ^ 32.       (* (u4) *)
Definition to_int (z : Z) : Z := (z + 2 ^ 31) mod 2 ^ 32 - 2 ^ 31.     (* (int) *)
Definition to_bool (z : Z) : bool := negb (z =? 0). (* (bool) *)
Definition of_bool (b : bool) : Z := if b then 1 else 0.

Definition is_intptr (z : Z) : Prop := - 2 ^ 63 <= z < 2 ^ 63.
Definition is_u4 (z : Z) : Prop := 0 <= z < 2 ^ 32.

(** ** Fatal outcomes and the error monad *)

Inductive vm_error : Type :=
| AssertFailed (msg : string)
| OutOfSpace (region_name : string) (needed_bytes : Z)
| VmExit (msg : string)
| FailStop (msg : string)
| Crash (what : string).

Inductive result (A : Type) : Type :=
| Ok (a : A)
| Fail (e : vm_error).
Arguments Ok {A} a.
Arguments Fail {A} e.

Definition bind {A B : Type} (c : result A) (k : A -> result B) : result B :=
  match c with
  | Ok a => k a
  | Fail e => Fail e
  end.

Notation "x <- c ;; k" := (bind c (fun x => k))
  (at level 61, c at next level, right associativity).
Notation "' p <- c ;; k" := (bind c (fun x => let p := x in k))
  (at level 61, p pattern, c at next level, right associativity).

Definition assert_ (cond : bool) (msg : string) : result unit :=
  if cond then Ok tt else Fail (AssertFailed msg).

Definition is_ok {A : Type} (c : result A) : bool :=
  match c with Ok _ => true | Fail _ => false end.

(** ** Byte-addressed memory *)

Definition Mem : Type := Z -> byte.

Definition store_byte (m : Mem) (a : Z) (b : byte) : Mem :=
  fun x => if x =? a then b else m x.

Fixpoint store_bytes (m : Mem) (a : Z) (bs : list byte) : Mem :=
  match bs with
  | [] => m
  | b :: bs' => store_bytes (store_byte m a b) (a + 1) bs'
  end.

Fixpoint load_bytes (m : Mem) (a : Z) (n : nat) : list byte :=
  match n with
  | O => []
  | S n' => m a :: load_bytes m (a + 1) n'
  end.

(* *(address* )a : a pointer-sized unsigned load. *)
Definition load_address (m : Mem) (a : Z) : Z := le_combine (load_bytes m a 8).
(* *(intptr_t* )a *)
Definition load_intptr (m : Mem) (a : Z) : Z := to_intptr (load_address m a).
(* *(intptr_t* )a = w *)
Definition store_intptr (m : Mem) (a : Z) (w : Z) : Mem := store_bytes m a (le_split 8 w).
(* memset(p, c, len) *)
Definition memset (m : Mem) (p : Z) (c : byte) (len : Z) : Mem :=
  store_bytes m p (repeat c (Z.to_nat len)).

Definition zero_mem : Mem := fun _ => Byte.x00.

(** ** Alignment helpers *)

(** Modelled from the spec: [align_up] of utilities/align.hpp (not part of
    this file), "rounds ... up to the ... alignment": for a power-of-two
    alignment, add the mask and clear the low bits, in the 64-bit type of
    the operand. *)
Definition align_mask (alignment : Z) : Z := alignment - 1.
Definition align_down (size alignment : Z) : Z := Z.land size (Z.lnot (align_mask alignment)).
Definition align_up (size alignment : Z) : Z :=
  align_down (to_uintx (size + align_mask alignment)) alignment.
Definition is_aligned (size alignment : Z) : bool := size mod alignment =? 0.

Definition is_power_of_2 (a : Z) : Prop := exists k, 0 <= k < 31 /\ a = 2 ^ k.

(** ** The bitmap (utilities/bitMap.hpp) *)

Module CHeapBitMap.

(** Modelled from the spec: the growable bit array behind the relocation
    bitmap ("a single dynamically-growable bit array, one bit per
    pointer-sized slot"); class CHeapBitMap is declared outside this file.
    [bm_map] holds bit [i] of the array as binary digit [i]. *)
Record t : Type := mk { bm_size : Z; bm_map : Z }.

(** Modelled from the spec: [size()] and [at(i)], the number of bits and
    "bit i set". *)
Definition size (bm : t) : Z := bm_size bm.
Definition at_ (bm : t) (i : Z) : bool := Z.testbit (bm_map bm) i.

(** Modelled from the spec: [initialize(size_in_bits)] gives a cleared map
    of that size. *)
Definition initialize (size_in_bits : Z) : t := mk size_in_bits 0.

(** Modelled from the spec: [resize(new_size)] keeps the bits below the new
    size, new bits are clear ("grow", "truncates storage"). *)
Definition resize (bm : t) (new_size : Z) : t :=
  mk new_size (Z.land (bm_map bm) (Z.ones new_size)).

(** Modelled from the spec: [set_bit(i)] and [clear_bit(i)], "set bit
    index" and "clears the bit"; the size is unchanged. *)
Definition set_bit (bm : t) (i : Z) : t := mk (bm_size bm) (Z.setbit (bm_map bm) i).
Definition clear_bit (bm : t) (i : Z) : t := mk (bm_size bm) (Z.clearbit (bm_map bm) i).

(** Modelled from the spec: [iterate(closure)] "iterates every
    currently-set bit" in ascending order, calling [do_bit] on each and
    stopping when it answers false.  The closure may change the map it is
    iterated over (it holds a pointer to it), so the map is read from the
    shared state [S] at every step. *)
Fixpoint iterate_loop {S : Type} (get_map : S -> t)
    (do_bit : Z -> S -> result (bool * S))
    (n : nat) (index : Z) (s : S) : result (bool * S) :=
  match n with
  | O => Ok (true, s)
  | Datatypes.S n' =>
      if at_ (get_map s) index then
        '(continue, s') <- do_bit index s ;;
        if continue then iterate_loop get_map do_bit n' (index + 1) s'
        else Ok (false, s')
      else iterate_loop get_map do_bit n' (index + 1) s
  end.

Definition iterate {S : Type} (get_map : S -> t)
    (do_bit : Z -> S -> result (bool * S)) (s : S) : result (bool * S) :=
  iterate_loop get_map do_bit (Z.to_nat (size (get_map s))) 0 s.

(* Representation invariant: no bit is set at or beyond the size. *)
Definition wf (bm : t) : Prop :=
  0 <= size bm /\ forall j, at_ bm j = true -> 0 <= j < size bm.

(* Number of set bits below the size. *)
Definition count_one_bits (bm : t) : nat :=
  List.length (filter (fun i => at_ bm (Z.of_nat i)) (seq 0 (Z.to_nat (size bm)))).

End CHeapBitMap.

(** ** External collaborators *)

(** Modelled from the spec: [ReservedSpace] (runtime/virtualspace.hpp), the
    "reservation object" with its [start/limit]; [rs_addr] is the address of
    the object, by which the code compares reservations. *)
Record ReservedSpace : Type := mkRS { rs_addr : Z; rs_base : Z; rs_end : Z }.

(* [rs->...] on a [ReservedSpace* rs]: the object, unless the pointer is
   null. *)
Definition deref_rs (rs : ReservedSpace) : result ReservedSpace :=
  if rs_addr rs =? 0 then Fail (Crash "ReservedSpace pointer is NULL") else Ok rs.

(** What this file consumes from the rest of the VM: constants and
    operations of the heap subsystem, the dump orchestrator and the
    metaspace, none of which is defined in archiveUtils.cpp. *)
Record VMEnv : Type := mkEnv {
  KlassAlignmentInBytes : Z;
  reserved_space_alignment : Z;          (* MetaspaceShared::reserved_space_alignment() *)
  shared_rs : Z;                         (* MetaspaceShared::shared_rs(), as an address *)
  DynamicDumpSharedSpaces : bool;
  dynamic_object_delta_uintx : Z -> Z;   (* DynamicArchive::object_delta_uintx *)
  static_object_delta_uintx : Z -> Z;    (* MetaspaceShared::object_delta_uintx *)
  MAX_SHARED_DELTA : Z;
  capacity_until_GC : Z;                 (* MetaspaceGC::capacity_until_GC() *)
  is_heap_object_archiving_allowed : bool;
  open_archive_heap_region_mapped : bool;
  encode_not_null : Z -> Z;              (* CompressedOops::encode_not_null : oop -> narrowOop *)
  narrow_oop_cast : Z -> result Z;       (* CompressedOops::narrow_oop_cast : intptr_t -> narrowOop *)
  decode_from_archive : Z -> Z           (* HeapShared::decode_from_archive : narrowOop -> oop *)
}.

(* const int SharedSpaceObjectAlignment = KlassAlignmentInBytes; *)
Definition SharedSpaceObjectAlignment (env : VMEnv) : Z := KlassAlignmentInBytes env.

(** Modelled from the spec: [CompressedOops::is_null(narrowOop)]
    (oops/compressedOops.inline.hpp), "if it decodes to null": the encoded
    value is zero ("zero for null"). *)
Definition is_null (o : Z) : bool := o =? 0.

(** The contract of the heap subsystem the reader relies on at load time:
    the cast of a word that fits 32 bits is the word itself, and a non-null
    encoded value decodes to a non-null reference. *)
Definition heap_subsystem_ok (lenv : VMEnv) : Prop :=
  (forall n, 0 <= n < 2 ^ 32 -> narrow_oop_cast lenv n = Ok n) /\
  (forall n, 0 < n < 2 ^ 32 -> decode_from_archive lenv n <> 0).

(** ** ArchivePtrMarker *)

Module ArchivePtrMarker.

(* The static members of class ArchivePtrMarker. *)
Record t : Type := mk {
  _ptrmap : option CHeapBitMap.t;     (* CHeapBitMap* , NULL before initialize *)
  _ptr_base : Z;                      (* address*  *)
  _ptr_end : Z;
  _compacted : bool
}.

Definition with_ptrmap (mk0 : t) (bm : CHeapBitMap.t) : t :=
  mk (Some bm) (_ptr_base mk0) (_ptr_end mk0) (_compacted mk0).

Definition uninitialized : t := mk None 0 0 false.

Definition initialize (env : VMEnv) (st : t) (ptrmap : CHeapBitMap.t)
    (ptr_base ptr_end : Z) : result t :=
  _ <- assert_ (match _ptrmap st with None => true | Some _ => false end)
               "initialize only once" ;;
  let estimated_archive_size := capacity_until_GC env in
  let estimated_archive_size := 6 * M in          (* DEBUG_ONLY *)
  Ok (mk (Some (CHeapBitMap.initialize (estimated_archive_size / wordSize)))
         ptr_base ptr_end false).

Definition mark_pointer (st : t) (m : Mem) (ptr_loc : Z) : result t :=
  match _ptrmap st with
  | None => Fail (AssertFailed "not initialized")
  | Some ptrmap =>
    _ <- assert_ (negb (_compacted st)) "cannot mark anymore" ;;
    if (_ptr_base st <=? ptr_loc) && (ptr_loc <? _ptr_end st) then
      let value := load_address m ptr_loc in
      _ <- assert_ (negb (value =? _ptr_base st))
                   "don't point to the bottom of the archive" ;;
      if negb (value =? 0) then
        _ <- assert_ (to_uintx ptr_loc mod wordSize =? 0)
                     "pointers must be stored in aligned addresses" ;;
        (* address* difference: a slot index, below 2^61, so that
           (idx + 1) * 2 does not wrap size_t *)
        let idx := (ptr_loc - _ptr_base st) / wordSize in
        let ptrmap :=
          if CHeapBitMap.size ptrmap <=? idx
          then CHeapBitMap.resize ptrmap ((idx + 1) * 2)
          else ptrmap in
        _ <- assert_ (idx <? CHeapBitMap.size ptrmap) "must be" ;;
        Ok (with_ptrmap st (CHeapBitMap.set_bit ptrmap idx))
      else Ok st
    else Ok st
  end.

Definition clear_pointer (st : t) (ptr_loc : Z) : result t :=
  match _ptrmap st with
  | None => Fail (AssertFailed "not initialized")
  | Some ptrmap =>
    _ <- assert_ (negb (_compacted st)) "cannot clear anymore" ;;
    _ <- assert_ ((_ptr_base st <=? ptr_loc) && (ptr_loc <? _ptr_end st)) "must be" ;;
    _ <- assert_ (to_uintx ptr_loc mod wordSize =? 0)
                 "pointers must be stored in aligned addresses" ;;
    let idx := (ptr_loc - _ptr_base st) / wordSize in
    _ <- assert_ (idx <? CHeapBitMap.size ptrmap)
                 "cannot clear pointers that have not been marked" ;;
    Ok (with_ptrmap st (CHeapBitMap.clear_bit ptrmap idx))
  end.

(* class ArchivePtrBitmapCleaner: the closure's own fields, and the bitmap
   it points to (the very map being iterated). *)
Record ArchivePtrBitmapCleaner : Type := mkCleaner {
  c_ptrmap : CHeapBitMap.t;
  c_ptr_base : Z;
  c_relocatable_base : Z;
  c_relocatable_end : Z;
  c_max_non_null_offset : Z
}.

Definition new_cleaner (ptrmap : CHeapBitMap.t) (ptr_base relocatable_base relocatable_end : Z)
  : ArchivePtrBitmapCleaner :=
  mkCleaner ptrmap ptr_base relocatable_base relocatable_end 0.

Definition do_bit (m : Mem) (offset : Z) (c : ArchivePtrBitmapCleaner)
  : result (bool * ArchivePtrBitmapCleaner) :=
  let ptr_loc := c_ptr_base c + wordSize * offset in
  let ptr_value := load_address m ptr_loc in
  if negb (ptr_value =? 0) then
    _ <- assert_ ((c_relocatable_base c <=? ptr_value) && (ptr_value <? c_relocatable_end c))
                 "do not point to arbitrary locations!" ;;
    Ok (true,
        if c_max_non_null_offset c <? offset
        then mkCleaner (c_ptrmap c) (c_ptr_base c) (c_relocatable_base c)
                       (c_relocatable_end c) offset
        else c)
  else
    Ok (true,
        mkCleaner (CHeapBitMap.clear_bit (c_ptrmap c) offset) (c_ptr_base c)
                  (c_relocatable_base c) (c_relocatable_end c) (c_max_non_null_offset c)).

Definition max_non_null_offset (c : ArchivePtrBitmapCleaner) : Z := c_max_non_null_offset c.

(* compact(size_t max_non_null_offset) *)
Definition compact_to (st : t) (max_non_null_offset : Z) : result t :=
  _ <- assert_ (negb (_compacted st)) "cannot compact again" ;;
  match _ptrmap st with
  | None => Fail (Crash "_ptrmap is NULL")
  | Some ptrmap =>
    Ok (mk (Some (CHeapBitMap.resize ptrmap (max_non_null_offset + 1)))
           (_ptr_base st) (_ptr_end st) true)
  end.

(* compact(address relocatable_base, address relocatable_end) *)
Definition compact (st : t) (m : Mem) (relocatable_base relocatable_end : Z) : result t :=
  _ <- assert_ (negb (_compacted st)) "cannot compact again" ;;
  match _ptrmap st with
  | None => Fail (Crash "_ptrmap is NULL")
  | Some ptrmap =>
    let cleaner := new_cleaner ptrmap (_ptr_base st) relocatable_base relocatable_end in
    '(_, cleaner) <- CHeapBitMap.iterate c_ptrmap (do_bit m) cleaner ;;
    compact_to (with_ptrmap st (c_ptrmap cleaner)) (max_non_null_offset cleaner)
  end.

(* The value held by slot [i] of the instrumented range. *)
Definition slot_value (m : Mem) (ptr_base i : Z) : Z :=
  load_address m (ptr_base + wordSize * i).

(* Bit [i] is set and its slot holds a non-null value: the bit survives
   compaction. *)
Definition survives (bm : CHeapBitMap.t) (m : Mem) (ptr_base i : Z) : Prop :=
  CHeapBitMap.at_ bm i = true /\ slot_value m ptr_base i <> 0.

(* Slot [i] is marked and holds a non-null value outside the relocatable
   range. *)
Definition points_outside (bm : CHeapBitMap.t) (m : Mem)
    (ptr_base relocatable_base relocatable_end i : Z) : Prop :=
  CHeapBitMap.at_ bm i = true /\ slot_value m ptr_base i <> 0 /\
  ~ (relocatable_base <= slot_value m ptr_base i < relocatable_end).

(* The state of the cleaner when the scan of the map [bm] has reached
   index [k]. *)
Definition cleaner_inv (bm : CHeapBitMap.t) (m : Mem)
    (ptr_base relocatable_base relocatable_end k : Z)
    (c : ArchivePtrBitmapCleaner) : Prop :=
  c_ptr_base c = ptr_base /\
  c_relocatable_base c = relocatable_base /\
  c_relocatable_end c = relocatable_end /\
  CHeapBitMap.size (c_ptrmap c) = CHeapBitMap.size bm /\
  (forall j, CHeapBitMap.at_ (c_ptrmap c) j
             = CHeapBitMap.at_ bm j && ((k <=? j) || negb (slot_value m ptr_base j =? 0))) /\
  0 <= c_max_non_null_offset c /\
  (forall j, j < k -> survives bm m ptr_base j -> j <= c_max_non_null_offset c) /\
  (c_max_non_null_offset c = 0 \/
   (survives bm m ptr_base (c_max_non_null_offset c) /\ c_max_non_null_offset c < k)).

(* The scenario of the specification: a marker initialized over 1024
   slots, slots 5 and 900 marked while they hold pointers into the range,
   slot 900 set to null, then compaction.  The result is the marker
   before and after the compaction. *)
Definition compaction_scenario (env : VMEnv) : result (t * t) :=
  let base := 65536 in
  let m1 := store_intptr (store_intptr zero_mem (base + 8 * 5) (base + 64))
                         (base + 8 * 900) (base + 128) in
  st1 <- initialize env uninitialized (CHeapBitMap.mk 0 0) base (base + 8 * 1024) ;;
  st2 <- mark_pointer st1 m1 (base + 8 * 5) ;;
  st3 <- mark_pointer st2 m1 (base + 8 * 900) ;;
  let m2 := store_intptr m1 (base + 8 * 900) 0 in
  st4 <- compact st3 m2 base (base + 8 * 1024) ;;
  Ok (st3, st4).

End ArchivePtrMarker.

(** ** DumpRegion *)

Module DumpRegion.

Record t : Type := mk {
  _name : string;
  _base : Z;
  _top : Z;
  _end : Z;
  _is_packed : bool;
  _rs : ReservedSpace;      (* ReservedSpace* : the reservation it points to *)
  _vs : Z                   (* VirtualSpace* , as an address *)
}.

Definition with_top (r : t) (newtop : Z) : t :=
  mk (_name r) (_base r) newtop (_end r) (_is_packed r) (_rs r) (_vs r).

Definition is_packed (r : t) : bool := _is_packed r.

(** Modelled from the spec: [is_allocatable()] of archiveUtils.hpp, "must
    be initialized and not packed": the region has a base and is not
    packed. *)
Definition is_allocatable (r : t) : bool := negb (is_packed r) && negb (_base r =? 0).

(** Modelled from the spec: [MetaspaceShared::report_out_of_space], the
    "capacity-exhaustion diagnostic": it prints the regions and exits the
    VM; the exit carries the two arguments it was called with. *)
Definition report_out_of_space {A : Type} (name : string) (needed_bytes : Z) : result A :=
  Fail (OutOfSpace name needed_bytes).

(* [MetaspaceShared::commit_to(_rs, _vs, newtop)] only changes which pages
   are backed; no operation of this file observes it, and it is left out
   of the state. *)
Definition expand_top_to (env : VMEnv) (r : t) (newtop : Z) : result (Z * t) :=
  _ <- assert_ (is_allocatable r) "must be initialized and not packed" ;;
  _ <- assert_ (_top r <=? newtop) "must not grow backwards" ;;
  _ <- (if _end r <? newtop
        then report_out_of_space (_name r) (to_uintx (newtop - _top r))
        else Ok tt) ;;
  _ <- (if rs_addr (_rs r) =? shared_rs env then
          let delta :=
            if DynamicDumpSharedSpaces env
            then dynamic_object_delta_uintx env newtop
            else static_object_delta_uintx env newtop in
          if MAX_SHARED_DELTA env <? delta
          then Fail (VmExit "Out of memory in the CDS archive")
          else Ok tt
        else Ok tt) ;;
  Ok (newtop, with_top r newtop).

(* The check of the delta against MAX_SHARED_DELTA passes at [newtop]. *)
Definition delta_ok (env : VMEnv) (r : t) (newtop : Z) : Prop :=
  rs_addr (_rs r) = shared_rs env ->
  (if DynamicDumpSharedSpaces env
   then dynamic_object_delta_uintx env newtop
   else static_object_delta_uintx env newtop) <= MAX_SHARED_DELTA env.

(* [p + align_up(num_bytes, ...)] is an addition on a [char*]: it wraps at
   2^64.  The length given to memset is the difference as a [size_t]. *)
Definition allocate (env : VMEnv) (r : t) (m : Mem) (num_bytes : Z) : result (Z * (t * Mem)) :=
  let p := align_up (_top r) (SharedSpaceObjectAlignment env) in
  let newtop := to_uintx (p + align_up num_bytes (SharedSpaceObjectAlignment env)) in
  '(_, r') <- expand_top_to env r newtop ;;
  let m' := memset m p Byte.x00 (to_uintx (newtop - p)) in
  Ok (p, (r', m')).


(** Modelled from the spec: the default of [need_to_mark] in the
    declaration of [append_intptr_t] (archiveUtils.hpp).  The one-argument
    calls are the ones of "appends one word containing v, not marked as a
    pointer" and "appends a zero word (not marked)"; the callers that mark
    pass [true] themselves. *)
Definition need_to_mark_default : bool := false.

Definition append_intptr_t (env : VMEnv) (r : t) (m : Mem) (mk : ArchivePtrMarker.t)
    (n : Z) (need_to_mark : bool) : result (t * Mem * ArchivePtrMarker.t) :=
  _ <- assert_ (is_aligned (_top r) wordSize) "bad alignment" ;;
  let p := _top r in
  let newtop := _top r + wordSize in
  '(_, r') <- expand_top_to env r newtop ;;
  let m' := store_intptr m p n in
  if need_to_mark then
    mk' <- ArchivePtrMarker.mark_pointer mk m' p ;;
    Ok (r', m', mk')
  else Ok (r', m', mk).





(* [_vs->initialize( *_rs, 0)] starts the virtual space with nothing
   committed (and is fatal when it fails); as for commit_to, the commit
   state is not part of the state. *)
Definition init (r : t) (rs : ReservedSpace) (vs : Z) : t :=
  mk (_name r) (rs_base rs) (rs_base rs) (rs_end rs) (_is_packed r) rs vs.

(* [next->_end = _rs->end()] dereferences this region's [_rs], which is
   null until [init] has set it. *)
Definition pack (env : VMEnv) (r : t) (next : option t) : result (t * option t) :=
  _ <- assert_ (negb (is_packed r)) "sanity" ;;
  let r' := mk (_name r) (_base r) (_top r)
               (align_up (_top r) (reserved_space_alignment env))
               true (_rs r) (_vs r) in
  match next with
  | None => Ok (r', None)
  | Some nx =>
      rs <- deref_rs (_rs r) ;;
      Ok (r', Some (mk (_name nx) (_end r') (_end r') (rs_end rs)
                       (_is_packed nx) (_rs r) (_vs r)))
  end.

End DumpRegion.

(** ** Serialization closures *)

(* What a WriteClosure writes through: its dump region, the memory the region
   lies in, and the (static) pointer marker. *)
Record DumpState : Type := mkDS {
  ds_region : DumpRegion.t;
  ds_mem : Mem;
  ds_marker : ArchivePtrMarker.t
}.

Module WriteClosure.

(* _dump_region->append_intptr_t(n, need_to_mark) *)
Definition append (env : VMEnv) (n : Z) (need_to_mark : bool) (s : DumpState)
  : result DumpState :=
  '(r, m, mk) <- DumpRegion.append_intptr_t env (ds_region s) (ds_mem s) (ds_marker s)
                                            n need_to_mark ;;
  Ok (mkDS r m mk).

(** Modelled from the spec: [do_u4] of archiveUtils.hpp, "appends one word
    containing v, not marked as a pointer". *)
Definition do_u4 (env : VMEnv) (v : Z) : DumpState -> result DumpState :=
  append env (to_intptr v) DumpRegion.need_to_mark_default.

(** Modelled from the spec: [do_bool] of archiveUtils.hpp, a scalar as
    [do_u4]. *)
Definition do_bool (env : VMEnv) (b : bool) : DumpState -> result DumpState :=
  append env (to_intptr (of_bool b)) DumpRegion.need_to_mark_default.

(** Modelled from the spec: [do_tag] of archiveUtils.hpp, "writes a tag
    word equal to size". *)
Definition do_tag (env : VMEnv) (tag : Z) : DumpState -> result DumpState :=
  append env (to_intptr tag) DumpRegion.need_to_mark_default.

Definition do_oop (env : VMEnv) (o : Z) (s : DumpState) : result DumpState :=
  if o =? 0 then
    append env 0 DumpRegion.need_to_mark_default s
  else
    _ <- assert_ (is_heap_object_archiving_allowed env)
                 "Archiving heap object is not allowed" ;;
    append env (to_intptr (encode_not_null env o)) DumpRegion.need_to_mark_default s.

(* The reading of "appends ... as a marked word": after do_oop, the bit of
   the slot the word was written to is set in the relocation bitmap. *)
Definition writes_marked_reference (env : VMEnv) (o : Z) (s : DumpState) : Prop :=
  exists s' bm,
    do_oop env o s = Ok s' /\
    ArchivePtrMarker._ptrmap (ds_marker s') = Some bm /\
    CHeapBitMap.at_ bm ((DumpRegion._top (ds_region s)
                         - ArchivePtrMarker._ptr_base (ds_marker s)) / wordSize) = true.

(* The loop of do_region: [words] iterations, each taking the next 8 bytes
   of the caller's buffer. *)
Fixpoint do_region_loop (env : VMEnv) (words : nat) (buf : list byte) (s : DumpState)
  : result DumpState :=
  match words with
  | O => Ok s
  | S k =>
      s' <- append env (to_intptr (le_combine (firstn 8 buf))) true s ;;
      do_region_loop env k (skipn 8 buf) s'
  end.

Definition do_region (env : VMEnv) (start : Z) (buf : list byte) (s : DumpState)
  : result DumpState :=
  let size := Z.of_nat (List.length buf) in
  _ <- assert_ (to_intptr start mod wordSize =? 0) "bad alignment" ;;
  _ <- assert_ (size mod wordSize =? 0) "bad size" ;;
  s1 <- do_tag env (to_int size) s ;;
  do_region_loop env (Z.to_nat (size / wordSize)) buf s1.

End WriteClosure.

Module ReadClosure.

(* The cursor [*_ptr_array] the closure reads through and advances. *)
Record t : Type := mk { _ptr_array : Z }.

(** Modelled from the spec: [nextPtr()] of archiveUtils.hpp, the "internal
    cursor nextWord()": return the word under the cursor and advance the
    cursor by one word. *)
Definition nextPtr (m : Mem) (rc : t) : Z * t :=
  (load_intptr m (_ptr_array rc), mk (_ptr_array rc + wordSize)).

(* [old_p] is the value of [*p] on entry; the result is the value stored. *)
Definition do_ptr (m : Mem) (old_p : Z) (rc : t) : result (Z * t) :=
  _ <- assert_ (old_p =? 0) "initializing previous initialized pointer." ;;
  let '(obj, rc) := nextPtr m rc in
  _ <- assert_ ((0 <=? obj) || (obj <? -100)) "hit tag while initializing ptrs." ;;
  Ok (obj, rc).

Definition do_u4 (m : Mem) (rc : t) : Z * t :=
  let '(obj, rc) := nextPtr m rc in
  (to_u4 (to_uintx obj), rc).

Definition do_bool (m : Mem) (rc : t) : bool * t :=
  let '(obj, rc) := nextPtr m rc in
  (to_bool (to_uintx obj), rc).

Definition do_tag (m : Mem) (tag : Z) (rc : t) : result t :=
  let '(w, rc) := nextPtr m rc in
  let old_tag := to_int w in
  _ <- assert_ (tag =? old_tag) "old tag doesn't match" ;;
  (* FileMapInfo::assert_mark(tag == old_tag) *)
  if tag =? old_tag then Ok rc
  else Fail (FailStop "Mark mismatch while restoring from shared file.").

(* [old_p] is the value of [*p] on entry; the code never reads it. *)
Definition do_oop (env : VMEnv) (m : Mem) (old_p : Z) (rc : t) : result (Z * t) :=
  let '(w, rc) := nextPtr m rc in
  o <- narrow_oop_cast env w ;;
  if is_null o || negb (open_archive_heap_region_mapped env) then
    Ok (0, rc)
  else
    _ <- assert_ (is_heap_object_archiving_allowed env)
                 "Archived heap object is not allowed" ;;
    _ <- assert_ (open_archive_heap_region_mapped env)
                 "Open archive heap region is not mapped" ;;
    Ok (decode_from_archive env o, rc).

(* The reading of "a tag read where a pointer is expected is detected":
   on a word that [do_tag] accepts as the tag [tag], [do_ptr] fails. *)
Definition detects_tag (m : Mem) (tag : Z) (rc : t) : Prop :=
  is_ok (do_tag m tag rc) = true -> is_ok (do_ptr m 0 rc) = false.

(* The reading of "write-once destination" for do_oop: a destination that
   already holds a non-null value makes the operation fail. *)
Definition rejects_initialized_destination (env : VMEnv) (m : Mem) (old_p : Z) (rc : t)
  : Prop :=
  old_p <> 0 -> is_ok (do_oop env m old_p rc) = false.

(* The loop of do_region; the result is the contents given to the
   caller's buffer. *)
Fixpoint do_region_loop (m : Mem) (words : nat) (rc : t) : list byte * t :=
  match words with
  | O => ([], rc)
  | S k =>
      let '(w, rc) := nextPtr m rc in
      let '(rest, rc) := do_region_loop m k rc in
      (le_split 8 w ++ rest, rc)
  end.

Definition do_region (m : Mem) (start size : Z) (rc : t) : result (list byte * t) :=
  _ <- assert_ (to_intptr start mod wordSize =? 0) "bad alignment" ;;
  _ <- assert_ (size mod wordSize =? 0) "bad size" ;;
  rc <- do_tag m (to_int size) rc ;;
  Ok (do_region_loop m (Z.to_nat (size / wordSize)) rc).

End ReadClosure.

(** ** Field sequences

    The traversal code is written once against the closure interface; a
    field sequence is what such a traversal passes to the closure. *)

Inductive field : Type :=
| F_u4 (v : Z)
| F_bool (b : bool)
| F_region (start : Z) (buf : list byte)
| F_oop (o : Z).

(* What the reader is told about a field: its kind and, for a region, the
   buffer to fill.  The destination of a scalar or a reference is fresh
   (zero) when the reader is called. *)
Inductive field_shape : Type :=
| S_u4
| S_bool
| S_region (start size : Z)
| S_oop.

(* What the reader produced for a field. *)
Inductive field_value : Type :=
| V_u4 (v : Z)
| V_bool (b : bool)
| V_region (buf : list byte)
| V_oop (o : Z).

Definition shape_of (f : field) : field_shape :=
  match f with
  | F_u4 _ => S_u4
  | F_bool _ => S_bool
  | F_region start buf => S_region start (Z.of_nat (List.length buf))
  | F_oop _ => S_oop
  end.

Definition write_field (env : VMEnv) (f : field) (s : DumpState) : result DumpState :=
  match f with
  | F_u4 v => WriteClosure.do_u4 env v s
  | F_bool b => WriteClosure.do_bool env b s
  | F_region start buf => WriteClosure.do_region env start buf s
  | F_oop o => WriteClosure.do_oop env o s
  end.

Fixpoint write_fields (env : VMEnv) (fs : list field) (s : DumpState) : result DumpState :=
  match fs with
  | [] => Ok s
  | f :: fs' => s' <- write_field env f s ;; write_fields env fs' s'
  end.

Definition read_field (env : VMEnv) (m : Mem) (sh : field_shape) (rc : ReadClosure.t)
  : result (field_value * ReadClosure.t) :=
  match sh with
  | S_u4 => let '(v, rc) := ReadClosure.do_u4 m rc in Ok (V_u4 v, rc)
  | S_bool => let '(b, rc) := ReadClosure.do_bool m rc in Ok (V_bool b, rc)
  | S_region start size =>
      '(buf, rc) <- ReadClosure.do_region m start size rc ;; Ok (V_region buf, rc)
  | S_oop => '(o, rc) <- ReadClosure.do_oop env m 0 rc ;; Ok (V_oop o, rc)
  end.

Fixpoint read_fields (env : VMEnv) (m : Mem) (shs : list field_shape) (rc : ReadClosure.t)
  : result (list field_value * ReadClosure.t) :=
  match shs with
  | [] => Ok ([], rc)
  | sh :: shs' =>
      '(v, rc) <- read_field env m sh rc ;;
      '(vs, rc) <- read_fields env m shs' rc ;;
      Ok (v :: vs, rc)
  end.

(** ** The words of a field in the archive *)

(* The data words of a raw region of [words] words. *)
Fixpoint buf_words (words : nat) (buf : list byte) : list Z :=
  match words with
  | O => []
  | S k => to_intptr (le_combine (firstn 8 buf)) :: buf_words k (skipn 8 buf)
  end.

(* The persisted layout of a field: one word for a scalar or a reference, a
   tag word and the data words for a raw region. *)
Definition field_words (denv : VMEnv) (f : field) : list Z :=
  match f with
  | F_u4 v => [to_intptr v]
  | F_bool b => [to_intptr (of_bool b)]
  | F_region _ buf =>
      let size := Z.of_nat (List.length buf) in
      to_intptr (to_int size) :: buf_words (Z.to_nat (size / wordSize)) buf
  | F_oop o => [if o =? 0 then 0 else to_intptr (encode_not_null denv o)]
  end.

(* Memory [m] holds the words [ws] from address [a] on. *)
Fixpoint words_at (m : Mem) (a : Z) (ws : list Z) : Prop :=
  match ws with
  | [] => True
  | w :: ws' => load_intptr m a = w /\ words_at m (a + wordSize) ws'
  end.

(* What a successful writer step leaves: the top has advanced over the words
   [ws], which are in memory from the old top on, and nothing below the old
   top has changed. *)
Definition appended (s s' : DumpState) (ws : list Z) : Prop :=
  DumpRegion._top (ds_region s')
  = DumpRegion._top (ds_region s) + wordSize * Z.of_nat (List.length ws) /\
  words_at (ds_mem s') (DumpRegion._top (ds_region s)) ws /\
  (forall x, x < DumpRegion._top (ds_region s) -> ds_mem s' x = ds_mem s x).

(* The assertions of do_region on its arguments, the same in the writer and
   in the reader. *)
Definition region_ok (f : field) : Prop :=
  match f with
  | F_region start buf =>
      to_intptr start mod wordSize = 0 /\ Z.of_nat (List.length buf) mod wordSize = 0
  | _ => True
  end.

(* A field as its C++ types allow it: a u4 is a 32-bit unsigned value, and a
   non-null reference is one the heap subsystem of the dump encodes to a
   non-null narrowOop (32 bits). *)
Definition valid_field (denv : VMEnv) (f : field) : Prop :=
  match f with
  | F_u4 v => is_u4 v
  | F_bool _ => True
  | F_region _ _ => True
  | F_oop o => o <> 0 -> 0 < encode_not_null denv o < 2 ^ 32
  end.

(* The reader's value reproduces the written field exactly: scalars and
   region bytes are equal, a reference agrees in being null or not. *)
Definition reproduces (f : field) (v : field_value) : Prop :=
  match f, v with
  | F_u4 x, V_u4 y => y = x
  | F_bool x, V_bool y => y = x
  | F_region _ buf, V_region buf' => buf' = buf
  | F_oop o, V_oop o' => (o' = 0 <-> o = 0)
  | _, _ => False
  end.

(* As [reproduces], with the reader's gate on the heap region: a reference
   comes back non-null exactly when it was written non-null and the open
   archive heap region is mapped at load time. *)
Definition reproduces_when_mapped (lenv : VMEnv) (f : field) (v : field_value) : Prop :=
  match f, v with
  | F_oop o, V_oop o' =>
      (o' <> 0 <-> (o <> 0 /\ open_archive_heap_region_mapped lenv = true))
  | _, _ => reproduces f v
  end.

(* The round-trip law with references compared for being null or not,
   whatever the load-time environment: a reader replaying the shapes of
   [fs] on the memory left by the writer, from the top the writer started
   at, produces values that reproduce [fs]. *)
Definition round_trip_law (denv lenv : VMEnv) (fs : list field) (s : DumpState) : Prop :=
  forall s',
    write_fields denv fs s = Ok s' ->
    exists vs rc',
      read_fields lenv (ds_mem s') (map shape_of fs)
                  (ReadClosure.mk (DumpRegion._top (ds_region s))) = Ok (vs, rc') /\
      Forall2 reproduces fs vs.

(** ** A concrete configuration

    Used to run the model: 8-byte object alignment, 4 KiB reservation
    granularity, zero-based compressed references with shift 3, a 1 MiB
    reservation at address 65536. *)

Definition sample_rs : ReservedSpace := mkRS 256 65536 (65536 + 1048576).

Definition sample_env : VMEnv :=
  mkEnv 8 4096 256 false
        (fun p => to_uintx (p - 65536)) (fun p => to_uintx (p - 65536)) 2147483647
        (12 * M) true true
        (fun o => to_u4 (Z.shiftr o 3))
        (fun w => if (0 <=? w) && (w <? 2 ^ 32) then Ok w
                  else Fail (AssertFailed "narrowOop overflow"))
        (fun n => Z.shiftl n 3).

(* The same, with the open archive heap region not mapped. *)
Definition sample_env_unmapped : VMEnv :=
  mkEnv 8 4096 256 false
        (fun p => to_uintx (p - 65536)) (fun p => to_uintx (p - 65536)) 2147483647
        (12 * M) true false
        (fun o => to_u4 (Z.shiftr o 3))
        (fun w => if (0 <=? w) && (w <? 2 ^ 32) then Ok w
                  else Fail (AssertFailed "narrowOop overflow"))
        (fun n => Z.shiftl n 3).

(* A region as its constructor leaves it: no base, top or end, and no
   reservation ([_rs] is null). *)
Definition fresh_region (name : string) : DumpRegion.t :=
  DumpRegion.mk name 0 0 0 false (mkRS 0 0 0) 0.

(* A memory in which no byte is zero. *)
Definition ff_mem : Mem := fun _ => Byte.xff.

Definition sample_region : DumpRegion.t :=
  DumpRegion.init (fresh_region "rw") sample_rs 512.

(* A region of 16 bytes of capacity. *)
Definition small_region : DumpRegion.t :=
  DumpRegion.init (fresh_region "mc") (mkRS 300 4096 (4096 + 16)) 600.

(* The marker over the 1024 slots at the start of the sample reservation,
   with a map of [bits] bits. *)
Definition sample_marker (bits : Z) : ArchivePtrMarker.t :=
  ArchivePtrMarker.mk (Some (CHeapBitMap.initialize bits)) 65536 (65536 + 1024 * 8) false.

Definition sample_state : DumpState :=
  mkDS sample_region zero_mem (sample_marker 1024).

(* A u4, a bool, a raw region of two words (43690 and 0), a non-null and a
   null reference. *)
Definition sample_fields : list field :=
  [F_u4 7; F_bool true; F_region 4096 (le_split 8 43690 ++ le_split 8 0);
   F_oop 4096; F_oop 0].



(** ** Further notions used by the properties of the marker and the regions *)

(* The bitmap index of a slot address: [ptr_loc - _ptr_base] on [address*]. *)
Definition slot_index (st : ArchivePtrMarker.t) (ptr_loc : Z) : Z :=
  (ptr_loc - ArchivePtrMarker._ptr_base st) / wordSize.

(* The slot lies in the instrumented range and holds a non-null value: the
   case in which mark_pointer sets a bit. *)
Definition marks (st : ArchivePtrMarker.t) (m : Mem) (ptr_loc : Z) : bool :=
  (ArchivePtrMarker._ptr_base st <=? ptr_loc) && (ptr_loc <? ArchivePtrMarker._ptr_end st)
  && negb (load_address m ptr_loc =? 0).

(* The slot passes the two assertions mark_pointer makes on it. *)
Definition markable (st : ArchivePtrMarker.t) (m : Mem) (ptr_loc : Z) : bool :=
  if (ArchivePtrMarker._ptr_base st <=? ptr_loc) && (ptr_loc <? ArchivePtrMarker._ptr_end st)
  then negb (load_address m ptr_loc =? ArchivePtrMarker._ptr_base st)
       && ((load_address m ptr_loc =? 0) || (to_uintx ptr_loc mod wordSize =? 0))
  else true.

(* The marker is initialized and its bitmap is well formed. *)

(* The cursors of a region are ordered. *)
Definition region_inv (r : DumpRegion.t) : Prop :=
  DumpRegion._base r <= DumpRegion._top r <= DumpRegion._end r.

(* Bit [j] is the bit of a non-zero word of [ws], the words being written to
   the slots [idx0], [idx0 + 1], ... *)
Definition word_marked (ws : list Z) (idx0 j : Z) : bool :=
  (idx0 <=? j) && (j <? idx0 + Z.of_nat (List.length ws))
  && negb (to_uintx (nth (Z.to_nat (j - idx0)) ws 0) =? 0).

(* Memory with a pointer into the sample range stored in slot 5 of it, and
   the two-word raw region (43690, 0) used to run the writer. *)
(* The region and the memory after any number of operations that grow the
   region: the closure of the successful calls of [expand_top_to],
   [allocate] and [append_intptr_t]. *)
Inductive region_steps (env : VMEnv) (r : DumpRegion.t) (m : Mem)
  : DumpRegion.t -> Mem -> Prop :=
| steps_none : region_steps env r m r m
| steps_expand r1 m1 newtop t r2 :
    region_steps env r m r1 m1 ->
    DumpRegion.expand_top_to env r1 newtop = Ok (t, r2) ->
    region_steps env r m r2 m1
| steps_allocate r1 m1 n p r2 m2 :
    region_steps env r m r1 m1 ->
    DumpRegion.allocate env r1 m1 n = Ok (p, (r2, m2)) ->
    region_steps env r m r2 m2
| steps_append r1 m1 mk n need_to_mark r2 m2 mk' :
    region_steps env r m r1 m1 ->
    DumpRegion.append_intptr_t env r1 m1 mk n need_to_mark = Ok (r2, m2, mk') ->
    region_steps env r m r2 m2.

Definition sample_mem : Mem := store_intptr zero_mem (65536 + 8 * 5) (65536 + 64).
Definition sample_buf : list byte := le_split 8 43690 ++ le_split 8 0.

(** * Properties *)

(** ** The error monad *)

Lemma bind_Ok {A B : Type} (c : result A) (k : A -> result B) (b : B) :
  bind c k = Ok b -> exists a, c = Ok a /\ k a = Ok b.
Proof.
  destruct c as [a | e]; simpl; intros H; [exists a; auto | discriminate].
Qed.

Lemma assert_Ok (cond : bool) (msg : string) (u : unit) :
  assert_ cond msg = Ok u -> cond = true.
Proof. destruct cond; simpl; [reflexivity | discriminate]. Qed.


(* Invert a successful monadic computation, one bind or assertion at a time. *)
Ltac inv_ok H :=
  repeat match type of H with
  | bind _ _ = Ok _ =>
      let a := fresh "a" in let Ha := fresh "Ha" in
      apply bind_Ok in H; destruct H as (a & Ha & H);
      try (apply assert_Ok in Ha)
  | Fail _ = Ok _ => discriminate H
  end.

(** ** The bitmap *)

Module BitMapFacts.
Import CHeapBitMap.

Lemma at_set_bit bm i j : 0 <= i ->
  at_ (set_bit bm i) j = (i =? j) || at_ bm j.
Proof. intros Hi. unfold at_, set_bit; simpl. apply Z.setbit_eqb; assumption. Qed.

Lemma at_clear_bit bm i j :
  at_ (clear_bit bm i) j = at_ bm j && negb (i =? j).
Proof. unfold at_, clear_bit; simpl. apply Z.clearbit_eqb. Qed.

Lemma at_resize bm n j : 0 <= n ->
  at_ (resize bm n) j = at_ bm j && ((0 <=? j) && (j <? n)).
Proof.
  intros Hn. unfold at_, resize; simpl.
  rewrite Z.land_spec, Z.testbit_ones by assumption. reflexivity.
Qed.

Lemma at_neg bm j : j < 0 -> at_ bm j = false.
Proof. intros. unfold at_. apply Z.testbit_neg_r; assumption. Qed.

Lemma size_set_bit bm i : size (set_bit bm i) = size bm.
Proof. reflexivity. Qed.

Lemma size_clear_bit bm i : size (clear_bit bm i) = size bm.
Proof. reflexivity. Qed.

Lemma size_resize bm n : size (resize bm n) = n.
Proof. reflexivity. Qed.

Lemma wf_initialize n : 0 <= n -> wf (initialize n).
Proof.
  intros Hn; split; [exact Hn|].
  intros j Hj. unfold at_, initialize in Hj; simpl in Hj.
  rewrite Z.bits_0 in Hj. discriminate.
Qed.

Lemma wf_set_bit bm i : wf bm -> 0 <= i < size bm -> wf (set_bit bm i).
Proof.
  intros [Hs Hb] Hi; split; [exact Hs|].
  intros j Hj. rewrite at_set_bit in Hj by lia. rewrite size_set_bit.
  apply orb_true_iff in Hj as [Hj | Hj]; [apply Z.eqb_eq in Hj; lia | auto].
Qed.

Lemma wf_clear_bit bm i : wf bm -> wf (clear_bit bm i).
Proof.
  intros [Hs Hb]; split; [exact Hs|].
  intros j Hj. rewrite at_clear_bit in Hj.
  apply andb_true_iff in Hj as [Hj _]. auto.
Qed.

Lemma wf_resize bm n : 0 <= n -> wf (resize bm n).
Proof.
  intros Hn; split; [exact Hn|].
  intros j Hj. rewrite at_resize in Hj by assumption. rewrite size_resize.
  apply andb_true_iff in Hj as [_ Hj]. apply andb_true_iff in Hj as [H1 H2].
  apply Z.leb_le in H1. apply Z.ltb_lt in H2. lia.
Qed.

(* Growing a well-formed map changes no bit. *)
Lemma at_resize_grow bm n j : wf bm -> size bm <= n ->
  at_ (resize bm n) j = at_ bm j.
Proof.
  intros [Hs Hb] Hn. rewrite at_resize by lia.
  destruct (at_ bm j) eqn:E; [|reflexivity].
  apply Hb in E. simpl.
  apply andb_true_iff; split; [apply Z.leb_le | apply Z.ltb_lt]; lia.
Qed.

End BitMapFacts.

(** ** ArchivePtrMarker::mark_pointer *)

Section MarkPointer.
Import ArchivePtrMarker CHeapBitMap BitMapFacts.

Lemma in_range_true (st : ArchivePtrMarker.t) (ptr_loc : Z) :
  _ptr_base st <= ptr_loc < _ptr_end st ->
  (_ptr_base st <=? ptr_loc) && (ptr_loc <? _ptr_end st) = true.
Proof.
  intros [H1 H2]. apply andb_true_iff; split; [apply Z.leb_le | apply Z.ltb_lt]; assumption.
Qed.

Lemma in_range_false (st : ArchivePtrMarker.t) (ptr_loc : Z) :
  ~ (_ptr_base st <= ptr_loc < _ptr_end st) ->
  (_ptr_base st <=? ptr_loc) && (ptr_loc <? _ptr_end st) = false.
Proof.
  intros H. apply andb_false_iff.
  destruct (Z.leb_spec (_ptr_base st) ptr_loc); [right | left; reflexivity].
  apply Z.ltb_ge. lia.
Qed.

(** C2.  On an initialized, not yet compacted marker, [mark_pointer] leaves
    the marker as it is when the slot address is outside
    [[_ptr_base, _ptr_end)], and also when the slot is in range and holds
    null.  When the slot is in range and holds a non-null value, the bit
    of index [(ptr_loc - _ptr_base) / wordSize] is set, after the bitmap
    was resized to [(index + 1) * 2] bits if the index was not below its
    size; every other bit is unchanged.  (The value of an in-range slot is
    required not to be [_ptr_base], and a marked slot to be word
    aligned, as the code asserts.) *)
Theorem mark_pointer_spec
    (st : ArchivePtrMarker.t) (m : Mem) (ptr_loc : Z) (ptrmap : CHeapBitMap.t) :
  _ptrmap st = Some ptrmap -> _compacted st = false -> wf ptrmap ->
  let in_range := _ptr_base st <= ptr_loc < _ptr_end st in
  let value := load_address m ptr_loc in
  let idx := (ptr_loc - _ptr_base st) / wordSize in
  (~ in_range -> mark_pointer st m ptr_loc = Ok st) /\
  (in_range -> value = 0 -> value <> _ptr_base st -> mark_pointer st m ptr_loc = Ok st) /\
  (in_range -> value <> 0 -> value <> _ptr_base st ->
   to_uintx ptr_loc mod wordSize = 0 ->
   exists ptrmap',
     mark_pointer st m ptr_loc = Ok (with_ptrmap st ptrmap') /\
     size ptrmap' = (if size ptrmap <=? idx then (idx + 1) * 2 else size ptrmap) /\
     wf ptrmap' /\
     at_ ptrmap' idx = true /\
     (forall j, j <> idx -> at_ ptrmap' j = at_ ptrmap j)).
Proof.
  intros Hmap Hc Hwf in_range value idx.
  unfold mark_pointer. rewrite Hmap, Hc. simpl.
  split; [| split].
  - intros Hout. rewrite (in_range_false _ _ Hout). reflexivity.
  - intros Hin Hnull Hbase. rewrite (in_range_true _ _ Hin).
    fold value. apply Z.eqb_neq in Hbase. rewrite Hbase. simpl.
    apply Z.eqb_eq in Hnull. rewrite Hnull. reflexivity.
  - intros Hin Hnn Hbase Hal. rewrite (in_range_true _ _ Hin).
    fold value. apply Z.eqb_neq in Hbase. rewrite Hbase. simpl.
    apply Z.eqb_neq in Hnn. rewrite Hnn. simpl.
    apply Z.eqb_eq in Hal. rewrite Hal. simpl.
    fold idx.
    assert (Hidx : 0 <= idx).
    { subst idx. apply Z.div_pos; [unfold in_range in Hin; lia | reflexivity]. }
    destruct (Z.leb_spec (size ptrmap) idx) as [Hgrow | Hfit].
    + exists (set_bit (resize ptrmap ((idx + 1) * 2)) idx).
      rewrite size_resize.
      assert (Hlt : (idx <? (idx + 1) * 2) = true) by (apply Z.ltb_lt; lia).
      rewrite Hlt. simpl.
      split; [reflexivity|]. split; [reflexivity|]. split; [|split].
      * apply wf_set_bit; [apply wf_resize; lia | rewrite size_resize; lia].
      * rewrite at_set_bit by lia. rewrite Z.eqb_refl. reflexivity.
      * intros j Hj. rewrite at_set_bit by lia.
        apply not_eq_sym in Hj. apply Z.eqb_neq in Hj. rewrite Hj. simpl.
        apply at_resize_grow; [assumption | lia].
    + exists (set_bit ptrmap idx).
      assert (Hlt : (idx <? size ptrmap) = true) by (apply Z.ltb_lt; lia).
      rewrite Hlt. simpl.
      split; [reflexivity|]. split; [reflexivity|]. split; [|split].
      * apply wf_set_bit; [assumption | lia].
      * rewrite at_set_bit by lia. rewrite Z.eqb_refl. reflexivity.
      * intros j Hj. rewrite at_set_bit by lia.
        apply not_eq_sym in Hj. apply Z.eqb_neq in Hj. rewrite Hj. reflexivity.
Qed.

End MarkPointer.

(** ** Memory *)

Lemma store_bytes_outside (bs : list byte) : forall (m : Mem) (a x : Z),
  x < a \/ a + Z.of_nat (List.length bs) <= x ->
  store_bytes m a bs x = m x.
Proof.
  induction bs as [| b bs IH]; intros m a x Hx; simpl; [reflexivity|].
  simpl List.length in Hx. rewrite IH by lia.
  unfold store_byte. destruct (Z.eqb_spec x a); [lia | reflexivity].
Qed.


Lemma load_bytes_ext (n : nat) : forall (m m' : Mem) (a : Z),
  (forall x, a <= x < a + Z.of_nat n -> m x = m' x) ->
  load_bytes m a n = load_bytes m' a n.
Proof.
  induction n as [| n IH]; intros m m' a H; simpl; [reflexivity|].
  rewrite (H a) by lia. f_equal. apply IH. intros x Hx. apply H. lia.
Qed.

Lemma load_store_bytes (bs : list byte) : forall (m : Mem) (a : Z),
  load_bytes (store_bytes m a bs) a (List.length bs) = bs.
Proof.
  induction bs as [| b bs IH]; intros m a; simpl; [reflexivity|].
  rewrite IH. f_equal.
  rewrite store_bytes_outside by lia.
  unfold store_byte. rewrite Z.eqb_refl. reflexivity.
Qed.

Lemma to_intptr_mod (w : Z) : is_intptr w -> to_intptr (w mod 2 ^ 64) = w.
Proof.
  unfold is_intptr, to_intptr. intros H.
  rewrite Zplus_mod_idemp_l.
  destruct (Z_lt_le_dec w 0).
  - replace (w + 2 ^ 63) with (w + 2 ^ 63 + 0 * 2 ^ 64) by lia.
    rewrite Z_mod_plus_full, Z.mod_small; lia.
  - rewrite Z.mod_small; lia.
Qed.

Lemma to_intptr_range (z : Z) : is_intptr (to_intptr z).
Proof.
  unfold is_intptr, to_intptr.
  pose proof (Z.mod_pos_bound (z + 2 ^ 63) (2 ^ 64) eq_refl). lia.
Qed.

Lemma to_intptr_id (w : Z) : is_intptr w -> to_intptr w = w.
Proof.
  unfold is_intptr, to_intptr. intros H. rewrite Z.mod_small; lia.
Qed.

Lemma load_address_store_intptr (m : Mem) (a w : Z) :
  load_address (store_intptr m a w) a = w mod 2 ^ 64.
Proof.
  unfold load_address, store_intptr.
  replace 8%nat with (List.length (le_split 8 w)) at 1 by apply length_le_split.
  rewrite load_store_bytes, le_combine_split. reflexivity.
Qed.

Lemma load_intptr_store_intptr (m : Mem) (a w : Z) :
  is_intptr w -> load_intptr (store_intptr m a w) a = w.
Proof.
  intros H. unfold load_intptr. rewrite load_address_store_intptr.
  apply to_intptr_mod; assumption.
Qed.

Lemma store_intptr_outside (m : Mem) (a w x : Z) :
  x < a \/ a + wordSize <= x -> store_intptr m a w x = m x.
Proof.
  intros H. unfold store_intptr. apply store_bytes_outside.
  rewrite length_le_split. unfold wordSize in H. lia.
Qed.

Lemma load_intptr_ext (m m' : Mem) (a : Z) :
  (forall x, a <= x < a + wordSize -> m x = m' x) ->
  load_intptr m a = load_intptr m' a.
Proof.
  intros H. unfold load_intptr, load_address. f_equal. f_equal.
  apply load_bytes_ext. exact H.
Qed.


Lemma memset_outside (m : Mem) (p len x : Z) (c : byte) :
  x < p \/ p + Z.max 0 len <= x -> memset m p c len x = m x.
Proof.
  intros H. unfold memset. apply store_bytes_outside.
  rewrite repeat_length. lia.
Qed.


(** ** Alignment *)

Lemma power_of_2_positive (a : Z) : is_power_of_2 a -> 0 < a.
Proof. intros (k & Hk & ->). apply Z.pow_pos_nonneg; lia. Qed.

Lemma power_of_2_bound (a : Z) : is_power_of_2 a -> a <= 2 ^ 30.
Proof.
  intros (k & Hk & ->). apply Z.pow_le_mono_r; lia.
Qed.

(* The rounding as the code computes it, for a power-of-two alignment:
   the sum is taken modulo 2^64 before the low bits are cleared. *)
Lemma align_up_pow2 (x a : Z) :
  is_power_of_2 a -> align_up x a = (x + (a - 1)) mod 2 ^ 64 / a * a.
Proof.
  intros (k & Hk & ->).
  unfold align_up, align_down, align_mask, to_uintx.
  rewrite <- Z.ldiff_land.
  replace (2 ^ k - 1) with (Z.ones k) at 2 by (rewrite Z.ones_equiv; lia).
  rewrite Z.ldiff_ones_r by lia.
  rewrite Z.shiftl_mul_pow2, Z.shiftr_div_pow2 by lia.
  reflexivity.
Qed.

Lemma align_up_eq (x a : Z) :
  is_power_of_2 a -> 0 <= x -> x + a <= 2 ^ 64 ->
  align_up x a = (x + (a - 1)) / a * a.
Proof.
  intros Ha Hx Hb. rewrite (align_up_pow2 x a Ha).
  pose proof (power_of_2_positive a Ha).
  rewrite Z.mod_small by lia. reflexivity.
Qed.

Lemma align_up_spec (x a : Z) :
  is_power_of_2 a -> 0 <= x -> x + a <= 2 ^ 64 ->
  align_up x a mod a = 0 /\ x <= align_up x a < x + a.
Proof.
  intros Ha Hx Hb. rewrite (align_up_eq x a Ha Hx Hb).
  destruct Ha as (k & Hk & ->).
  assert (Hpos : 0 < 2 ^ k) by (apply Z.pow_pos_nonneg; lia).
  split; [apply Z_mod_mult|].
  pose proof (Z.div_mod (x + (2 ^ k - 1)) (2 ^ k) ltac:(lia)) as Hdm.
  pose proof (Z.mod_pos_bound (x + (2 ^ k - 1)) (2 ^ k) Hpos) as Hr.
  lia.
Qed.


Lemma align_up_nonneg (x a : Z) : 0 <= align_up x a.
Proof.
  unfold align_up, align_down. apply Z.land_nonneg. left.
  unfold to_uintx. apply Z.mod_pos_bound. reflexivity.
Qed.

(* Clearing bits of a non-negative number: the result is not above the
   number, and adding the cleared mask (its low 64 bits) to it does not
   reach 2^64. *)
Lemma ldiff_bounds (y a : Z) :
  0 <= y < 2 ^ 64 ->
  0 <= Z.ldiff y a <= y /\ Z.ldiff y a + a mod 2 ^ 64 < 2 ^ 64.
Proof.
  intros Hy.
  assert (Hnn : 0 <= Z.ldiff y a) by (apply Z.ldiff_nonneg; left; lia).
  assert (Hle : Z.ldiff y a <= y).
  { pose proof (Z.add_lor_land (Z.ldiff y a) (Z.land y a)) as E.
    rewrite Z.lor_ldiff_and in E.
    replace (Z.land (Z.ldiff y a) (Z.land y a)) with 0 in E.
    - assert (0 <= Z.land y a) by (apply Z.land_nonneg; left; lia). lia.
    - symmetry. apply Z.bits_inj'. intros n Hn.
      rewrite Z.bits_0, !Z.land_spec, Z.ldiff_spec.
      destruct (Z.testbit y n), (Z.testbit a n); reflexivity. }
  split; [lia|].
  pose proof (Z.add_nocarry_mod_lt_pow2 (Z.ldiff y a) a 64 ltac:(lia)
                (Z.land_ldiff y a)) as H.
  rewrite (Z.mod_small (Z.ldiff y a)) in H by lia. exact H.
Qed.

Lemma align_up_bounds (x a : Z) :
  align_up x a <= (x + (a - 1)) mod 2 ^ 64 /\
  align_up x a + (a - 1) mod 2 ^ 64 < 2 ^ 64.
Proof.
  unfold align_up, align_down, align_mask, to_uintx.
  rewrite <- Z.ldiff_land.
  pose proof (Z.mod_pos_bound (x + (a - 1)) (2 ^ 64) ltac:(lia)) as Hy.
  destruct (ldiff_bounds _ (a - 1) Hy) as [[_ H1] H2].
  split; assumption.
Qed.

(* The new top of an allocation does not wrap when it is not below the
   old top. *)
Lemma aligned_sum_no_wrap (top n a : Z) :
  0 <= top ->
  top <= to_uintx (align_up top a + align_up n a) ->
  align_up top a + align_up n a < 2 ^ 64.
Proof.
  unfold to_uintx. intros Htop Hle.
  destruct (align_up_bounds top a) as [Hp _].
  destruct (align_up_bounds n a) as [_ Hr].
  pose proof (align_up_nonneg top a) as Hp0.
  pose proof (align_up_nonneg n a) as Hr0.
  pose proof (Z.mod_pos_bound (a - 1) (2 ^ 64) ltac:(lia)) as Hs.
  pose proof (Z.mod_pos_bound (top + (a - 1)) (2 ^ 64) ltac:(lia)) as Hy.
  destruct (Z.lt_ge_cases (align_up top a + align_up n a) (2 ^ 64)) as [| Hwrap];
    [assumption | exfalso].
  assert (E : (align_up top a + align_up n a) mod 2 ^ 64
              = align_up top a + align_up n a - 2 ^ 64)
    by (symmetry; apply Z.mod_unique with (q := 1); lia).
  rewrite E in Hle.
  assert (Hy2 : (top + (a - 1)) mod 2 ^ 64 <= top + (a - 1) mod 2 ^ 64).
  { rewrite <- Zplus_mod_idemp_r. apply Z.mod_le; lia. }
  lia.
Qed.


(** ** DumpRegion *)

Section DumpRegionFacts.
Import DumpRegion.
Variable env : VMEnv.

Lemma expand_top_to_Ok (r r' : DumpRegion.t) (newtop t : Z) :
  expand_top_to env r newtop = Ok (t, r') ->
  is_allocatable r = true /\ _top r <= newtop <= _end r /\
  t = newtop /\ r' = with_top r newtop.
Proof.
  unfold expand_top_to. intros H. inv_ok H.
  apply Z.leb_le in Ha0.
  destruct (Z.ltb_spec (_end r) newtop) as [Hlt | Hge];
    [unfold report_out_of_space in Ha1; discriminate|].
  inversion H; subst. repeat split; auto; lia.
Qed.

Lemma expand_top_to_succeeds (r : DumpRegion.t) (newtop : Z) :
  is_allocatable r = true -> _top r <= newtop <= _end r -> delta_ok env r newtop ->
  expand_top_to env r newtop = Ok (newtop, with_top r newtop).
Proof.
  intros Hal [H1 H2] Hd. unfold expand_top_to. rewrite Hal. simpl.
  apply Z.leb_le in H1. rewrite H1. simpl.
  apply Z.ltb_ge in H2. rewrite H2. simpl.
  destruct (Z.eqb_spec (rs_addr (_rs r)) (shared_rs env)) as [E | E]; simpl;
    [| reflexivity].
  specialize (Hd E). apply Z.ltb_ge in Hd. rewrite Hd. reflexivity.
Qed.

Lemma expand_top_to_out_of_space (r : DumpRegion.t) (newtop : Z) :
  is_allocatable r = true -> _top r <= newtop -> _end r < newtop ->
  expand_top_to env r newtop = Fail (OutOfSpace (_name r) (to_uintx (newtop - _top r))).
Proof.
  intros Hal H1 H2. unfold expand_top_to. rewrite Hal. simpl.
  apply Z.leb_le in H1. rewrite H1. simpl.
  apply Z.ltb_lt in H2. rewrite H2. reflexivity.
Qed.

Lemma expand_top_to_not_allocatable (r : DumpRegion.t) (newtop : Z) :
  is_allocatable r = false ->
  expand_top_to env r newtop = Fail (AssertFailed "must be initialized and not packed").
Proof. intros H. unfold expand_top_to. rewrite H. reflexivity. Qed.


(* What a successful [allocate] has done, in the terms of the code. *)
Lemma allocate_Ok_raw (r r' : DumpRegion.t) (m m' : Mem) (num_bytes p : Z) :
  allocate env r m num_bytes = Ok (p, (r', m')) ->
  let A := SharedSpaceObjectAlignment env in
  let newtop := to_uintx (align_up (_top r) A + align_up num_bytes A) in
  p = align_up (_top r) A /\
  r' = with_top r newtop /\
  m' = memset m p Byte.x00 (to_uintx (newtop - p)) /\
  is_allocatable r = true /\
  _top r <= newtop <= _end r.
Proof.
  intros H. cbv zeta. unfold allocate in H. cbv zeta in H. inv_ok H.
  destruct a as [t r1].
  apply expand_top_to_Ok in Ha as (Hal & Hle & _ & ->).
  inversion H; subst; clear H.
  split; [reflexivity|]. split; [reflexivity|]. split; [reflexivity|].
  split; [assumption | exact Hle].
Qed.

(* For a region whose top is an address, a successful [allocate] has not
   wrapped: the new top is the aligned top plus the rounded size. *)
Lemma allocate_Ok (r r' : DumpRegion.t) (m m' : Mem) (num_bytes p : Z) :
  0 <= _top r ->
  allocate env r m num_bytes = Ok (p, (r', m')) ->
  let A := SharedSpaceObjectAlignment env in
  p = align_up (_top r) A /\
  r' = with_top r (p + align_up num_bytes A) /\
  m' = memset m p Byte.x00 (align_up num_bytes A) /\
  is_allocatable r = true /\
  _top r <= p + align_up num_bytes A <= _end r /\
  p + align_up num_bytes A < 2 ^ 64.
Proof.
  intros Htop H. cbv zeta.
  apply allocate_Ok_raw in H as (-> & -> & -> & Hal & Hle). cbv zeta in Hle.
  set (A := SharedSpaceObjectAlignment env) in *.
  pose proof (aligned_sum_no_wrap (_top r) num_bytes A Htop (proj1 Hle)) as Hnw.
  pose proof (align_up_nonneg (_top r) A) as Hp0.
  pose proof (align_up_nonneg num_bytes A) as Hr0.
  assert (E : to_uintx (align_up (_top r) A + align_up num_bytes A)
              = align_up (_top r) A + align_up num_bytes A)
    by (unfold to_uintx; apply Z.mod_small; lia).
  rewrite E in *.
  replace (align_up (_top r) A + align_up num_bytes A - align_up (_top r) A)
    with (align_up num_bytes A) by lia.
  assert (E2 : to_uintx (align_up num_bytes A) = align_up num_bytes A)
    by (unfold to_uintx; apply Z.mod_small; lia).
  rewrite E2.
  split; [reflexivity|]. split; [reflexivity|]. split; [reflexivity|].
  split; [assumption|]. split; [exact Hle | exact Hnw].
Qed.

(* With a power-of-two alignment, the aligned top of a successful
   [allocate] has not wrapped either. *)
Lemma allocate_Ok_aligned (r r' : DumpRegion.t) (m m' : Mem) (num_bytes p : Z) :
  let A := SharedSpaceObjectAlignment env in
  is_power_of_2 A -> 0 <= _top r ->
  allocate env r m num_bytes = Ok (p, (r', m')) ->
  _top r + A <= 2 ^ 64 /\ p mod A = 0 /\ _top r <= p < _top r + A.
Proof.
  cbv zeta. set (A := SharedSpaceObjectAlignment env).
  intros Hpow Htop H.
  apply (allocate_Ok r r' m m' num_bytes p Htop) in H as (Hp & _ & _ & _ & Hle & Hnw).
  fold A in Hp, Hle, Hnw.
  pose proof (power_of_2_positive A Hpow) as HA.
  pose proof (power_of_2_bound A Hpow) as HAb.
  pose proof (align_up_nonneg num_bytes A) as Hr0.
  destruct (align_up_bounds num_bytes A) as [_ Hr].
  rewrite (Z.mod_small (A - 1)) in Hr by lia.
  assert (Hfit : _top r + A <= 2 ^ 64).
  { destruct (Z.le_gt_cases (_top r + A) (2 ^ 64)) as [| Hwrap]; [assumption | exfalso].
    assert (Hz : p = 0).
    { rewrite Hp, (align_up_pow2 _ _ Hpow).
      replace ((_top r + (A - 1)) mod 2 ^ 64) with (_top r + (A - 1) - 2 ^ 64)
        by (apply Z.mod_unique with (q := 1); lia).
      rewrite Z.div_small by lia. reflexivity. }
    lia. }
  split; [exact Hfit|].
  rewrite Hp. apply align_up_spec; assumption.
Qed.






End DumpRegionFacts.

Lemma sample_alignment : is_power_of_2 (SharedSpaceObjectAlignment sample_env).
Proof. exists 3. split; [lia | reflexivity]. Qed.

Lemma sample_granularity : is_power_of_2 (reserved_space_alignment sample_env).
Proof. exists 12. split; [lia | reflexivity]. Qed.



Section OutOfSpace.
Import DumpRegion.
Variable env : VMEnv.


End OutOfSpace.



Section Pack.
Import DumpRegion.
Variable env : VMEnv.

(** C6.  On a region that is not packed (with a power-of-two reservation
    granularity and a top inside the address space) and that, when a next
    region is given, has been initialized (its reservation pointer is not
    null), [pack] succeeds; the region's end becomes its top rounded up to
    that granularity, base and top are unchanged, and the region is
    packed: no [expand_top_to], [allocate] or [append_intptr_t] succeeds on
    it any more, so the bytes between its top and its end cannot be handed
    out.  When a next region is given, its base and top are this region's
    new end, its reservation and virtual space are this region's, and its
    end is the end of the reservation. *)
Theorem pack_spec (r : DumpRegion.t) (next : option DumpRegion.t) :
  is_packed r = false ->
  is_power_of_2 (reserved_space_alignment env) ->
  0 <= _top r -> _top r + reserved_space_alignment env <= 2 ^ 64 ->
  (next <> None -> rs_addr (_rs r) <> 0) ->
  exists r' next',
    pack env r next = Ok (r', next') /\
    _end r' = align_up (_top r) (reserved_space_alignment env) /\
    _end r' mod reserved_space_alignment env = 0 /\
    _top r <= _end r' < _top r + reserved_space_alignment env /\
    _base r' = _base r /\ _top r' = _top r /\
    is_packed r' = true /\
    (forall newtop, is_ok (expand_top_to env r' newtop) = false) /\
    (forall m n, is_ok (allocate env r' m n) = false) /\
    (forall m mk n need_to_mark,
        is_ok (append_intptr_t env r' m mk n need_to_mark) = false) /\
    match next, next' with
    | None, None => True
    | Some nx, Some nx' =>
        _base nx' = _end r' /\ _top nx' = _end r' /\
        _rs nx' = _rs r /\ _vs nx' = _vs r /\
        _end nx' = rs_end (_rs r) /\ _name nx' = _name nx
    | _, _ => False
    end.
Proof.
  intros Hp Hpow Htop Htb Hinit.
  destruct (align_up_spec _ _ Hpow Htop Htb) as [Hmod Hrange].
  set (r' := mk (_name r) (_base r) (_top r)
                (align_up (_top r) (reserved_space_alignment env))
                true (_rs r) (_vs r)).
  assert (Hna : is_allocatable r' = false) by reflexivity.
  assert (Hrest :
    (forall newtop, is_ok (expand_top_to env r' newtop) = false) /\
    (forall m n, is_ok (allocate env r' m n) = false) /\
    (forall m mk n need_to_mark,
        is_ok (append_intptr_t env r' m mk n need_to_mark) = false)).
  { split; [| split].
    - intros newtop. rewrite expand_top_to_not_allocatable; auto.
    - intros m n. unfold allocate. rewrite expand_top_to_not_allocatable; auto.
    - intros m mk n need. unfold append_intptr_t.
      destruct (assert_ _ _); cbn [bind]; [| reflexivity].
      rewrite expand_top_to_not_allocatable; auto. }
  destruct Hrest as (Hr1 & Hr2 & Hr3).
  destruct next as [nx |].
  - assert (Hnz : rs_addr (_rs r) <> 0) by (apply Hinit; discriminate).
    exists r', (Some (mk (_name nx) (_end r') (_end r') (rs_end (_rs r))
                         (_is_packed nx) (_rs r) (_vs r))).
    split.
    + unfold pack, deref_rs. rewrite Hp. cbn [negb assert_ bind].
      apply Z.eqb_neq in Hnz. rewrite Hnz. reflexivity.
    + cbn. auto 20.
  - exists r', None. split.
    + unfold pack. rewrite Hp. reflexivity.
    + cbn. auto 20.
Qed.

(* On a region that was never initialized, [pack] with a next region
   dereferences the null [_rs]. *)
Lemma pack_uninitialized (r nx : DumpRegion.t) :
  is_packed r = false -> rs_addr (_rs r) = 0 ->
  pack env r (Some nx) = Fail (Crash "ReservedSpace pointer is NULL").
Proof.
  intros Hp Hz. unfold pack, deref_rs. rewrite Hp. cbn [negb assert_ bind].
  rewrite Hz. reflexivity.
Qed.

End Pack.

Lemma pack_spec_witness :
  let r := DumpRegion.with_top sample_region (65536 + 100) in
  exists r' nx',
    DumpRegion.pack sample_env r (Some (fresh_region "ro")) = Ok (r', Some nx') /\
    DumpRegion._end r' = 65536 + 4096 /\
    DumpRegion._base nx' = 65536 + 4096 /\ DumpRegion._top nx' = 65536 + 4096 /\
    (forall m n, is_ok (DumpRegion.allocate sample_env r' m n) = false).
Proof.
  intros r.
  destruct (pack_spec sample_env r (Some (fresh_region "ro")))
    as (r' & nx' & Hpack & Hend & _ & _ & _ & _ & _ & _ & Hno & _ & Hnx).
  - reflexivity.
  - exact sample_granularity.
  - vm_compute; congruence.
  - vm_compute; congruence.
  - intros _. vm_compute; congruence.
  - destruct nx' as [nx' |]; [| contradiction].
    destruct Hnx as (Hb & Ht & _).
    exists r', nx'. rewrite Hb, Ht, Hend.
    split; [exact Hpack|]. repeat split; first [reflexivity | exact Hno].
Defined.

(** ** WriteClosure::do_oop *)

Section WriterReference.
Import DumpRegion.
Variable env : VMEnv.

Lemma append_unmarked_Ok (n : Z) (s s' : DumpState) :
  WriteClosure.append env n false s = Ok s' ->
  _top (ds_region s) mod wordSize = 0 /\
  ds_region s' = with_top (ds_region s) (_top (ds_region s) + wordSize) /\
  _top (ds_region s) + wordSize <= _end (ds_region s) /\
  ds_mem s' = store_intptr (ds_mem s) (_top (ds_region s)) n /\
  ds_marker s' = ds_marker s.
Proof.
  unfold WriteClosure.append, append_intptr_t. intros H. inv_ok H.
  destruct a as [[r m] mk]. inv_ok Ha.
  destruct a0 as [t r1]. apply expand_top_to_Ok in Ha1 as (_ & Hle & _ & ->).
  inversion Ha; subst. inversion H; subst. simpl.
  unfold is_aligned in Ha0. apply Z.eqb_eq in Ha0.
  split; [exact Ha0|]. split; [reflexivity|]. split; [apply Hle|].
  split; reflexivity.
Qed.

Lemma append_unmarked_succeeds (n : Z) (s : DumpState) :
  let r := ds_region s in
  is_allocatable r = true -> _top r mod wordSize = 0 ->
  _top r + wordSize <= _end r -> delta_ok env r (_top r + wordSize) ->
  is_ok (WriteClosure.append env n false s) = true.
Proof.
  intros r Hal Hat Hfit Hd. unfold WriteClosure.append, append_intptr_t, is_aligned.
  fold r. apply Z.eqb_eq in Hat. rewrite Hat. cbn [assert_ bind].
  rewrite expand_top_to_succeeds by (auto; unfold wordSize in *; lia).
  reflexivity.
Qed.

(** C7 (as amended).  [WriteClosure::do_oop] appends exactly one word at
    the region's top: zero when the reference is null, and otherwise,
    provided archiving of heap objects is allowed, the value of
    [encode_not_null] on the reference.  In both cases the word is
    appended with the default [need_to_mark], so it is not marked: the
    pointer marker is left unchanged.  The operation succeeds whenever the
    region is allocatable with a word of room at an aligned top, the delta
    check passes and (for a non-null reference) archiving is allowed. *)
Theorem do_oop_appends_unmarked (o : Z) (s : DumpState) :
  let r := ds_region s in
  (forall s', WriteClosure.do_oop env o s = Ok s' ->
     _top (ds_region s') = _top r + wordSize /\
     load_intptr (ds_mem s') (_top r)
     = (if o =? 0 then 0 else to_intptr (encode_not_null env o)) /\
     ds_marker s' = ds_marker s /\
     (o <> 0 -> is_heap_object_archiving_allowed env = true)) /\
  (is_allocatable r = true -> _top r mod wordSize = 0 ->
   _top r + wordSize <= _end r -> delta_ok env r (_top r + wordSize) ->
   (o <> 0 -> is_heap_object_archiving_allowed env = true) ->
   is_ok (WriteClosure.do_oop env o s) = true).
Proof.
  intros r. split.
  - intros s' H. unfold WriteClosure.do_oop, need_to_mark_default in H.
    destruct (Z.eqb_spec o 0) as [-> | Hnz].
    + apply append_unmarked_Ok in H as (_ & -> & _ & -> & ->). simpl.
      split; [reflexivity|]. split; [| split; [reflexivity | congruence]].
      apply load_intptr_store_intptr. unfold is_intptr. lia.
    + inv_ok H.
      apply append_unmarked_Ok in H as (_ & -> & _ & -> & ->). simpl.
      split; [reflexivity|]. split; [| split; [reflexivity | auto]].
      apply load_intptr_store_intptr. apply to_intptr_range.
  - intros Hal Hat Hfit Hd Hpol. unfold WriteClosure.do_oop, need_to_mark_default.
    destruct (Z.eqb_spec o 0) as [-> | Hnz].
    + apply append_unmarked_succeeds; assumption.
    + rewrite (Hpol Hnz). cbn [assert_ bind].
      apply append_unmarked_succeeds; assumption.
Qed.

End WriterReference.

Lemma do_oop_appends_unmarked_witness :
  is_ok (WriteClosure.do_oop sample_env 4096 sample_state) = true /\
  forall s', WriteClosure.do_oop sample_env 4096 sample_state = Ok s' ->
    DumpRegion._top (ds_region s') = 65536 + 8 /\
    load_intptr (ds_mem s') 65536 = 512 /\
    ds_marker s' = ds_marker sample_state /\
    (4096 <> 0 -> is_heap_object_archiving_allowed sample_env = true).
Proof.
  destruct (do_oop_appends_unmarked sample_env 4096 sample_state) as [T1 T2].
  split; [| exact T1].
  apply T2; [reflexivity | reflexivity | vm_compute; congruence | | reflexivity].
  intros _. vm_compute; congruence.
Defined.

(* A non-null reference written at slot 0 of the marked range leaves bit 0
   clear, where the same word appended with [need_to_mark = true] sets it. *)
Lemma do_oop_does_not_mark :
  ~ WriteClosure.writes_marked_reference sample_env 4096 sample_state /\
  (exists s' bm,
      WriteClosure.append sample_env 512 true sample_state = Ok s' /\
      ArchivePtrMarker._ptrmap (ds_marker s') = Some bm /\
      CHeapBitMap.at_ bm 0 = true).
Proof.
  split.
  - intros (s' & bm & Hw & Hbm & Hbit).
    unfold WriteClosure.do_oop, DumpRegion.need_to_mark_default in Hw.
    cbn [Z.eqb] in Hw. inv_ok Hw.
    apply append_unmarked_Ok in Hw as (_ & _ & _ & _ & Hmk).
    rewrite Hmk in Hbm. inversion Hbm; subst bm.
    vm_compute in Hbit. discriminate Hbit.
  - eexists. eexists. split; [vm_compute; reflexivity|].
    split; reflexivity.
Qed.

(** ** ReadClosure::do_oop and ReadClosure::do_ptr *)

Section ReaderReference.
Import ReadClosure.
Variable env : VMEnv.

(** C8 (as amended).  [ReadClosure::do_oop] reads one word and casts it to
    a narrowOop [o]; it never looks at the destination.  It stores null
    when [o] is null or the open archive heap region is not mapped.
    Otherwise it fails when archiving of heap objects is not allowed, and
    else stores [decode_from_archive o].  In every case that returns, the
    cursor has advanced by one word. *)
Theorem do_oop_read_spec (m : Mem) (old_p : Z) (rc : ReadClosure.t) (o : Z) :
  narrow_oop_cast env (load_intptr m (_ptr_array rc)) = Ok o ->
  let rc' := ReadClosure.mk (_ptr_array rc + wordSize) in
  (is_null o = true \/ open_archive_heap_region_mapped env = false ->
   do_oop env m old_p rc = Ok (0, rc')) /\
  (is_null o = false -> open_archive_heap_region_mapped env = true ->
   is_heap_object_archiving_allowed env = true ->
   do_oop env m old_p rc = Ok (decode_from_archive env o, rc')) /\
  (is_null o = false -> open_archive_heap_region_mapped env = true ->
   is_heap_object_archiving_allowed env = false ->
   do_oop env m old_p rc = Fail (AssertFailed "Archived heap object is not allowed")) /\
  (forall old_p', do_oop env m old_p' rc = do_oop env m old_p rc).
Proof.
  intros Hcast rc'. unfold do_oop, nextPtr. rewrite Hcast. cbn [bind]. fold rc'.
  split; [| split; [| split]].
  - intros [Hn | Hm].
    + rewrite Hn. reflexivity.
    + rewrite Hm, orb_true_r. reflexivity.
  - intros Hn Hm Hp. rewrite Hn, Hm, Hp. reflexivity.
  - intros Hn Hm Hp. rewrite Hn, Hm, Hp. reflexivity.
  - reflexivity.
Qed.

(** C10 (as amended).  [ReadClosure::do_ptr] fails when the destination
    already holds a non-null value.  On a null destination it reads one
    word: when the word lies in [[-100, -1]] the operation fails ("hit tag
    while initializing ptrs") and nothing is stored; when the word is
    non-negative or below -100 it is stored as the pointer and the cursor
    advances by one word.  So a tag read where a pointer is expected is
    detected only when it lies in [[-100, -1]]: every word that [do_tag]
    accepts as a tag outside that range (a non-negative tag, as the size
    tag of a raw region, or a tag below -100) is stored as a pointer. *)
Theorem do_ptr_spec (m : Mem) (old_p : Z) (rc : ReadClosure.t) :
  let obj := load_intptr m (_ptr_array rc) in
  let rc' := ReadClosure.mk (_ptr_array rc + wordSize) in
  (old_p <> 0 ->
   do_ptr m old_p rc = Fail (AssertFailed "initializing previous initialized pointer.")) /\
  (old_p = 0 -> 0 <= obj \/ obj < -100 ->
   do_ptr m old_p rc = Ok (obj, rc')) /\
  (old_p = 0 -> -100 <= obj <= -1 ->
   do_ptr m old_p rc = Fail (AssertFailed "hit tag while initializing ptrs.")) /\
  (forall tag, is_ok (do_tag m tag rc) = true -> tag < -100 \/ 0 <= tag ->
   do_ptr m 0 rc = Ok (obj, rc')).
Proof.
  intros obj rc'.
  assert (Hstore : 0 <= obj \/ obj < -100 -> do_ptr m 0 rc = Ok (obj, rc')).
  { intros Hr. unfold do_ptr, nextPtr. fold obj. cbn [Z.eqb assert_ bind].
    replace ((0 <=? obj) || (obj <? -100)) with true; [reflexivity|].
    symmetry. apply orb_true_iff.
    destruct Hr; [left; apply Z.leb_le | right; apply Z.ltb_lt]; assumption. }
  split; [| split; [| split]].
  - intros Hnz. unfold do_ptr. apply Z.eqb_neq in Hnz. rewrite Hnz. reflexivity.
  - intros -> Hr. exact (Hstore Hr).
  - intros -> Hr. unfold do_ptr, nextPtr. fold obj. cbn [Z.eqb assert_ bind].
    replace ((0 <=? obj) || (obj <? -100)) with false; [reflexivity|].
    symmetry. apply orb_false_iff.
    split; [apply Z.leb_gt | apply Z.ltb_ge]; lia.
  - intros tag Htag Hout. apply Hstore.
    unfold do_tag, nextPtr in Htag. fold obj in Htag.
    destruct (Z.eqb_spec tag (to_int obj)) as [E | E]; [| discriminate Htag].
    destruct (Z.le_gt_cases 0 obj) as [| Hneg]; [left; assumption | right].
    destruct (Z.lt_ge_cases obj (-100)) as [| Hin]; [assumption | exfalso].
    assert (Eint : to_int obj = obj).
    { unfold to_int. rewrite Z.mod_small by lia. lia. }
    lia.
Qed.

End ReaderReference.

(* A buffer holding the words 512, -16 and 7 at address 65536. *)
Lemma do_oop_read_spec_witness :
  let m := store_intptr (store_intptr (store_intptr zero_mem 65536 512) 65544 (-16)) 65552 7 in
  ReadClosure.do_oop sample_env m 0 (ReadClosure.mk 65536)
  = Ok (4096, ReadClosure.mk 65544) /\
  ReadClosure.do_oop sample_env_unmapped m 0 (ReadClosure.mk 65536)
  = Ok (0, ReadClosure.mk 65544).
Proof.
  intros m. split.
  - refine (proj1 (proj2 (do_oop_read_spec sample_env m 0 (ReadClosure.mk 65536) 512 _))
              _ _ _); reflexivity.
  - refine (proj1 (do_oop_read_spec sample_env_unmapped m 0 (ReadClosure.mk 65536) 512 _)
              _); [reflexivity | right; reflexivity].
Defined.

(* A destination that already holds 4096 is overwritten without complaint. *)
Lemma do_oop_overwrites_destination :
  ~ ReadClosure.rejects_initialized_destination sample_env
      (store_intptr zero_mem 65536 512) 4096 (ReadClosure.mk 65536).
Proof.
  unfold ReadClosure.rejects_initialized_destination. intros H.
  assert (Hnz : 4096 <> 0) by lia.
  specialize (H Hnz). vm_compute in H. discriminate H.
Qed.

Lemma do_ptr_spec_witness :
  let m := store_intptr (store_intptr zero_mem 65536 (-16)) 65544 (-101) in
  ReadClosure.do_ptr m 0 (ReadClosure.mk 65536)
  = Fail (AssertFailed "hit tag while initializing ptrs.") /\
  ReadClosure.do_ptr m 0 (ReadClosure.mk 65544) = Ok (-101, ReadClosure.mk 65552) /\
  ReadClosure.do_ptr m 4096 (ReadClosure.mk 65544)
  = Fail (AssertFailed "initializing previous initialized pointer.").
Proof.
  intros m. split; [| split].
  - refine (proj1 (proj2 (proj2 (do_ptr_spec m 0 (ReadClosure.mk 65536)))) _ _);
      [reflexivity | vm_compute; split; congruence].
  - refine (proj1 (proj2 (do_ptr_spec m 0 (ReadClosure.mk 65544))) _ _);
      [reflexivity | right; vm_compute; reflexivity].
  - refine (proj1 (do_ptr_spec m 4096 (ReadClosure.mk 65544)) _). lia.
Defined.

(* The writer's [do_region] on a buffer of 16 bytes leaves the size tag 16
   at the old top; a reader that expects a pointer there stores 16 as the
   pointer. *)
Lemma do_ptr_stores_region_tag :
  exists s',
    WriteClosure.do_region sample_env 4096 sample_buf sample_state = Ok s' /\
    ~ ReadClosure.detects_tag (ds_mem s') 16 (ReadClosure.mk 65536) /\
    ReadClosure.do_ptr (ds_mem s') 0 (ReadClosure.mk 65536)
    = Ok (16, ReadClosure.mk (65536 + 8)).
Proof.
  eexists. split; [vm_compute; reflexivity|].
  split.
  - unfold ReadClosure.detects_tag. intros H.
    match type of H with
    | ?accepted -> _ => assert (Htag : accepted) by (vm_compute; reflexivity)
    end.
    specialize (H Htag). vm_compute in H. discriminate H.
  - vm_compute. reflexivity.
Qed.

(** ** ArchivePtrMarker::compact *)

Section Compaction.
Import CHeapBitMap ArchivePtrMarker BitMapFacts.

Variables (bm : CHeapBitMap.t) (m : Mem) (ptr_base rb re : Z).


Lemma cleaner_inv_start :
  cleaner_inv bm m ptr_base rb re 0 (new_cleaner bm ptr_base rb re).
Proof.
  unfold cleaner_inv, new_cleaner; simpl.
  do 4 (split; [reflexivity|]).
  split; [| split; [lia | split; [| left; reflexivity]]].
  - intros j. destruct (Z.leb_spec 0 j) as [Hj | Hj]; simpl.
    + rewrite andb_true_r. reflexivity.
    + rewrite (at_neg bm j Hj). reflexivity.
  - intros j Hj [Hbit _]. rewrite (at_neg bm j Hj) in Hbit. discriminate.
Qed.

(* One step of the scan at an index whose slot passes the range check. *)
Lemma iterate_step (n : nat) (k : Z) (c : ArchivePtrBitmapCleaner) :
  0 <= k -> cleaner_inv bm m ptr_base rb re k c ->
  ~ points_outside bm m ptr_base rb re k ->
  exists c1,
    cleaner_inv bm m ptr_base rb re (k + 1) c1 /\
    iterate_loop c_ptrmap (do_bit m) (S n) k c
    = iterate_loop c_ptrmap (do_bit m) n (k + 1) c1.
Proof.
  intros Hk (Hb & Hrb & Hre & Hsz & Hbits & Hmax0 & Hmax & Hlive) Hin.
  cbn [iterate_loop]. rewrite Hbits, Z.leb_refl. simpl orb. rewrite andb_true_r.
  destruct (at_ bm k) eqn:Hbit.
  - unfold do_bit. rewrite Hb. fold (slot_value m ptr_base k).
    destruct (Z.eqb_spec (slot_value m ptr_base k) 0) as [Hnull | Hnn]; cbn [negb].
    + (* the slot holds null: the bit is cleared *)
      cbn [bind]. eexists. split; [| reflexivity].
      unfold cleaner_inv; cbn.
      do 4 (split; [first [assumption | reflexivity]|]).
      split; [| split; [assumption | split]].
      * intros j. rewrite at_clear_bit, Hbits.
        destruct (Z.eqb_spec k j) as [<- | Hne]; cbn [negb].
        -- rewrite Hnull, Hbit, Z.leb_refl.
           replace (k + 1 <=? k) with false by (symmetry; apply Z.leb_gt; lia).
           reflexivity.
        -- rewrite andb_true_r. f_equal. f_equal.
           destruct (Z.leb_spec k j), (Z.leb_spec (k + 1) j); auto; lia.
      * intros j Hj Hs. destruct (Z.eq_dec j k) as [-> | Hne].
        -- destruct Hs as [_ Hs]. contradiction.
        -- apply Hmax; [lia | assumption].
      * destruct Hlive as [H0 | [Hs Hlt]]; [left; assumption | right; split; [assumption | lia]].
    + (* the slot holds a pointer: the bit survives *)
      assert (Hrange : rb <= slot_value m ptr_base k < re).
      { destruct (Z_le_dec rb (slot_value m ptr_base k)) as [H1 |]; [destruct (Z_lt_dec (slot_value m ptr_base k) re) |];
          try lia; exfalso; apply Hin; repeat split; auto; lia. }
      rewrite Hrb, Hre.
      replace ((rb <=? slot_value m ptr_base k) && (slot_value m ptr_base k <? re)) with true
        by (symmetry; apply andb_true_iff; split;
            [apply Z.leb_le | apply Z.ltb_lt]; lia).
      cbn [assert_ bind].
      eexists. split; [| reflexivity].
      destruct (Z.ltb_spec (c_max_non_null_offset c) k) as [Hlt | Hge].
      * unfold cleaner_inv; cbn.
        do 4 (split; [first [assumption | reflexivity]|]).
        split; [| split; [lia | split]].
        -- intros j. rewrite Hbits. f_equal.
           destruct (Z.eq_dec j k) as [-> | Hne].
           ++ apply Z.eqb_neq in Hnn. rewrite Hnn. cbn [negb].
              rewrite !orb_true_r. reflexivity.
           ++ f_equal. destruct (Z.leb_spec k j), (Z.leb_spec (k + 1) j); auto; lia.
        -- intros j Hj _. lia.
        -- right. split; [split; assumption | lia].
      * assert (Hk0 : c_max_non_null_offset c = 0 /\ k = 0)
          by (destruct Hlive as [H0 | [_ Hlt]]; lia).
        destruct Hk0 as [Hc0 ->].
        unfold cleaner_inv.
        do 4 (split; [first [assumption | reflexivity]|]).
        split; [| split; [assumption | split; [| left; assumption]]].
        -- intros j. rewrite Hbits. f_equal.
           destruct (Z.eq_dec j 0) as [-> | Hne].
           ++ apply Z.eqb_neq in Hnn. rewrite Hnn. cbn [negb].
              rewrite !orb_true_r. reflexivity.
           ++ f_equal. destruct (Z.leb_spec 0 j), (Z.leb_spec (0 + 1) j); auto; lia.
        -- intros j Hj _. lia.
  - (* the bit is clear: nothing to do *)
    exists c. split; [| reflexivity].
    unfold cleaner_inv.
    do 4 (split; [first [assumption | reflexivity]|]).
    split; [| split; [assumption | split]].
    + intros j. rewrite Hbits.
      destruct (Z.eq_dec j k) as [-> | Hne].
      * rewrite Hbit. reflexivity.
      * f_equal. f_equal. destruct (Z.leb_spec k j), (Z.leb_spec (k + 1) j); auto; lia.
    + intros j Hj Hs. destruct (Z.eq_dec j k) as [-> | Hne].
      * destruct Hs as [Hs _]. congruence.
      * apply Hmax; [lia | assumption].
    + destruct Hlive as [H0 | [Hs Hlt]]; [left; assumption | right; split; [assumption | lia]].
Qed.

(* One step of the scan at a marked slot that points outside the range. *)
Lemma iterate_step_fails (n : nat) (k : Z) (c : ArchivePtrBitmapCleaner) :
  0 <= k -> cleaner_inv bm m ptr_base rb re k c ->
  points_outside bm m ptr_base rb re k ->
  iterate_loop c_ptrmap (do_bit m) (S n) k c
  = Fail (AssertFailed "do not point to arbitrary locations!").
Proof.
  intros Hk (Hb & Hrb & Hre & Hsz & Hbits & _) (Hbit & Hnn & Hout).
  cbn [iterate_loop]. rewrite Hbits, Z.leb_refl, Hbit. simpl andb. cbv iota.
  unfold do_bit. rewrite Hb. fold (slot_value m ptr_base k).
  apply Z.eqb_neq in Hnn. rewrite Hnn. cbn [negb].
  rewrite Hrb, Hre.
  replace ((rb <=? slot_value m ptr_base k) && (slot_value m ptr_base k <? re)) with false;
    [reflexivity|].
  symmetry. apply andb_false_iff.
  destruct (Z.leb_spec rb (slot_value m ptr_base k)); [right | left; reflexivity].
  apply Z.ltb_ge. lia.
Qed.

Lemma points_outside_dec (k : Z) :
  {points_outside bm m ptr_base rb re k} + {~ points_outside bm m ptr_base rb re k}.
Proof.
  unfold points_outside.
  destruct (at_ bm k); [| right; intros [H _]; discriminate].
  destruct (Z.eq_dec (slot_value m ptr_base k) 0) as [E | E];
    [right; intros (_ & H & _); contradiction|].
  destruct (Z_le_dec rb (slot_value m ptr_base k)) as [H1 | H1];
    [| left; repeat split; auto; lia].
  destruct (Z_lt_dec (slot_value m ptr_base k) re) as [H2 | H2];
    [right; intros (_ & _ & H); apply H; lia | left; repeat split; auto; lia].
Qed.

(* The whole scan, when no marked slot points outside the range. *)
Lemma iterate_loop_succeeds (n : nat) : forall (k : Z) (c : ArchivePtrBitmapCleaner),
  0 <= k -> cleaner_inv bm m ptr_base rb re k c ->
  (forall i, k <= i < k + Z.of_nat n -> ~ points_outside bm m ptr_base rb re i) ->
  exists c',
    iterate_loop c_ptrmap (do_bit m) n k c = Ok (true, c') /\
    cleaner_inv bm m ptr_base rb re (k + Z.of_nat n) c'.
Proof.
  induction n as [| n IH]; intros k c Hk Hinv Hok.
  - exists c. split; [reflexivity|]. rewrite Z.add_0_r. assumption.
  - destruct (iterate_step n k c Hk Hinv) as (c1 & Hinv1 & ->); [apply Hok; lia|].
    destruct (IH (k + 1) c1) as (c' & Hrun & Hinv'); [lia | assumption | |].
    + intros i Hi. apply Hok. lia.
    + exists c'. split; [assumption|].
      replace (k + Z.of_nat (S n)) with (k + 1 + Z.of_nat n) by lia. assumption.
Qed.

(* The whole scan, when some marked slot points outside the range. *)
Lemma iterate_loop_fails (n : nat) : forall (k : Z) (c : ArchivePtrBitmapCleaner),
  0 <= k -> cleaner_inv bm m ptr_base rb re k c ->
  (exists i, k <= i < k + Z.of_nat n /\ points_outside bm m ptr_base rb re i) ->
  iterate_loop c_ptrmap (do_bit m) n k c
  = Fail (AssertFailed "do not point to arbitrary locations!").
Proof.
  induction n as [| n IH]; intros k c Hk Hinv (i & Hi & Hout); [lia|].
  destruct (points_outside_dec k) as [Hbad | Hgood].
  - apply iterate_step_fails; assumption.
  - destruct (iterate_step n k c Hk Hinv Hgood) as (c1 & Hinv1 & ->).
    apply IH; [lia | assumption |].
    exists i. split; [| assumption].
    destruct (Z.eq_dec i k) as [-> | Hne]; [contradiction | lia].
Qed.

End Compaction.

Section CompactSpec.
Import CHeapBitMap ArchivePtrMarker BitMapFacts.

Lemma compact_succeeds (st : ArchivePtrMarker.t) (m : Mem) (rb re : Z) (bm : CHeapBitMap.t) :
  _ptrmap st = Some bm -> _compacted st = false -> wf bm ->
  (forall i, ~ points_outside bm m (_ptr_base st) rb re i) ->
  exists bm',
    compact st m rb re = Ok (ArchivePtrMarker.mk (Some bm') (_ptr_base st) (_ptr_end st) true) /\
    wf bm' /\
    (forall i, at_ bm' i = true <-> survives bm m (_ptr_base st) i) /\
    ((exists i, survives bm m (_ptr_base st) i) ->
     at_ bm' (size bm' - 1) = true /\ 1 <= size bm' <= size bm) /\
    ((forall i, ~ survives bm m (_ptr_base st) i) -> size bm' = 1).
Proof.
  intros Hmap Hc [Hsz Hwf] Hok.
  destruct (iterate_loop_succeeds bm m (_ptr_base st) rb re (Z.to_nat (size bm)) 0
              (new_cleaner bm (_ptr_base st) rb re))
    as (c' & Hrun & Hinv);
    [lia | apply cleaner_inv_start | intros i _; apply Hok |].
  rewrite Z.add_0_l, Z2Nat.id in Hinv by assumption.
  destruct Hinv as (_ & _ & _ & Hsize & Hbits & Hmax0 & Hmax & Hlive).
  set (mx := c_max_non_null_offset c') in *.
  exists (resize (c_ptrmap c') (mx + 1)).
  assert (Hiff : forall i, at_ (resize (c_ptrmap c') (mx + 1)) i = true
                           <-> survives bm m (_ptr_base st) i).
  { intros i. rewrite at_resize, Hbits by lia. unfold survives. split.
    - intros H. apply andb_true_iff in H as [H _].
      apply andb_true_iff in H as [Hbit H]. split; [assumption|].
      apply Hwf in Hbit.
      replace (size bm <=? i) with false in H by (symmetry; apply Z.leb_gt; lia).
      simpl in H. apply negb_true_iff, Z.eqb_neq in H. assumption.
    - intros [Hbit Hnn].
      assert (Hi := Hwf i Hbit).
      assert (i <= mx) by (apply Hmax; [lia | split; assumption]).
      rewrite Hbit. apply Z.eqb_neq in Hnn. rewrite Hnn. cbn [negb].
      rewrite orb_true_r. simpl.
      apply andb_true_iff; split; [apply Z.leb_le | apply Z.ltb_lt]; lia. }
  split; [| split; [| split; [| split]]].
  - unfold compact. rewrite Hc, Hmap. cbn [negb assert_ bind].
    unfold iterate. cbn [c_ptrmap new_cleaner]. rewrite Hrun. cbn [bind].
    unfold compact_to. cbn [with_ptrmap _compacted _ptrmap _ptr_base _ptr_end].
    rewrite Hc. reflexivity.
  - apply wf_resize. lia.
  - exact Hiff.
  - intros (i & Hs). rewrite size_resize.
    replace (mx + 1 - 1) with mx by lia.
    assert (Hmx : survives bm m (_ptr_base st) mx).
    { destruct Hlive as [H0 | [H _]]; [| assumption].
      destruct Hs as [Hbit Hnn]. assert (Hi := Hwf i Hbit).
      assert (i <= mx) by (apply Hmax; [lia | split; assumption]).
      replace mx with i by lia. split; assumption. }
    split; [apply Hiff; assumption|].
    destruct Hmx as [Hbit _]. apply Hwf in Hbit. lia.
  - intros Hnone. rewrite size_resize.
    destruct Hlive as [H0 | [H _]]; [lia | exfalso; apply (Hnone _ H)].
Qed.

Lemma compact_fails (st : ArchivePtrMarker.t) (m : Mem) (rb re : Z) (bm : CHeapBitMap.t) :
  _ptrmap st = Some bm -> _compacted st = false -> wf bm ->
  (exists i, points_outside bm m (_ptr_base st) rb re i) ->
  compact st m rb re = Fail (AssertFailed "do not point to arbitrary locations!").
Proof.
  intros Hmap Hc [Hsz Hwf] (i & Hout).
  unfold compact. rewrite Hc, Hmap. cbn [negb assert_ bind].
  unfold iterate. cbn [c_ptrmap new_cleaner].
  rewrite (iterate_loop_fails bm m (_ptr_base st) rb re); [reflexivity | lia | | ].
  - apply cleaner_inv_start.
  - exists i. split; [| assumption].
    destruct Hout as [Hbit _]. apply Hwf in Hbit. lia.
Qed.

Lemma compact_to_Ok (st st' : ArchivePtrMarker.t) (k : Z) :
  compact_to st k = Ok st' ->
  _compacted st' = true /\ exists bm, _ptrmap st' = Some bm.
Proof.
  unfold compact_to. intros H. inv_ok H.
  destruct (_ptrmap st) as [bm |]; [| discriminate].
  inversion H; subst. simpl. eauto.
Qed.

Lemma compact_Ok (st st' : ArchivePtrMarker.t) (m : Mem) (rb re : Z) :
  compact st m rb re = Ok st' ->
  _compacted st' = true /\ exists bm, _ptrmap st' = Some bm.
Proof.
  unfold compact. intros H. inv_ok H.
  destruct (_ptrmap st) as [bm |]; [| discriminate].
  inv_ok H. destruct a0 as [b c]. eapply compact_to_Ok. exact H.
Qed.

(** C3.  Take an initialized, not yet compacted marker whose bitmap [bm]
    is well formed.  If no marked slot holds a non-null value outside the
    relocatable range, [compact] succeeds and leaves a compacted marker
    whose bitmap has bit [i] set exactly when bit [i] was set in [bm] and
    slot [i] holds a non-null value; when some bit survives, the new size
    is the index of the highest surviving bit plus one (the last bit of
    the new map is set), and it is 1 when none survives.  If some marked
    slot holds a non-null value outside the range, [compact] fails on the
    range assertion.  In the scenario of the specification (1024 slots,
    slots 5 and 900 marked, slot 900 null at compaction) the compacted
    bitmap has size 6 and its only set bit is bit 5. *)
Theorem compact_spec :
  (forall (st : ArchivePtrMarker.t) (m : Mem) (rb re : Z) (bm : CHeapBitMap.t),
      _ptrmap st = Some bm -> _compacted st = false -> wf bm ->
      ((forall i, ~ points_outside bm m (_ptr_base st) rb re i) ->
       exists bm',
         compact st m rb re
         = Ok (ArchivePtrMarker.mk (Some bm') (_ptr_base st) (_ptr_end st) true) /\
         wf bm' /\
         (forall i, at_ bm' i = true <-> survives bm m (_ptr_base st) i) /\
         ((exists i, survives bm m (_ptr_base st) i) ->
          at_ bm' (size bm' - 1) = true /\ 1 <= size bm' <= size bm) /\
         ((forall i, ~ survives bm m (_ptr_base st) i) -> size bm' = 1)) /\
      ((exists i, points_outside bm m (_ptr_base st) rb re i) ->
       compact st m rb re = Fail (AssertFailed "do not point to arbitrary locations!"))) /\
  (exists st3 bm3 st4 bm4,
      compaction_scenario sample_env = Ok (st3, st4) /\
      _ptrmap st3 = Some bm3 /\
      (forall i, at_ bm3 i = true <-> i = 5 \/ i = 900) /\
      _ptrmap st4 = Some bm4 /\ _compacted st4 = true /\
      size bm4 = 6 /\
      (forall i, at_ bm4 i = true <-> i = 5) /\
      count_one_bits bm4 = 1%nat).
Proof.
  split.
  - intros st m rb re bm Hmap Hc Hwf. split.
    + apply compact_succeeds; assumption.
    + apply compact_fails; assumption.
  - exists (ArchivePtrMarker.mk (Some (CHeapBitMap.mk 786432 (2 ^ 5 + 2 ^ 900)))
                                 65536 (65536 + 8192) false).
    exists (CHeapBitMap.mk 786432 (2 ^ 5 + 2 ^ 900)).
    exists (ArchivePtrMarker.mk (Some (CHeapBitMap.mk 6 (2 ^ 5))) 65536 (65536 + 8192) true).
    exists (CHeapBitMap.mk 6 (2 ^ 5)).
    split; [vm_compute; reflexivity|].
    split; [reflexivity|]. split; [| split; [reflexivity | split; [reflexivity|]]].
    + intros i. unfold at_; cbn [bm_map].
      replace (2 ^ 5 + 2 ^ 900) with (Z.lor (2 ^ 5) (2 ^ 900)) by (vm_compute; reflexivity).
      rewrite Z.lor_spec, !Z.pow2_bits_eqb by lia.
      rewrite orb_true_iff, !Z.eqb_eq. intuition lia.
    + split; [reflexivity|]. split; [| vm_compute; reflexivity].
      intros i. unfold at_; cbn [bm_map].
      rewrite Z.pow2_bits_eqb by lia. rewrite Z.eqb_eq. intuition lia.
Qed.

(** C9.  Once a compaction has succeeded (through either overload of
    [compact]), every further call of [compact], of [mark_pointer] and of
    [clear_pointer] fails on its "cannot ... again/anymore" assertion. *)
Theorem compact_only_once (st st' : ArchivePtrMarker.t) :
  (exists m rb re, compact st m rb re = Ok st') \/ (exists k, compact_to st k = Ok st') ->
  (forall m rb re, compact st' m rb re = Fail (AssertFailed "cannot compact again")) /\
  (forall k, compact_to st' k = Fail (AssertFailed "cannot compact again")) /\
  (forall m ptr_loc,
      mark_pointer st' m ptr_loc = Fail (AssertFailed "cannot mark anymore")) /\
  (forall ptr_loc,
      clear_pointer st' ptr_loc = Fail (AssertFailed "cannot clear anymore")).
Proof.
  intros H.
  assert (Hst : _compacted st' = true /\ exists bm, _ptrmap st' = Some bm).
  { destruct H as [(m & rb & re & H) | (k & H)];
      [eapply compact_Ok | eapply compact_to_Ok]; exact H. }
  destruct Hst as [Hc (bm & Hbm)].
  unfold compact, compact_to, mark_pointer, clear_pointer.
  rewrite Hc, Hbm. repeat split.
Qed.

End CompactSpec.

Lemma compact_spec_witness :
  let m := store_intptr zero_mem (65536 + 8 * 5) (65536 + 64) in
  let bm := CHeapBitMap.set_bit (CHeapBitMap.set_bit (CHeapBitMap.initialize 1024) 5) 900 in
  let st := ArchivePtrMarker.mk (Some bm) 65536 (65536 + 8 * 1024) false in
  exists bm',
    ArchivePtrMarker.compact st m 65536 (65536 + 8 * 1024)
    = Ok (ArchivePtrMarker.mk (Some bm') 65536 (65536 + 8 * 1024) true) /\
    CHeapBitMap.wf bm' /\
    (forall i, CHeapBitMap.at_ bm' i = true <-> ArchivePtrMarker.survives bm m 65536 i) /\
    ((exists i, ArchivePtrMarker.survives bm m 65536 i) ->
     CHeapBitMap.at_ bm' (CHeapBitMap.size bm' - 1) = true /\
     1 <= CHeapBitMap.size bm' <= CHeapBitMap.size bm) /\
    ((forall i, ~ ArchivePtrMarker.survives bm m 65536 i) -> CHeapBitMap.size bm' = 1).
Proof.
  intros m bm st.
  assert (Hwf : CHeapBitMap.wf bm).
  { apply BitMapFacts.wf_set_bit;
      [apply BitMapFacts.wf_set_bit; [apply BitMapFacts.wf_initialize; lia | simpl; lia]
      | simpl; lia]. }
  assert (Hok : forall i, ~ ArchivePtrMarker.points_outside bm m 65536 65536 (65536 + 8 * 1024) i).
  { intros i (Hbit & Hnn & Hout). unfold bm in Hbit.
    rewrite !BitMapFacts.at_set_bit in Hbit by lia.
    apply orb_true_iff in Hbit as [H | H].
    - apply Z.eqb_eq in H; subst i. apply Hnn. vm_compute. reflexivity.
    - apply orb_true_iff in H as [H | H].
      + apply Z.eqb_eq in H; subst i. apply Hout. vm_compute. split; congruence.
      + unfold CHeapBitMap.at_, CHeapBitMap.initialize in H; simpl in H.
        rewrite Z.bits_0 in H. discriminate. }
  exact (proj1 (proj1 compact_spec st m 65536 (65536 + 8 * 1024) bm
                  eq_refl eq_refl Hwf) Hok).
Defined.

Lemma compact_only_once_witness :
  let st := sample_marker 1024 in
  exists st',
    ArchivePtrMarker.compact st zero_mem 65536 (65536 + 8192) = Ok st' /\
    ArchivePtrMarker.compact st' zero_mem 65536 (65536 + 8192)
    = Fail (AssertFailed "cannot compact again") /\
    ArchivePtrMarker.mark_pointer st' zero_mem 65536
    = Fail (AssertFailed "cannot mark anymore") /\
    ArchivePtrMarker.clear_pointer st' 65536
    = Fail (AssertFailed "cannot clear anymore").
Proof.
  intros st.
  exists (ArchivePtrMarker.mk (Some (CHeapBitMap.mk 1 0)) 65536 (65536 + 8192) true).
  assert (Hrun : ArchivePtrMarker.compact st zero_mem 65536 (65536 + 8192)
                 = Ok (ArchivePtrMarker.mk (Some (CHeapBitMap.mk 1 0)) 65536 (65536 + 8192) true))
    by (vm_compute; reflexivity).
  split; [exact Hrun|].
  destruct (compact_only_once st _
              (or_introl (ex_intro _ zero_mem (ex_intro _ 65536
                 (ex_intro _ (65536 + 8192) Hrun)))))
    as (H1 & _ & H3 & H4).
  split; [apply H1 | split; [apply H3 | apply H4]].
Defined.

(** ** The round trip *)

Lemma words_at_ext (ws : list Z) : forall (m m' : Mem) (a : Z),
  (forall x, a <= x < a + wordSize * Z.of_nat (List.length ws) -> m x = m' x) ->
  words_at m a ws -> words_at m' a ws.
Proof.
  induction ws as [| w ws IH]; intros m m' a Hagree H;
    cbn [words_at List.length] in *; [exact I|].
  destruct H as [Hw Hrest]. split.
  - rewrite <- Hw. symmetry. apply load_intptr_ext.
    intros x Hx. apply Hagree. unfold wordSize in *. lia.
  - apply (IH m); [| assumption]. intros x Hx. apply Hagree.
    unfold wordSize in *. lia.
Qed.

Lemma words_at_app (ws1 : list Z) : forall (ws2 : list Z) (m : Mem) (a : Z),
  words_at m a ws1 ->
  words_at m (a + wordSize * Z.of_nat (List.length ws1)) ws2 ->
  words_at m a (ws1 ++ ws2).
Proof.
  induction ws1 as [| w ws1 IH]; intros ws2 m a H1 H2;
    cbn [words_at app List.length] in *.
  - replace (a + wordSize * Z.of_nat 0) with a in H2 by lia. assumption.
  - destruct H1 as [Hw H1]. split; [assumption|].
    apply IH; [assumption|].
    replace (a + wordSize + wordSize * Z.of_nat (List.length ws1))
      with (a + wordSize * Z.of_nat (S (List.length ws1))) by lia.
    assumption.
Qed.

Lemma words_at_split (ws1 : list Z) : forall (ws2 : list Z) (m : Mem) (a : Z),
  words_at m a (ws1 ++ ws2) ->
  words_at m a ws1 /\ words_at m (a + wordSize * Z.of_nat (List.length ws1)) ws2.
Proof.
  induction ws1 as [| w ws1 IH]; intros ws2 m a H;
    cbn [words_at app List.length] in *.
  - replace (a + wordSize * Z.of_nat 0) with a by lia. auto.
  - destruct H as [Hw H]. apply IH in H as [H1 H2].
    repeat split; try assumption.
    replace (a + wordSize * Z.of_nat (S (List.length ws1)))
      with (a + wordSize + wordSize * Z.of_nat (List.length ws1)) by lia.
    assumption.
Qed.

Section Writer.
Import DumpRegion.
Variable denv : VMEnv.

Lemma appended_nil (s : DumpState) : appended s s [].
Proof.
  unfold appended; cbn [List.length words_at].
  split; [lia | auto].
Qed.

Lemma appended_trans (s1 s2 s3 : DumpState) (ws1 ws2 : list Z) :
  appended s1 s2 ws1 -> appended s2 s3 ws2 -> appended s1 s3 (ws1 ++ ws2).
Proof.
  intros (Ht1 & Hw1 & Hm1) (Ht2 & Hw2 & Hm2). unfold appended.
  rewrite length_app, Nat2Z.inj_add.
  split; [lia | split].
  - apply words_at_app.
    + apply (words_at_ext ws1 (ds_mem s2)); [| assumption].
      intros x Hx. symmetry. apply Hm2. lia.
    + rewrite <- Ht1. assumption.
  - intros x Hx. rewrite Hm2 by (unfold wordSize in *; lia). apply Hm1. assumption.
Qed.

Lemma append_Ok (n : Z) (need_to_mark : bool) (s s' : DumpState) :
  is_intptr n ->
  WriteClosure.append denv n need_to_mark s = Ok s' ->
  appended s s' [n].
Proof.
  unfold WriteClosure.append, append_intptr_t. intros Hn H. inv_ok H.
  destruct a as [[r m] mk]. inv_ok Ha.
  destruct a0 as [t r1]. apply expand_top_to_Ok in Ha1 as (_ & Hle & _ & ->).
  assert (Hs : r = with_top (ds_region s) (_top (ds_region s) + wordSize) /\
               m = store_intptr (ds_mem s) (_top (ds_region s)) n).
  { destruct need_to_mark; [inv_ok Ha|]; inversion Ha; auto. }
  destruct Hs as [-> ->]. inversion H; subst s'; clear H.
  unfold appended; simpl. split; [unfold wordSize; lia | split; [split; [| exact I] |]].
  - apply load_intptr_store_intptr. assumption.
  - intros x Hx. apply store_intptr_outside. lia.
Qed.

Lemma do_region_loop_Ok (words : nat) : forall (buf : list byte) (s s' : DumpState),
  WriteClosure.do_region_loop denv words buf s = Ok s' ->
  appended s s' (buf_words words buf).
Proof.
  induction words as [| k IH]; intros buf s s' H; simpl in H.
  - inversion H; subst. apply appended_nil.
  - inv_ok H.
    apply append_Ok in Ha; [| apply to_intptr_range].
    apply IH in H.
    exact (appended_trans _ _ _ [_] _ Ha H).
Qed.

Lemma write_field_Ok (f : field) (s s' : DumpState) :
  write_field denv f s = Ok s' -> appended s s' (field_words denv f).
Proof.
  destruct f as [v | b | start buf | o]; simpl; intros H.
  - apply append_Ok in H; [assumption | apply to_intptr_range].
  - apply append_Ok in H; [assumption | apply to_intptr_range].
  - unfold WriteClosure.do_region in H. inv_ok H.
    apply append_Ok in Ha1; [| apply to_intptr_range].
    apply do_region_loop_Ok in H.
    exact (appended_trans _ _ _ [_] _ Ha1 H).
  - unfold WriteClosure.do_oop in H.
    destruct (o =? 0).
    + apply append_Ok in H; [assumption | unfold is_intptr; lia].
    + inv_ok H. apply append_Ok in H; [assumption | apply to_intptr_range].
Qed.

Lemma write_fields_Ok (fs : list field) : forall (s s' : DumpState),
  write_fields denv fs s = Ok s' ->
  appended s s' (flat_map (field_words denv) fs).
Proof.
  induction fs as [| f fs IH]; intros s s' H; simpl in H.
  - inversion H; subst. apply appended_nil.
  - inv_ok H. apply write_field_Ok in Ha. apply IH in H.
    simpl. exact (appended_trans _ _ _ _ _ Ha H).
Qed.

Lemma write_field_region_ok (f : field) (s s' : DumpState) :
  write_field denv f s = Ok s' -> region_ok f.
Proof.
  destruct f as [v | b | start buf | o]; simpl; intros H; try exact I.
  unfold WriteClosure.do_region in H. inv_ok H.
  apply Z.eqb_eq in Ha, Ha0. split; assumption.
Qed.

Lemma write_fields_region_ok (fs : list field) : forall (s s' : DumpState),
  write_fields denv fs s = Ok s' -> Forall region_ok fs.
Proof.
  induction fs as [| f fs IH]; intros s s' H; simpl in H; [constructor|].
  inv_ok H. constructor; [eapply write_field_region_ok | eapply IH]; eassumption.
Qed.

End Writer.

(* Arithmetic with the bounds of the machine types. *)
Ltac norm_pow :=
  change (2 ^ 64) with 18446744073709551616 in *;
  change (2 ^ 63) with 9223372036854775808 in *;
  change (2 ^ 32) with 4294967296 in *;
  change (2 ^ 31) with 2147483648 in *.
Ltac int_lia := unfold is_intptr, is_u4, wordSize in *; norm_pow; lia.

Lemma to_intptr_u4 (v : Z) : is_u4 v -> to_u4 (to_uintx (to_intptr v)) = v.
Proof.
  intros H. rewrite to_intptr_id by int_lia.
  unfold to_u4, to_uintx.
  rewrite (Z.mod_small v (2 ^ 64)) by int_lia. apply Z.mod_small. int_lia.
Qed.

Lemma to_intptr_bool (b : bool) : to_bool (to_uintx (to_intptr (of_bool b))) = b.
Proof. destruct b; reflexivity. Qed.

Lemma to_int_range (z : Z) : - 2 ^ 31 <= to_int z < 2 ^ 31.
Proof.
  unfold to_int. pose proof (Z.mod_pos_bound (z + 2 ^ 31) (2 ^ 32) eq_refl). lia.
Qed.

Lemma to_int_tag (z : Z) : to_int (to_intptr (to_int z)) = to_int z.
Proof.
  pose proof (to_int_range z) as H.
  rewrite to_intptr_id by int_lia.
  unfold to_int at 1. rewrite Z.mod_small; int_lia.
Qed.

Lemma to_intptr_mod_eq (u : Z) : to_intptr u mod 2 ^ 64 = u mod 2 ^ 64.
Proof.
  unfold to_intptr.
  rewrite Zminus_mod, Zmod_mod, <- Zminus_mod.
  f_equal. lia.
Qed.

Lemma le_split_to_intptr (u : Z) : le_split 8 (to_intptr u) = le_split 8 u.
Proof.
  rewrite (le_split_mod (to_intptr u)), (le_split_mod u).
  change (Z.of_nat 8 * 8) with 64. rewrite to_intptr_mod_eq. reflexivity.
Qed.

Lemma le_split_chunk (bs : list byte) :
  List.length bs = 8%nat -> le_split 8 (to_intptr (le_combine bs)) = bs.
Proof.
  intros H. rewrite le_split_to_intptr. rewrite <- H. apply split_le_combine.
Qed.

Lemma length_buf_words (words : nat) : forall (buf : list byte),
  List.length (buf_words words buf) = words.
Proof.
  induction words as [| k IH]; intros buf; simpl; [reflexivity | rewrite IH; reflexivity].
Qed.

Lemma region_length (buf : list byte) :
  Z.of_nat (List.length buf) mod wordSize = 0 ->
  List.length buf = (8 * Z.to_nat (Z.of_nat (List.length buf) / wordSize))%nat.
Proof.
  unfold wordSize. intros H.
  pose proof (Z.div_mod (Z.of_nat (List.length buf)) 8 ltac:(lia)) as Hdm.
  lia.
Qed.

Section Reader.
Import ReadClosure.
Variables denv lenv : VMEnv.

Lemma read_region_loop (words : nat) : forall (buf : list byte) (m : Mem) (a : Z),
  List.length buf = (8 * words)%nat ->
  words_at m a (buf_words words buf) ->
  do_region_loop m words (ReadClosure.mk a)
  = (buf, ReadClosure.mk (a + wordSize * Z.of_nat words)).
Proof.
  induction words as [| k IH]; intros buf m a Hlen Hw.
  - destruct buf; [| discriminate]. simpl. do 2 f_equal. lia.
  - cbn [buf_words words_at] in Hw. destruct Hw as [Hw Hrest].
    cbn [do_region_loop nextPtr _ptr_array].
    rewrite (IH (skipn 8 buf) m (a + wordSize)); [| rewrite length_skipn; lia | assumption].
    rewrite Hw, le_split_chunk by (rewrite length_firstn; lia).
    rewrite firstn_skipn. do 2 f_equal. lia.
Qed.

Hypothesis heap_ok : heap_subsystem_ok lenv.
Hypothesis policy :
  open_archive_heap_region_mapped lenv = true ->
  is_heap_object_archiving_allowed lenv = true.

Lemma read_field_words (f : field) (m : Mem) (a : Z) :
  region_ok f -> valid_field denv f ->
  words_at m a (field_words denv f) ->
  exists v,
    read_field lenv m (shape_of f) (ReadClosure.mk a)
    = Ok (v, ReadClosure.mk (a + wordSize * Z.of_nat (List.length (field_words denv f)))) /\
    reproduces_when_mapped lenv f v.
Proof.
  destruct heap_ok as [Hcast Hdecode].
  destruct f as [v | b | start buf | o]; cbn [region_ok valid_field field_words words_at];
    intros Hreg Hval Hw.
  - destruct Hw as [Hw _]. exists (V_u4 v).
    cbn [shape_of read_field]. unfold do_u4, nextPtr; cbn [_ptr_array].
    rewrite Hw, to_intptr_u4 by assumption.
    split; [do 3 f_equal | reflexivity].
  - destruct Hw as [Hw _]. exists (V_bool b).
    cbn [shape_of read_field]. unfold do_bool, nextPtr; cbn [_ptr_array].
    rewrite Hw, to_intptr_bool.
    split; [do 3 f_equal | reflexivity].
  - destruct Hw as [Htag Hw]. destruct Hreg as [Hstart Hsize].
    exists (V_region buf).
    cbn [shape_of read_field]. unfold do_region.
    apply Z.eqb_eq in Hstart. rewrite Hstart.
    assert (Hsize' := Hsize). apply Z.eqb_eq in Hsize'. rewrite Hsize'.
    cbn [assert_ bind].
    unfold do_tag, nextPtr; cbn [_ptr_array].
    rewrite Htag, to_int_tag, Z.eqb_refl. cbn [assert_ bind].
    rewrite (read_region_loop _ buf m (a + wordSize));
      [| apply region_length; assumption | assumption].
    cbn [bind]. split; [| reflexivity].
    do 3 f_equal. cbn [List.length]. rewrite length_buf_words. lia.
  - destruct Hw as [Hw _].
    cbn [shape_of read_field]. unfold do_oop, nextPtr; cbn [_ptr_array].
    rewrite Hw.
    destruct (Z.eqb_spec o 0) as [-> | Hnz].
    + exists (V_oop 0). rewrite Hcast by int_lia. cbn [bind is_null Z.eqb orb].
      split; [do 3 f_equal | cbn; intuition congruence].
    + specialize (Hval Hnz).
      rewrite to_intptr_id by int_lia. rewrite Hcast by lia. cbn [bind].
      replace (is_null (encode_not_null denv o)) with false
        by (symmetry; apply Z.eqb_neq; lia).
      destruct (open_archive_heap_region_mapped lenv) eqn:Hmapped; cbn [negb orb].
      * rewrite (policy eq_refl). cbn [assert_ bind].
        exists (V_oop (decode_from_archive lenv (encode_not_null denv o))).
        split; [do 3 f_equal|].
        cbn. split; [intros _; auto | intros _; apply Hdecode; assumption].
      * exists (V_oop 0). cbn [bind]. split; [do 3 f_equal|].
        cbn. split; [congruence | intros [_ H]; congruence].
Qed.

Lemma read_fields_words (fs : list field) : forall (m : Mem) (a : Z),
  Forall region_ok fs -> Forall (valid_field denv) fs ->
  words_at m a (flat_map (field_words denv) fs) ->
  exists vs,
    read_fields lenv m (map shape_of fs) (ReadClosure.mk a)
    = Ok (vs, ReadClosure.mk
                (a + wordSize * Z.of_nat (List.length (flat_map (field_words denv) fs)))) /\
    Forall2 (reproduces_when_mapped lenv) fs vs.
Proof.
  induction fs as [| f fs IH]; intros m a Hreg Hval Hw.
  - exists []. split; [| constructor].
    cbn. do 3 f_equal. lia.
  - inversion Hreg as [| ? ? Hreg1 Hreg2]; subst.
    inversion Hval as [| ? ? Hval1 Hval2]; subst.
    cbn [flat_map] in Hw |- *. apply words_at_split in Hw as [Hw1 Hw2].
    destruct (read_field_words f m a Hreg1 Hval1 Hw1) as (v & Hread & Hrep).
    destruct (IH m _ Hreg2 Hval2 Hw2) as (vs & Hreads & Hreps).
    exists (v :: vs). split; [| constructor; assumption].
    cbn [map read_fields]. rewrite Hread. cbn [bind]. rewrite Hreads. cbn [bind].
    do 3 f_equal. rewrite length_app. lia.
Qed.

End Reader.

Lemma reproduces_mapped (lenv : VMEnv) (fs : list field) (vs : list field_value) :
  open_archive_heap_region_mapped lenv = true ->
  Forall2 (reproduces_when_mapped lenv) fs vs -> Forall2 reproduces fs vs.
Proof.
  intros Hm H. induction H as [| f v fs vs Hf _ IH]; constructor; [| assumption].
  destruct f, v; cbn in *; try assumption.
  rewrite Hm in Hf. destruct (Z.eq_dec o 0), (Z.eq_dec o0 0); intuition congruence.
Qed.

(** C1 (as amended).  Let a sequence of fields whose u4 values fit 32 bits
    and whose non-null references encode to non-null narrowOops be written
    successfully, starting at the region's top.  Then a reader replaying the
    shapes of the same sequence from that address, on any memory that
    agrees with the writer's on the bytes written, returns one value per
    field and ends at the writer's final top; each scalar is the one
    written, each raw region is reproduced byte for byte, and a reference
    comes back non-null exactly when it was written non-null and the open
    archive heap region is mapped at load time (with that region unmapped
    every reference comes back null).  In particular, when the region is
    mapped the null/non-null state of every reference is reproduced. *)
Theorem round_trip_when_mapped
    (denv lenv : VMEnv) (fs : list field) (s s' : DumpState) (m_r : Mem) :
  heap_subsystem_ok lenv ->
  (open_archive_heap_region_mapped lenv = true ->
   is_heap_object_archiving_allowed lenv = true) ->
  Forall (valid_field denv) fs ->
  write_fields denv fs s = Ok s' ->
  (forall x, DumpRegion._top (ds_region s) <= x < DumpRegion._top (ds_region s') ->
             m_r x = ds_mem s' x) ->
  exists vs,
    read_fields lenv m_r (map shape_of fs) (ReadClosure.mk (DumpRegion._top (ds_region s)))
    = Ok (vs, ReadClosure.mk (DumpRegion._top (ds_region s'))) /\
    Forall2 (reproduces_when_mapped lenv) fs vs /\
    (open_archive_heap_region_mapped lenv = true -> Forall2 reproduces fs vs).
Proof.
  intros Hheap Hpol Hval Hwrite Hagree.
  assert (Hreg := write_fields_region_ok denv fs s s' Hwrite).
  destruct (write_fields_Ok denv fs s s' Hwrite) as (Htop & Hwords & _).
  assert (Hwords' : words_at m_r (DumpRegion._top (ds_region s))
                             (flat_map (field_words denv) fs)).
  { apply (words_at_ext _ (ds_mem s')); [| assumption].
    intros x Hx. symmetry. apply Hagree. lia. }
  destruct (read_fields_words denv lenv Hheap Hpol fs m_r _ Hreg Hval Hwords')
    as (vs & Hread & Hrep).
  exists vs. rewrite Htop. split; [assumption | split; [assumption|]].
  intros Hm. eapply reproduces_mapped; eassumption.
Qed.

Lemma sample_env_heap_ok : heap_subsystem_ok sample_env.
Proof.
  split; intros n Hn.
  - change (narrow_oop_cast sample_env n)
      with (if (0 <=? n) && (n <? 2 ^ 32) then Ok n
            else Fail (AssertFailed "narrowOop overflow")).
    replace (0 <=? n) with true by (symmetry; apply Z.leb_le; lia).
    replace (n <? 2 ^ 32) with true by (symmetry; apply Z.ltb_lt; lia).
    reflexivity.
  - change (decode_from_archive sample_env n) with (Z.shiftl n 3).
    rewrite Z.shiftl_mul_pow2 by lia. lia.
Qed.

Lemma sample_env_unmapped_heap_ok : heap_subsystem_ok sample_env_unmapped.
Proof. exact sample_env_heap_ok. Qed.

Lemma sample_fields_valid : Forall (valid_field sample_env) sample_fields.
Proof.
  unfold sample_fields.
  constructor; [vm_compute; split; congruence|].
  constructor; [exact I|]. constructor; [exact I|].
  constructor; [intros _; vm_compute; split; congruence|].
  constructor; [intros H; exfalso; apply H; reflexivity | constructor].
Qed.

Lemma round_trip_when_mapped_witness :
  exists s' vs,
    write_fields sample_env sample_fields sample_state = Ok s' /\
    read_fields sample_env (ds_mem s') (map shape_of sample_fields) (ReadClosure.mk 65536)
    = Ok (vs, ReadClosure.mk (DumpRegion._top (ds_region s'))) /\
    Forall2 reproduces sample_fields vs.
Proof.
  destruct (write_fields sample_env sample_fields sample_state) as [s' | e] eqn:Hw;
    [| vm_compute in Hw; discriminate Hw].
  destruct (round_trip_when_mapped sample_env sample_env sample_fields sample_state s'
              (ds_mem s') sample_env_heap_ok (fun _ => eq_refl) sample_fields_valid Hw
              (fun _ _ => eq_refl))
    as (vs & Hread & _ & Hrep).
  exists s', vs. split; [reflexivity | split; [exact Hread | exact (Hrep eq_refl)]].
Defined.

(* With the open archive heap region not mapped at load time, the non-null
   reference 4096 is read back as null. *)
Lemma round_trip_fails_when_unmapped :
  ~ round_trip_law sample_env sample_env_unmapped [F_oop 4096] sample_state.
Proof.
  unfold round_trip_law. intros H.
  assert (Hrun : exists s',
             write_fields sample_env [F_oop 4096] sample_state = Ok s' /\
             read_fields sample_env_unmapped (ds_mem s') (map shape_of [F_oop 4096])
                         (ReadClosure.mk (DumpRegion._top (ds_region sample_state)))
             = Ok ([V_oop 0], ReadClosure.mk 65544)).
  { eexists. split; [vm_compute; reflexivity|]. vm_compute. reflexivity. }
  destruct Hrun as (s' & Hw & Hr).
  destruct (H s' Hw) as (vs & rc' & Hread & Hrep).
  rewrite Hr in Hread. inversion Hread; subst vs rc'.
  inversion Hrep as [| f v fs vs0 Hf _]; subst.
  cbn in Hf. destruct Hf as [Hf _].
  specialize (Hf eq_refl). discriminate Hf.
Qed.

(* Slot 100 of a 16-bit map: the map grows to 202 bits and bit 100 is set. *)
Lemma mark_pointer_spec_witness :
  let st := sample_marker 16 in
  let m := store_intptr zero_mem (65536 + 8 * 100) (65536 + 64) in
  exists ptrmap',
    ArchivePtrMarker.mark_pointer st m (65536 + 8 * 100)
    = Ok (ArchivePtrMarker.with_ptrmap st ptrmap') /\
    CHeapBitMap.size ptrmap' = 202 /\
    CHeapBitMap.at_ ptrmap' 100 = true /\
    ArchivePtrMarker.mark_pointer st m (65536 + 8 * 2000) = Ok st /\
    ArchivePtrMarker.mark_pointer st m (65536 + 8 * 3) = Ok st.
Proof.
  intros st m.
  assert (Hwf : CHeapBitMap.wf (CHeapBitMap.initialize 16))
    by (apply BitMapFacts.wf_initialize; lia).
  destruct (mark_pointer_spec st m (65536 + 8 * 100) _ eq_refl eq_refl Hwf)
    as (_ & _ & Hmark).
  destruct Hmark as (bm' & Hrun & Hsize & _ & Hbit & _);
    try (vm_compute; first [congruence | split; congruence]).
  exists bm'. split; [exact Hrun|]. split; [exact Hsize|]. split; [exact Hbit|].
  split.
  - refine (proj1 (mark_pointer_spec st m (65536 + 8 * 2000) _ eq_refl eq_refl Hwf) _).
    vm_compute. intros [_ H]. discriminate H.
  - refine (proj1 (proj2 (mark_pointer_spec st m (65536 + 8 * 3) _ eq_refl eq_refl Hwf))
              _ _ _); vm_compute; first [congruence | split; congruence].
Defined.

(** ** The raw-region scenario

    A raw region of 16 bytes holding the words 43690 and 0 is written at the
    start of the marked range, read back, and the marker is compacted: the
    reader sees the region again, the archive holds the tag 16 and the two
    words, and the compacted bitmap has size 2 with only the bit of the
    first data word (slot 1) set. *)
Example raw_region_scenario :
  let f := F_region 4096 (le_split 8 43690 ++ le_split 8 0) in
  exists s' st',
    write_fields sample_env [f] sample_state = Ok s' /\
    DumpRegion._top (ds_region s') = 65536 + 24 /\
    load_intptr (ds_mem s') 65536 = 16 /\
    load_intptr (ds_mem s') 65544 = 43690 /\
    load_intptr (ds_mem s') 65552 = 0 /\
    read_fields sample_env (ds_mem s') [shape_of f] (ReadClosure.mk 65536)
    = Ok ([V_region (le_split 8 43690 ++ le_split 8 0)], ReadClosure.mk (65536 + 24)) /\
    ArchivePtrMarker.compact (ds_marker s') (ds_mem s') 4096 (65536 + 1048576) = Ok st' /\
    ArchivePtrMarker._ptrmap st' = Some (CHeapBitMap.mk 2 2).
Proof.
  intros f. eexists. eexists.
  split; [vm_compute; reflexivity|].
  repeat split; vm_compute; reflexivity.
Qed.

(** * Further properties of the code *)

(** ** The marker's life cycle *)

Section MarkerLifeCycle.
Import CHeapBitMap ArchivePtrMarker BitMapFacts.

Lemma marker_eta (st : ArchivePtrMarker.t) (bm : CHeapBitMap.t) :
  _ptrmap st = Some bm ->
  st = ArchivePtrMarker.mk (Some bm) (_ptr_base st) (_ptr_end st) (_compacted st).
Proof. destruct st; simpl; intros ->; reflexivity. Qed.

(* What a successful mark_pointer leaves, bit by bit. *)
Lemma mark_pointer_bits (st st' : ArchivePtrMarker.t) (m : Mem) (ptr_loc : Z)
    (bm : CHeapBitMap.t) :
  _ptrmap st = Some bm -> wf bm ->
  mark_pointer st m ptr_loc = Ok st' ->
  exists bm',
    st' = ArchivePtrMarker.mk (Some bm') (_ptr_base st) (_ptr_end st) false /\
    _compacted st = false /\
    wf bm' /\ size bm <= size bm' /\
    (forall j, at_ bm' j = at_ bm j || (marks st m ptr_loc && (slot_index st ptr_loc =? j))).
Proof.
  intros Hmap Hwf H. unfold mark_pointer in H. rewrite Hmap in H.
  inv_ok H. apply negb_true_iff in Ha.
  unfold marks, slot_index.
  destruct ((_ptr_base st <=? ptr_loc) && (ptr_loc <? _ptr_end st)) eqn:Hin.
  - cbv zeta in H. inv_ok H.
    destruct (load_address m ptr_loc =? 0) eqn:Hnull; cbn [negb andb] in H |- *.
    + inversion H; subst st'. exists bm.
      split; [rewrite <- Ha; apply marker_eta; assumption|].
      split; [assumption|]. split; [assumption|]. split; [lia|].
      intros j. rewrite orb_false_r. reflexivity.
    + inv_ok H. cbv zeta in H. inv_ok H.
      apply andb_true_iff in Hin as [Hlo _]. apply Z.leb_le in Hlo.
      assert (Hidx : 0 <= (ptr_loc - _ptr_base st) / wordSize)
        by (apply Z.div_pos; [lia | reflexivity]).
      set (idx := (ptr_loc - _ptr_base st) / wordSize) in *.
      apply Z.ltb_lt in Ha2.
      inversion H; subst st'; clear H. unfold with_ptrmap. rewrite Ha.
      destruct (Z.leb_spec (size bm) idx) as [Hgrow | Hfit];
        (eexists; split; [reflexivity|]; split; [reflexivity|]).
      * rewrite size_resize in Ha2.
        split; [apply wf_set_bit; [apply wf_resize; lia | rewrite size_resize; lia]|].
        split; [rewrite size_set_bit, size_resize; lia|].
        intros j. rewrite at_set_bit by lia.
        rewrite at_resize_grow by (auto; lia). apply orb_comm.
      * split; [apply wf_set_bit; [assumption | lia]|].
        split; [rewrite size_set_bit; lia|].
        intros j. rewrite at_set_bit by lia. apply orb_comm.
  - inversion H; subst st'. exists bm.
    split; [rewrite <- Ha; apply marker_eta; assumption|].
    split; [assumption|]. split; [assumption|]. split; [lia|].
    intros j. cbn [andb]. rewrite orb_false_r. reflexivity.
Qed.

Lemma set_bit_already (bm : CHeapBitMap.t) (i : Z) :
  0 <= i -> at_ bm i = true -> set_bit bm i = bm.
Proof.
  intros Hi Hbit. destruct bm as [sz mp]. unfold set_bit, at_ in *; simpl in *.
  f_equal. apply Z.bits_inj'. intros n Hn.
  rewrite Z.setbit_eqb by assumption.
  destruct (Z.eqb_spec i n) as [-> | Hne]; simpl; [symmetry; assumption | reflexivity].
Qed.

(* The assertion "must be" of mark_pointer cannot fail. *)
Lemma must_be_holds (bm : CHeapBitMap.t) (idx : Z) :
  0 <= idx ->
  (idx <? size (if size bm <=? idx then resize bm ((idx + 1) * 2) else bm)) = true.
Proof.
  intros Hidx. apply Z.ltb_lt.
  destruct (Z.leb_spec (size bm) idx); [rewrite size_resize|]; lia.
Qed.

(* mark_pointer on a marker that passes its checks. *)
Lemma mark_pointer_eq (st : ArchivePtrMarker.t) (m : Mem) (ptr_loc : Z) (bm : CHeapBitMap.t) :
  _ptrmap st = Some bm -> _compacted st = false -> markable st m ptr_loc = true ->
  mark_pointer st m ptr_loc
  = Ok (if marks st m ptr_loc
        then with_ptrmap st
               (set_bit (if size bm <=? slot_index st ptr_loc
                         then resize bm ((slot_index st ptr_loc + 1) * 2) else bm)
                        (slot_index st ptr_loc))
        else st).
Proof.
  intros Hmap Hc Hok. unfold mark_pointer, markable, marks, slot_index in *.
  rewrite Hmap, Hc. cbn [negb assert_ bind].
  destruct ((_ptr_base st <=? ptr_loc) && (ptr_loc <? _ptr_end st)) eqn:Hin;
    [| reflexivity].
  apply andb_true_iff in Hok as [Hb Hal]. rewrite Hb. cbn [assert_ bind andb].
  destruct (load_address m ptr_loc =? 0) eqn:Hnull; cbn [negb orb] in *; [reflexivity|].
  rewrite Hal. cbn [assert_ bind].
  apply andb_true_iff in Hin as [Hlo _]. apply Z.leb_le in Hlo.
  rewrite must_be_holds by (apply Z.div_pos; [lia | reflexivity]).
  reflexivity.
Qed.

Lemma mark_pointer_ok_markable (st : ArchivePtrMarker.t) (m : Mem) (ptr_loc : Z) :
  is_ok (mark_pointer st m ptr_loc) = true ->
  (exists bm, _ptrmap st = Some bm) /\ _compacted st = false /\
  markable st m ptr_loc = true.
Proof.
  intros H. unfold mark_pointer, markable in *.
  destruct (_ptrmap st) as [bm |] eqn:Hmap; [| discriminate].
  split; [eauto|].
  destruct (_compacted st); [discriminate|]. split; [reflexivity|].
  cbn [negb assert_ bind] in H.
  destruct ((_ptr_base st <=? ptr_loc) && (ptr_loc <? _ptr_end st)); [| reflexivity].
  destruct (load_address m ptr_loc =? _ptr_base st); [discriminate|].
  cbn [negb assert_ bind andb] in H |- *.
  destruct (load_address m ptr_loc =? 0); [reflexivity|].
  cbn [negb orb] in H |- *.
  destruct (to_uintx ptr_loc mod wordSize =? 0); [reflexivity | discriminate].
Qed.

(** X1.  [mark_pointer] returns exactly when the marker is initialized, not
    compacted, and the slot, if it lies in the instrumented range, does not
    hold [_ptr_base] and is either null or word aligned.  In particular the
    assertion "must be" after the resize never fails, whatever the size of
    the bitmap and however far the slot lies beyond it. *)
Theorem mark_pointer_ok_iff (st : ArchivePtrMarker.t) (m : Mem) (ptr_loc : Z) :
  (is_ok (mark_pointer st m ptr_loc) = true <->
   (exists bm, _ptrmap st = Some bm) /\ _compacted st = false /\
   markable st m ptr_loc = true) /\
  mark_pointer st m ptr_loc <> Fail (AssertFailed "must be").
Proof.
  split.
  - split; [apply mark_pointer_ok_markable|].
    intros ((bm & Hmap) & Hc & Hok).
    rewrite (mark_pointer_eq st m ptr_loc bm Hmap Hc Hok). reflexivity.
  - intros Hfail.
    destruct (is_ok (mark_pointer st m ptr_loc)) eqn:Hok.
    + rewrite Hfail in Hok. discriminate.
    + unfold mark_pointer in Hfail.
      destruct (_ptrmap st) as [bm |]; [| discriminate].
      destruct (_compacted st); [discriminate|]. cbn [negb assert_ bind] in Hfail.
      destruct ((_ptr_base st <=? ptr_loc) && (ptr_loc <? _ptr_end st)) eqn:Hin;
        [| discriminate].
      destruct (load_address m ptr_loc =? _ptr_base st); [discriminate|].
      cbn [negb assert_ bind] in Hfail.
      destruct (load_address m ptr_loc =? 0); [discriminate|]. cbn [negb] in Hfail.
      destruct (to_uintx ptr_loc mod wordSize =? 0); [| discriminate].
      cbn [assert_ bind] in Hfail.
      apply andb_true_iff in Hin as [Hlo _]. apply Z.leb_le in Hlo.
      rewrite must_be_holds in Hfail by (apply Z.div_pos; [lia | reflexivity]).
      discriminate.
Qed.

(** X2.  A successful [mark_pointer] on a well-formed bitmap leaves the
    marker's range and its not-compacted state as they were and a
    well-formed bitmap that is not smaller; no bit is cleared, and the only
    bit that can become set is the one of the given slot, which happens
    exactly when the slot is in range and holds a non-null value. *)
Theorem mark_pointer_only_adds (st st' : ArchivePtrMarker.t) (m : Mem) (ptr_loc : Z)
    (bm : CHeapBitMap.t) :
  _ptrmap st = Some bm -> wf bm ->
  mark_pointer st m ptr_loc = Ok st' ->
  exists bm',
    _ptrmap st' = Some bm' /\ wf bm' /\
    _ptr_base st' = _ptr_base st /\ _ptr_end st' = _ptr_end st /\
    _compacted st' = false /\
    size bm <= size bm' /\
    (forall j, at_ bm j = true -> at_ bm' j = true) /\
    (forall j, j <> slot_index st ptr_loc -> at_ bm' j = at_ bm j) /\
    at_ bm' (slot_index st ptr_loc) = at_ bm (slot_index st ptr_loc) || marks st m ptr_loc.
Proof.
  intros Hmap Hwf H.
  destruct (mark_pointer_bits st st' m ptr_loc bm Hmap Hwf H)
    as (bm' & -> & Hc & Hwf' & Hsz & Hbits).
  exists bm'. cbn.
  split; [reflexivity|]. split; [assumption|].
  split; [reflexivity|]. split; [reflexivity|]. split; [reflexivity|].
  split; [assumption|]. split; [| split].
  - intros j Hj. rewrite Hbits, Hj. reflexivity.
  - intros j Hj. rewrite Hbits.
    replace (slot_index st ptr_loc =? j) with false
      by (symmetry; apply Z.eqb_neq; congruence).
    rewrite andb_false_r, orb_false_r. reflexivity.
  - rewrite Hbits, Z.eqb_refl, andb_true_r. reflexivity.
Qed.

(** X3.  Marking is idempotent: after a successful [mark_pointer] on a
    well-formed bitmap, marking the same slot again (the memory unchanged)
    succeeds and leaves the marker exactly as the first call left it. *)
Theorem mark_pointer_idempotent (st st' : ArchivePtrMarker.t) (m : Mem) (ptr_loc : Z)
    (bm : CHeapBitMap.t) :
  _ptrmap st = Some bm -> wf bm ->
  mark_pointer st m ptr_loc = Ok st' ->
  mark_pointer st' m ptr_loc = Ok st'.
Proof.
  intros Hmap Hwf H.
  assert (Hok : is_ok (mark_pointer st m ptr_loc) = true) by (rewrite H; reflexivity).
  apply mark_pointer_ok_markable in Hok as (_ & Hc & Hmk).
  destruct (mark_pointer_bits st st' m ptr_loc bm Hmap Hwf H)
    as (bm' & -> & _ & Hwf' & Hsz & Hbits).
  rewrite (mark_pointer_eq
             (ArchivePtrMarker.mk (Some bm') (_ptr_base st) (_ptr_end st) false)
             m ptr_loc bm' eq_refl eq_refl) by exact Hmk.
  change (marks (ArchivePtrMarker.mk (Some bm') (_ptr_base st) (_ptr_end st) false) m ptr_loc)
    with (marks st m ptr_loc).
  change (slot_index (ArchivePtrMarker.mk (Some bm') (_ptr_base st) (_ptr_end st) false) ptr_loc)
    with (slot_index st ptr_loc).
  destruct (marks st m ptr_loc) eqn:Hmarks; [| reflexivity].
  assert (Hbit : at_ bm' (slot_index st ptr_loc) = true)
    by (rewrite Hbits, Z.eqb_refl; apply orb_true_r).
  destruct Hwf' as [Hs' Hb']. assert (Hi := Hb' _ Hbit).
  replace (size bm' <=? slot_index st ptr_loc) with false
    by (symmetry; apply Z.leb_gt; lia).
  rewrite set_bit_already by (lia || assumption). reflexivity.
Qed.

Lemma clear_pointer_succeeds (st : ArchivePtrMarker.t) (ptr_loc : Z) (bm : CHeapBitMap.t) :
  _ptrmap st = Some bm -> _compacted st = false ->
  _ptr_base st <= ptr_loc < _ptr_end st ->
  to_uintx ptr_loc mod wordSize = 0 -> slot_index st ptr_loc < size bm ->
  clear_pointer st ptr_loc
  = Ok (with_ptrmap st (clear_bit bm (slot_index st ptr_loc))).
Proof.
  intros Hmap Hc Hin Hal Hidx. unfold clear_pointer, slot_index in *.
  rewrite Hmap, Hc, (in_range_true _ _ Hin).
  apply Z.eqb_eq in Hal. apply Z.ltb_lt in Hidx. rewrite Hal, Hidx. reflexivity.
Qed.

(** X4.  [clear_pointer] returns exactly when the marker is initialized and
    not compacted, the slot lies in the instrumented range, is word aligned
    and its index is below the size of the bitmap.  When it returns, the
    bit of the slot is clear, every other bit and the size of the bitmap
    are as before, and range and state of the marker are unchanged. *)
Theorem clear_pointer_spec (st : ArchivePtrMarker.t) (ptr_loc : Z) (bm : CHeapBitMap.t) :
  _ptrmap st = Some bm ->
  let idx := slot_index st ptr_loc in
  (is_ok (clear_pointer st ptr_loc) = true <->
   _compacted st = false /\ _ptr_base st <= ptr_loc < _ptr_end st /\
   to_uintx ptr_loc mod wordSize = 0 /\ idx < size bm) /\
  (forall st', clear_pointer st ptr_loc = Ok st' ->
     exists bm',
       st' = ArchivePtrMarker.mk (Some bm') (_ptr_base st) (_ptr_end st) (_compacted st) /\
       size bm' = size bm /\
       at_ bm' idx = false /\
       (forall j, j <> idx -> at_ bm' j = at_ bm j) /\
       (wf bm -> wf bm')).
Proof.
  intros Hmap. cbv zeta. split.
  - split.
    + intros H. unfold clear_pointer, slot_index in *. rewrite Hmap in H.
      destruct (_compacted st); [discriminate|]. cbn [negb assert_ bind] in H.
      destruct ((_ptr_base st <=? ptr_loc) && (ptr_loc <? _ptr_end st)) eqn:Hin;
        [| discriminate].
      cbn [assert_ bind] in H.
      destruct (Z.eqb_spec (to_uintx ptr_loc mod wordSize) 0) as [Hal |]; [| discriminate].
      cbn [assert_ bind] in H.
      destruct (Z.ltb_spec ((ptr_loc - _ptr_base st) / wordSize) (size bm)); [| discriminate].
      apply andb_true_iff in Hin as [H1 H2].
      apply Z.leb_le in H1. apply Z.ltb_lt in H2. auto.
    + intros (Hc & Hin & Hal & Hidx).
      rewrite (clear_pointer_succeeds st ptr_loc bm); auto.
  - intros st' H. unfold clear_pointer in H. rewrite Hmap in H.
    fold (slot_index st ptr_loc) in H.
    inv_ok H. inversion H; subst st'; clear H.
    exists (clear_bit bm (slot_index st ptr_loc)). unfold with_ptrmap.
    split; [reflexivity|]. split; [reflexivity|]. split; [| split].
    + rewrite at_clear_bit, Z.eqb_refl. apply andb_false_r.
    + intros j Hj. rewrite at_clear_bit.
      replace (slot_index st ptr_loc =? j) with false
        by (symmetry; apply Z.eqb_neq; congruence).
      apply andb_true_r.
    + apply wf_clear_bit.
Qed.

(** X5.  Clearing undoes marking: when [mark_pointer] has set the bit of a
    slot (the slot is in range and holds a non-null value), [clear_pointer]
    on the same slot succeeds, and the resulting bitmap has every bit as it
    was before the mark, except the bit of the slot, which is clear. *)
Theorem clear_after_mark (st st1 : ArchivePtrMarker.t) (m : Mem) (ptr_loc : Z)
    (bm : CHeapBitMap.t) :
  _ptrmap st = Some bm -> wf bm ->
  mark_pointer st m ptr_loc = Ok st1 ->
  marks st m ptr_loc = true ->
  exists st2 bm2,
    clear_pointer st1 ptr_loc = Ok st2 /\
    _ptrmap st2 = Some bm2 /\ wf bm2 /\
    (forall j, at_ bm2 j = at_ bm j && negb (slot_index st ptr_loc =? j)).
Proof.
  intros Hmap Hwf Hmark Hmarks.
  assert (Hok : is_ok (mark_pointer st m ptr_loc) = true) by (rewrite Hmark; reflexivity).
  apply mark_pointer_ok_markable in Hok as (_ & _ & Hmk).
  destruct (mark_pointer_bits st st1 m ptr_loc bm Hmap Hwf Hmark)
    as (bm1 & -> & _ & Hwf1 & _ & Hbits).
  set (st1 := ArchivePtrMarker.mk (Some bm1) (_ptr_base st) (_ptr_end st) false).
  assert (Hbit : at_ bm1 (slot_index st ptr_loc) = true)
    by (rewrite Hbits, Hmarks, Z.eqb_refl; apply orb_true_r).
  assert (Hidx := proj2 Hwf1 _ Hbit).
  unfold marks, markable in Hmarks, Hmk.
  apply andb_true_iff in Hmarks as [Hin Hnn].
  rewrite Hin in Hmk. apply andb_true_iff in Hmk as [_ Hal].
  apply negb_true_iff in Hnn. rewrite Hnn in Hal. cbn [orb] in Hal.
  apply andb_true_iff in Hin as [H1 H2]. apply Z.leb_le in H1. apply Z.ltb_lt in H2.
  apply Z.eqb_eq in Hal.
  exists (with_ptrmap st1 (clear_bit bm1 (slot_index st1 ptr_loc))),
         (clear_bit bm1 (slot_index st1 ptr_loc)).
  split; [apply clear_pointer_succeeds; auto; apply Hidx|].
  split; [reflexivity|]. split; [apply wf_clear_bit; assumption|].
  intros j. change (slot_index st1 ptr_loc) with (slot_index st ptr_loc).
  rewrite at_clear_bit, Hbits.
  destruct (Z.eqb_spec (slot_index st ptr_loc) j) as [<- | Hne]; cbn [negb].
  - rewrite !andb_false_r. reflexivity.
  - rewrite andb_false_r, orb_false_r. reflexivity.
Qed.

(** X6.  [initialize] on a marker that has no bitmap yet returns a marker
    over the given range, not compacted, whose bitmap is well formed, has
    [6 * M / 8] bits (the ASSERT build's estimate, whatever the capacity
    reported by the metaspace) and no bit set; on the marker it returns,
    and on any marker that has a bitmap, [initialize] fails ("initialize
    only once"). *)
Theorem initialize_once (env : VMEnv) (st : ArchivePtrMarker.t) (ptrmap : CHeapBitMap.t)
    (ptr_base ptr_end : Z) :
  (_ptrmap st = None ->
   exists bm,
     initialize env st ptrmap ptr_base ptr_end
     = Ok (ArchivePtrMarker.mk (Some bm) ptr_base ptr_end false) /\
     wf bm /\ size bm = 786432 /\ (forall j, at_ bm j = false) /\
     forall ptrmap' b e,
       initialize env (ArchivePtrMarker.mk (Some bm) ptr_base ptr_end false) ptrmap' b e
       = Fail (AssertFailed "initialize only once")) /\
  (_ptrmap st <> None ->
   initialize env st ptrmap ptr_base ptr_end = Fail (AssertFailed "initialize only once")).
Proof.
  unfold initialize. split.
  - intros ->. cbn [assert_ bind].
    eexists. split; [reflexivity|].
    split; [apply wf_initialize; vm_compute; congruence|].
    split; [reflexivity|]. split; [| reflexivity].
    intros j. unfold at_; cbn. apply Z.bits_0.
  - intros H. destruct (_ptrmap st); [reflexivity | contradiction].
Qed.

(** X7.  What load-time relocation relies on: when [compact] returns, every
    bit set in the compacted bitmap designates a slot whose current value
    is non-null and lies inside the relocatable range, and that bit was set
    before the compaction. *)
Theorem compact_result_relocatable (st st' : ArchivePtrMarker.t) (m : Mem) (rb re : Z)
    (bm : CHeapBitMap.t) :
  _ptrmap st = Some bm -> wf bm ->
  compact st m rb re = Ok st' ->
  exists bm',
    _ptrmap st' = Some bm' /\ wf bm' /\ _compacted st' = true /\
    forall i, at_ bm' i = true ->
      at_ bm i = true /\
      slot_value m (_ptr_base st) i <> 0 /\
      rb <= slot_value m (_ptr_base st) i < re.
Proof.
  intros Hmap Hwf H.
  assert (Hc : _compacted st = false).
  { unfold compact in H. destruct (_compacted st); [discriminate | reflexivity]. }
  assert (Hok : forall i, ~ points_outside bm m (_ptr_base st) rb re i).
  { intros i Hout.
    rewrite (compact_fails st m rb re bm Hmap Hc Hwf (ex_intro _ i Hout)) in H.
    discriminate. }
  destruct (compact_succeeds st m rb re bm Hmap Hc Hwf Hok)
    as (bm' & Hrun & Hwf' & Hiff & Hsome & Hnone).
  rewrite Hrun in H. inversion H; subst st'; clear H.
  exists bm'. split; [reflexivity|]. split; [assumption|]. split; [reflexivity|].
  intros i Hbit. apply Hiff in Hbit. destruct Hbit as [Hb Hnn].
  split; [assumption|]. split; [assumption|].
  destruct (Z_le_dec rb (slot_value m (_ptr_base st) i)) as [H1 | H1];
    [destruct (Z_lt_dec (slot_value m (_ptr_base st) i) re) as [H2 | H2]; [lia|]|];
    exfalso; apply (Hok i); repeat split; auto; lia.
Qed.

End MarkerLifeCycle.

(** ** Regions *)

Section RegionFacts.
Import DumpRegion.
Variable env : VMEnv.

Lemma append_intptr_t_Ok (r r' : DumpRegion.t) (m m' : Mem) (mk mk' : ArchivePtrMarker.t)
    (n : Z) (need_to_mark : bool) :
  append_intptr_t env r m mk n need_to_mark = Ok (r', m', mk') ->
  _top r mod wordSize = 0 /\ is_allocatable r = true /\
  _top r + wordSize <= _end r /\
  r' = with_top r (_top r + wordSize) /\
  m' = store_intptr m (_top r) n /\
  (if need_to_mark then ArchivePtrMarker.mark_pointer mk m' (_top r) = Ok mk'
   else mk' = mk).
Proof.
  unfold append_intptr_t. intros H. inv_ok H.
  unfold is_aligned in Ha. apply Z.eqb_eq in Ha.
  destruct a0 as [t r1]. apply expand_top_to_Ok in Ha0 as (Hal & Hle & _ & ->).
  destruct need_to_mark.
  - inv_ok H. inversion H; subst; clear H. repeat split; auto; lia.
  - inversion H; subst; clear H. repeat split; auto; lia.
Qed.

Lemma pack_Ok (r r' : DumpRegion.t) (next next' : option DumpRegion.t) :
  pack env r next = Ok (r', next') ->
  is_packed r = false /\
  r' = mk (_name r) (_base r) (_top r)
          (align_up (_top r) (reserved_space_alignment env)) true (_rs r) (_vs r) /\
  match next with
  | None => next' = None
  | Some nx =>
      rs_addr (_rs r) <> 0 /\
      next' = Some (mk (_name nx) (_end r') (_end r') (rs_end (_rs r))
                       (_is_packed nx) (_rs r) (_vs r))
  end.
Proof.
  unfold pack. intros H.
  destruct (is_packed r) eqn:Hp; [discriminate H|]. cbn [negb assert_ bind] in H.
  split; [reflexivity|].
  destruct next as [nx |].
  - unfold deref_rs in H.
    destruct (Z.eqb_spec (rs_addr (_rs r)) 0) as [E | E]; [discriminate H|].
    cbn [bind] in H. inversion H; subst; clear H.
    split; [reflexivity|]. split; [exact E | reflexivity].
  - inversion H; subst; clear H. split; reflexivity.
Qed.

(** X8.  The cursors of a region stay ordered: if [_base <= _top <= _end]
    holds, it holds again after every successful [expand_top_to],
    [allocate] and [append_intptr_t], none of which moves the top down or
    changes the base, the end, the name or the packed flag; and it holds
    after [pack] (for a power-of-two granularity), which moves only the
    end, to a value not below the top. *)
Theorem region_cursors_stay_ordered (r : DumpRegion.t) :
  region_inv r ->
  let kept (r' : DumpRegion.t) :=
    region_inv r' /\ _top r <= _top r' /\ _base r' = _base r /\ _end r' = _end r /\
    _name r' = _name r /\ _is_packed r' = _is_packed r in
  (forall newtop t r', expand_top_to env r newtop = Ok (t, r') -> kept r') /\
  (forall m n p r' m', allocate env r m n = Ok (p, (r', m')) -> kept r') /\
  (forall m mk n need r' m' mk',
      append_intptr_t env r m mk n need = Ok (r', m', mk') -> kept r') /\
  (forall next r' next',
      is_power_of_2 (reserved_space_alignment env) ->
      0 <= _top r -> _top r + reserved_space_alignment env <= 2 ^ 64 ->
      pack env r next = Ok (r', next') ->
      region_inv r' /\ _top r' = _top r /\ _base r' = _base r /\ _top r <= _end r').
Proof.
  unfold region_inv. intros Hinv. cbv zeta beta.
  split; [| split; [| split]].
  - intros newtop t r' H. apply expand_top_to_Ok in H as (_ & Hle & _ & ->).
    cbn. repeat split; lia.
  - intros m n p r' m' H.
    apply allocate_Ok_raw in H as (_ & -> & _ & _ & Hle). cbv zeta in Hle.
    cbn. repeat split; lia.
  - intros m mk n need r' m' mk' H.
    apply append_intptr_t_Ok in H as (_ & _ & Hle & -> & _).
    cbn. unfold wordSize in *. repeat split; lia.
  - intros next r' next' Hpow Htop Htb H.
    destruct (align_up_spec _ _ Hpow Htop Htb) as [_ Hrange].
    apply pack_Ok in H as (_ & -> & _). cbn.
    repeat split; lia.
Qed.

(** X9.  The delta check of [expand_top_to] concerns only regions backed by
    the shared reservation: for a region on another reservation, growing to
    any new top between the top and the end succeeds; for a region on the
    shared reservation, such a growth exits the VM ("Out of memory in the
    CDS archive") exactly when the delta of the new top exceeds
    [MAX_SHARED_DELTA]; and a new top beyond the end is reported as out of
    space whatever the delta. *)
Theorem expand_top_to_delta_check (r : DumpRegion.t) (newtop : Z) :
  is_allocatable r = true -> _top r <= newtop ->
  let delta := if DynamicDumpSharedSpaces env
               then dynamic_object_delta_uintx env newtop
               else static_object_delta_uintx env newtop in
  (newtop <= _end r -> rs_addr (_rs r) <> shared_rs env ->
   expand_top_to env r newtop = Ok (newtop, with_top r newtop)) /\
  (newtop <= _end r -> rs_addr (_rs r) = shared_rs env ->
   (MAX_SHARED_DELTA env < delta ->
    expand_top_to env r newtop = Fail (VmExit "Out of memory in the CDS archive")) /\
   (delta <= MAX_SHARED_DELTA env ->
    expand_top_to env r newtop = Ok (newtop, with_top r newtop))) /\
  (_end r < newtop ->
   expand_top_to env r newtop = Fail (OutOfSpace (_name r) (to_uintx (newtop - _top r)))).
Proof.
  intros Hal Hle. cbv zeta.
  set (delta := if DynamicDumpSharedSpaces env
                then dynamic_object_delta_uintx env newtop
                else static_object_delta_uintx env newtop).
  split; [| split].
  - intros Hfit Hrs. apply expand_top_to_succeeds; [assumption | lia |].
    intros E. contradiction.
  - intros Hfit Hrs. split.
    + intros Hbig. unfold expand_top_to. rewrite Hal. cbn [assert_ bind].
      apply Z.leb_le in Hle. rewrite Hle. cbn [assert_ bind].
      apply Z.ltb_ge in Hfit. rewrite Hfit. cbn [bind].
      apply Z.eqb_eq in Hrs. rewrite Hrs. fold delta.
      apply Z.ltb_lt in Hbig. rewrite Hbig. reflexivity.
    + intros Hsmall. apply expand_top_to_succeeds; [assumption | lia |].
      intros _. exact Hsmall.
  - intros Hover. apply expand_top_to_out_of_space; assumption.
Qed.

(** X10.  [allocate] writes only inside the block it hands out: on a region
    whose top is an address (not negative), every byte below the returned
    address or at or above the new top is as before. *)
Theorem allocate_frame (r r' : DumpRegion.t) (m m' : Mem) (num_bytes p : Z) :
  0 <= _top r ->
  allocate env r m num_bytes = Ok (p, (r', m')) ->
  p <= _top r' /\
  forall a, a < p \/ _top r' <= a -> m' a = m a.
Proof.
  intros Htop H.
  apply (allocate_Ok env r r' m m' num_bytes p Htop) in H as (_ & -> & -> & _ & _). cbn.
  pose proof (align_up_nonneg num_bytes (SharedSpaceObjectAlignment env)) as Hnn.
  split; [lia|].
  intros a Ha. apply memset_outside. lia.
Qed.


(* The operations that grow a region move the top up only and write at or
   above the top they find. *)
Lemma region_steps_frame (r0 r1 : DumpRegion.t) (m0 m1 : Mem) :
  is_power_of_2 (SharedSpaceObjectAlignment env) -> 0 <= _top r0 ->
  region_steps env r0 m0 r1 m1 ->
  _top r0 <= _top r1 /\ forall a, a < _top r0 -> m1 a = m0 a.
Proof.
  intros Hpow Htop Hsteps.
  induction Hsteps as [| r1 m1 newtop t r2 _ [IHt IHm] H
                       | r1 m1 n p r2 m2 _ [IHt IHm] H
                       | r1 m1 mk n need r2 m2 mk' _ [IHt IHm] H].
  - split; [lia | reflexivity].
  - apply expand_top_to_Ok in H as (_ & Hle & _ & ->).
    cbn. split; [lia | exact IHm].
  - assert (Htop1 : 0 <= _top r1) by lia.
    destruct (allocate_Ok_aligned env r1 r2 m1 m2 n p Hpow Htop1 H) as (_ & _ & Hp).
    apply (allocate_Ok env r1 r2 m1 m2 n p Htop1) in H as (_ & -> & -> & _ & Hle & _).
    cbn. split; [lia|].
    intros a Ha. rewrite memset_outside by lia. apply IHm. exact Ha.
  - apply append_intptr_t_Ok in H as (_ & _ & _ & -> & -> & _).
    cbn. unfold wordSize. split; [lia|].
    intros a Ha. rewrite store_intptr_outside by lia. apply IHm. exact Ha.
Qed.

(** X12.  Regions laid out by [pack] do not overlap: once a region has been
    packed with a next region given, packing it again fails ("sanity"),
    the next region starts at the packed region's end, and after any
    number of successful [expand_top_to], [allocate] and [append_intptr_t]
    calls on the next region its top is not below that end, no byte below
    that end has changed, and every block then allocated from it starts at
    an aligned address at or above that end and leaves every byte below it
    untouched. *)
Theorem pack_then_allocate_next (r nx r' nx' : DumpRegion.t) :
  is_power_of_2 (SharedSpaceObjectAlignment env) ->
  pack env r (Some nx) = Ok (r', Some nx') ->
  (forall nxt, pack env r' nxt = Fail (AssertFailed "sanity")) /\
  _base nx' = _end r' /\ _top nx' = _end r' /\
  (forall m nx1 m1,
      region_steps env nx' m nx1 m1 ->
      _end r' <= _top nx1 /\
      (forall a, a < _end r' -> m1 a = m a) /\
      forall n p nx2 m2,
        allocate env nx1 m1 n = Ok (p, (nx2, m2)) ->
        _end r' <= p /\ p mod SharedSpaceObjectAlignment env = 0 /\
        forall a, a < _end r' -> m2 a = m a).
Proof.
  intros HpA H.
  apply pack_Ok in H as (_ & -> & _ & Hnx). inversion Hnx; subst nx'; clear Hnx.
  cbn [_end _base _top].
  set (e := align_up (_top r) (reserved_space_alignment env)).
  assert (He : 0 <= e) by apply align_up_nonneg.
  split; [reflexivity|]. split; [reflexivity|]. split; [reflexivity|].
  intros m nx1 m1 Hsteps.
  destruct (fun H0 => region_steps_frame _ _ _ _ HpA H0 Hsteps) as [Ht Hm];
    [exact He|].
  cbn [_top] in Ht, Hm.
  split; [exact Ht|]. split; [exact Hm|].
  intros n p nx2 m2 Halloc.
  assert (Htop1 : 0 <= _top nx1) by lia.
  destruct (allocate_Ok_aligned env nx1 nx2 m1 m2 n p HpA Htop1 Halloc) as (_ & Hmod & Hp).
  apply (allocate_Ok env nx1 nx2 m1 m2 n p Htop1) in Halloc as (_ & _ & -> & _).
  split; [lia|]. split; [exact Hmod|].
  intros a Ha. rewrite memset_outside by lia. apply Hm. exact Ha.
Qed.

End RegionFacts.

(** ** Appending and marking *)

Section AppendMark.
Import CHeapBitMap ArchivePtrMarker BitMapFacts.
Variable env : VMEnv.

(** X13.  [append_intptr_t] with [need_to_mark] stores the word first and
    marks afterwards, so the marker sees the word just written: when the
    region's top lies in the instrumented range, the bit of the slot written
    becomes set if the word is non-zero and is left as it was if the word
    is zero; every other bit is unchanged, and the word is in memory at the
    old top. *)
Theorem append_marks_non_null
    (r r' : DumpRegion.t) (m m' : Mem) (mk mk' : ArchivePtrMarker.t) (n : Z)
    (bm : CHeapBitMap.t) :
  _ptrmap mk = Some bm -> wf bm ->
  _ptr_base mk <= DumpRegion._top r < _ptr_end mk ->
  DumpRegion.append_intptr_t env r m mk n true = Ok (r', m', mk') ->
  let idx := slot_index mk (DumpRegion._top r) in
  exists bm',
    _ptrmap mk' = Some bm' /\ wf bm' /\
    at_ bm' idx = at_ bm idx || negb (to_uintx n =? 0) /\
    (forall j, j <> idx -> at_ bm' j = at_ bm j) /\
    load_address m' (DumpRegion._top r) = to_uintx n /\
    DumpRegion._top r' = DumpRegion._top r + wordSize.
Proof.
  intros Hmap Hwf Hin H. cbv zeta.
  apply append_intptr_t_Ok in H as (_ & _ & _ & -> & -> & Hmark).
  destruct (mark_pointer_bits mk mk' _ _ bm Hmap Hwf Hmark)
    as (bm' & -> & _ & Hwf' & _ & Hbits).
  assert (Hmarks : marks mk (store_intptr m (DumpRegion._top r) n) (DumpRegion._top r)
                   = negb (to_uintx n =? 0)).
  { unfold marks. rewrite (in_range_true _ _ Hin), load_address_store_intptr. reflexivity. }
  exists bm'. cbn.
  split; [reflexivity|]. split; [assumption|]. split; [| split; [| split]].
  - rewrite Hbits, Hmarks, Z.eqb_refl, andb_true_r. reflexivity.
  - intros j Hj. rewrite Hbits.
    replace (slot_index mk (DumpRegion._top r) =? j) with false
      by (symmetry; apply Z.eqb_neq; congruence).
    rewrite andb_false_r, orb_false_r. reflexivity.
  - apply load_address_store_intptr.
  - reflexivity.
Qed.

End AppendMark.

(** ** Raw regions in the archive *)

Lemma load_bytes_app (n1 : nat) : forall (n2 : nat) (m : Mem) (a : Z),
  load_bytes m a (n1 + n2) = load_bytes m a n1 ++ load_bytes m (a + Z.of_nat n1) n2.
Proof.
  induction n1 as [| n1 IH]; intros n2 m a.
  - cbn [Nat.add load_bytes app]. f_equal. lia.
  - cbn [Nat.add load_bytes app]. f_equal. rewrite IH. do 2 f_equal. lia.
Qed.

Lemma load_bytes_length (n : nat) : forall (m : Mem) (a : Z),
  List.length (load_bytes m a n) = n.
Proof.
  induction n as [| n IH]; intros m a; cbn [load_bytes List.length];
    [reflexivity | rewrite IH; reflexivity].
Qed.

Lemma load_intptr_chunk (m : Mem) (a : Z) :
  le_split 8 (load_intptr m a) = load_bytes m a 8.
Proof.
  unfold load_intptr, load_address. apply le_split_chunk. apply load_bytes_length.
Qed.

(* A word that holds the 8 bytes [bs] is stored as these bytes. *)
Lemma load_bytes_of_word (m : Mem) (a : Z) (bs : list byte) :
  List.length bs = 8%nat ->
  load_intptr m a = to_intptr (le_combine bs) ->
  load_bytes m a 8 = bs.
Proof.
  intros Hlen Hw. rewrite <- load_intptr_chunk, Hw. apply le_split_chunk. assumption.
Qed.

Lemma words_at_bytes (words : nat) : forall (buf : list byte) (m : Mem) (a : Z),
  List.length buf = (8 * words)%nat ->
  words_at m a (buf_words words buf) ->
  load_bytes m a (8 * words) = buf.
Proof.
  induction words as [| k IH]; intros buf m a Hlen Hw.
  - destruct buf; [reflexivity | discriminate].
  - cbn [buf_words words_at] in Hw. destruct Hw as [Hw Hrest].
    replace (8 * S k)%nat with (8 + 8 * k)%nat by lia.
    rewrite load_bytes_app.
    rewrite (load_bytes_of_word m a (firstn 8 buf)); [| rewrite length_firstn; lia | assumption].
    change (Z.of_nat 8) with wordSize.
    rewrite (IH (skipn 8 buf)); [apply firstn_skipn | rewrite length_skipn; lia | assumption].
Qed.

Lemma read_region_loop_bytes (words : nat) : forall (m : Mem) (a : Z),
  ReadClosure.do_region_loop m words (ReadClosure.mk a)
  = (load_bytes m a (8 * words), ReadClosure.mk (a + wordSize * Z.of_nat words)).
Proof.
  induction words as [| k IH]; intros m a.
  - cbn. do 2 f_equal. lia.
  - cbn [ReadClosure.do_region_loop ReadClosure.nextPtr ReadClosure._ptr_array].
    rewrite IH, load_intptr_chunk.
    replace (8 * S k)%nat with (8 + 8 * k)%nat by lia.
    rewrite load_bytes_app. change (Z.of_nat 8) with wordSize.
    do 2 f_equal. lia.
Qed.

Section RawRegions.
Import DumpRegion.
Variable denv : VMEnv.

Lemma do_region_tag_word (start : Z) (buf : list byte) (s s' : DumpState) :
  WriteClosure.do_region denv start buf s = Ok s' ->
  load_intptr (ds_mem s') (_top (ds_region s)) = to_int (Z.of_nat (List.length buf)).
Proof.
  intros H.
  destruct (write_field_Ok denv (F_region start buf) s s' H) as (_ & Hw & _).
  cbn [field_words words_at] in Hw. destruct Hw as [Htag _].
  rewrite Htag. apply to_intptr_id.
  pose proof (to_int_range (Z.of_nat (List.length buf))). int_lia.
Qed.

(** X14.  The archive layout of a raw region: when the writer's [do_region]
    returns, the top has advanced by one word plus the size of the buffer,
    the word at the old top is the size (as an int), the bytes after it are
    the bytes of the buffer, verbatim and in order, and no byte below the
    old top has changed. *)
Theorem do_region_archive_layout (start : Z) (buf : list byte) (s s' : DumpState) :
  WriteClosure.do_region denv start buf s = Ok s' ->
  let top := _top (ds_region s) in
  let size := Z.of_nat (List.length buf) in
  size mod wordSize = 0 /\
  _top (ds_region s') = top + wordSize + size /\
  load_intptr (ds_mem s') top = to_int size /\
  load_bytes (ds_mem s') (top + wordSize) (List.length buf) = buf /\
  (forall x, x < top -> ds_mem s' x = ds_mem s x).
Proof.
  intros H. cbv zeta.
  assert (Hreg := write_field_region_ok denv (F_region start buf) s s' H).
  destruct Hreg as [_ Hsize].
  destruct (write_field_Ok denv (F_region start buf) s s' H) as (Htop & Hw & Hframe).
  cbn [field_words words_at List.length] in Htop, Hw.
  destruct Hw as [Htag Hw].
  rewrite length_buf_words in Htop.
  pose proof (region_length buf Hsize) as Hlen.
  split; [assumption|]. split; [| split; [| split; [| assumption]]].
  - rewrite Htop. unfold wordSize in *. lia.
  - rewrite Htag. apply to_intptr_id.
    pose proof (to_int_range (Z.of_nat (List.length buf))). int_lia.
  - rewrite Hlen at 1. apply words_at_bytes; assumption.
Qed.

(** X15.  The reader's [do_region] copies memory verbatim: with an aligned
    destination and a size that is a multiple of the word size, it returns
    exactly when the word under the cursor, as an int, equals the size as
    an int; the buffer is then given the [size] bytes that follow that word
    and the cursor ends after them.  Otherwise it fails on the tag
    assertion. *)
Theorem read_region_verbatim (m : Mem) (start size : Z) (rc : ReadClosure.t) :
  to_intptr start mod wordSize = 0 -> 0 <= size -> size mod wordSize = 0 ->
  let cursor := ReadClosure._ptr_array rc in
  (to_int (load_intptr m cursor) = to_int size ->
   ReadClosure.do_region m start size rc
   = Ok (load_bytes m (cursor + wordSize) (Z.to_nat size),
         ReadClosure.mk (cursor + wordSize + size))) /\
  (to_int (load_intptr m cursor) <> to_int size ->
   ReadClosure.do_region m start size rc = Fail (AssertFailed "old tag doesn't match")).
Proof.
  intros Hstart Hnn Hsize. cbv zeta.
  unfold ReadClosure.do_region, ReadClosure.do_tag, ReadClosure.nextPtr.
  apply Z.eqb_eq in Hstart. rewrite Hstart.
  assert (Hsize' := Hsize). apply Z.eqb_eq in Hsize'. rewrite Hsize'.
  cbn [assert_ bind ReadClosure._ptr_array].
  split.
  - intros Htag. rewrite <- Htag, Z.eqb_refl. cbn [assert_ bind].
    rewrite read_region_loop_bytes. do 2 f_equal.
    + f_equal. unfold wordSize in *.
      pose proof (Z.div_mod size 8 ltac:(lia)). lia.
    + f_equal. unfold wordSize in *.
      pose proof (Z.div_mod size 8 ltac:(lia)). lia.
  - intros Htag.
    replace (to_int size =? to_int (load_intptr m (ReadClosure._ptr_array rc))) with false
      by (symmetry; apply Z.eqb_neq; congruence).
    reflexivity.
Qed.

(** X16.  A size mismatch is detected: after the writer's [do_region] on a
    buffer shorter than 2^31 bytes, a reader's [do_region] at the same
    place that asks for a different size (also below 2^31) fails. *)
Theorem region_size_mismatch_detected
    (start start' size' : Z) (buf : list byte) (s s' : DumpState) :
  WriteClosure.do_region denv start buf s = Ok s' ->
  Z.of_nat (List.length buf) < 2 ^ 31 ->
  0 <= size' < 2 ^ 31 -> size' <> Z.of_nat (List.length buf) ->
  is_ok (ReadClosure.do_region (ds_mem s') start' size'
                               (ReadClosure.mk (_top (ds_region s)))) = false.
Proof.
  intros H Hlen Hsize' Hne.
  pose proof (do_region_tag_word start buf s s' H) as Htag.
  unfold ReadClosure.do_region, ReadClosure.do_tag, ReadClosure.nextPtr.
  destruct (assert_ (to_intptr start' mod wordSize =? 0) _); [| reflexivity].
  destruct (assert_ (size' mod wordSize =? 0) _); [| reflexivity].
  cbn [bind ReadClosure._ptr_array]. rewrite Htag.
  assert (Hto : forall z, 0 <= z < 2 ^ 31 -> to_int z = z)
    by (intros z Hz; unfold to_int; rewrite Z.mod_small; int_lia).
  rewrite (Hto (Z.of_nat (List.length buf))) by lia.
  rewrite !Hto by lia.
  replace (size' =? Z.of_nat (List.length buf)) with false
    by (symmetry; apply Z.eqb_neq; assumption).
  reflexivity.
Qed.

(** X17.  The guard of [ReadClosure::do_ptr] does not catch the tag of a
    raw region: after the writer's [do_region] on a buffer shorter than
    2^31 bytes, [do_ptr] on a null destination at the place of the tag
    returns the size of the region as the pointer. *)
Theorem do_ptr_accepts_region_tag (start : Z) (buf : list byte) (s s' : DumpState) :
  WriteClosure.do_region denv start buf s = Ok s' ->
  Z.of_nat (List.length buf) < 2 ^ 31 ->
  ReadClosure.do_ptr (ds_mem s') 0 (ReadClosure.mk (_top (ds_region s)))
  = Ok (Z.of_nat (List.length buf), ReadClosure.mk (_top (ds_region s) + wordSize)).
Proof.
  intros H Hlen.
  pose proof (do_region_tag_word start buf s s' H) as Htag.
  unfold ReadClosure.do_ptr, ReadClosure.nextPtr. cbn [Z.eqb assert_ bind ReadClosure._ptr_array].
  rewrite Htag.
  assert (Hto : to_int (Z.of_nat (List.length buf)) = Z.of_nat (List.length buf))
    by (unfold to_int; rewrite Z.mod_small; int_lia).
  rewrite Hto.
  replace (0 <=? Z.of_nat (List.length buf)) with true by (symmetry; apply Z.leb_le; lia).
  reflexivity.
Qed.

End RawRegions.

(** ** Raw regions and the marker *)

Lemma word_marked_nil (idx0 j : Z) : word_marked [] idx0 j = false.
Proof.
  unfold word_marked. cbn [List.length].
  destruct (Z.leb_spec idx0 j), (Z.ltb_spec j (idx0 + Z.of_nat 0)); cbn; auto; lia.
Qed.

Lemma word_marked_cons (w : Z) (ws : list Z) (idx0 j : Z) :
  word_marked (w :: ws) idx0 j
  = (negb (to_uintx w =? 0) && (idx0 =? j)) || word_marked ws (idx0 + 1) j.
Proof.
  unfold word_marked. cbn [List.length].
  destruct (Z.eqb_spec idx0 j) as [<- | Hne].
  - rewrite Z.leb_refl, Z.sub_diag. cbn [Z.to_nat nth].
    replace (idx0 <? idx0 + Z.of_nat (S (List.length ws))) with true
      by (symmetry; apply Z.ltb_lt; lia).
    replace (idx0 + 1 <=? idx0) with false by (symmetry; apply Z.leb_gt; lia).
    cbn [andb]. rewrite andb_true_r, orb_false_r. reflexivity.
  - rewrite andb_false_r. cbn [orb].
    destruct (Z.leb_spec idx0 j) as [Hle | Hlt].
    + replace (idx0 + 1 <=? j) with true by (symmetry; apply Z.leb_le; lia).
      replace (j <? idx0 + 1 + Z.of_nat (List.length ws))
        with (j <? idx0 + Z.of_nat (S (List.length ws)))
        by (f_equal; lia).
      replace (Z.to_nat (j - idx0)) with (S (Z.to_nat (j - (idx0 + 1)))) by lia.
      reflexivity.
    + replace (idx0 + 1 <=? j) with false by (symmetry; apply Z.leb_gt; lia).
      reflexivity.
Qed.

Section RegionMarks.
Import CHeapBitMap ArchivePtrMarker BitMapFacts.
Variable denv : VMEnv.

Lemma slot_index_next (st st1 : ArchivePtrMarker.t) (a : Z) :
  _ptr_base st1 = _ptr_base st ->
  slot_index st1 (a + wordSize) = slot_index st a + 1.
Proof.
  intros Hb. unfold slot_index, wordSize. rewrite Hb.
  replace (a + 8 - _ptr_base st) with (a - _ptr_base st + 1 * 8) by lia.
  apply Z.div_add. lia.
Qed.

Lemma do_region_loop_marks (words : nat) :
  forall (buf : list byte) (s s' : DumpState) (bm : CHeapBitMap.t),
    _ptrmap (ds_marker s) = Some bm -> wf bm ->
    _ptr_base (ds_marker s) <= DumpRegion._top (ds_region s) ->
    DumpRegion._top (ds_region s) + wordSize * Z.of_nat words <= _ptr_end (ds_marker s) ->
    WriteClosure.do_region_loop denv words buf s = Ok s' ->
    exists bm',
      _ptrmap (ds_marker s') = Some bm' /\ wf bm' /\
      _ptr_base (ds_marker s') = _ptr_base (ds_marker s) /\
      _ptr_end (ds_marker s') = _ptr_end (ds_marker s) /\
      forall j, at_ bm' j
                = at_ bm j
                  || word_marked (buf_words words buf)
                       (slot_index (ds_marker s) (DumpRegion._top (ds_region s))) j.
Proof.
  induction words as [| k IH]; intros buf s s' bm Hmap Hwf Hlo Hhi H.
  - cbn in H. inversion H; subst s'. exists bm.
    repeat (split; [assumption || reflexivity|]).
    intros j. cbn [buf_words]. rewrite word_marked_nil, orb_false_r. reflexivity.
  - cbn [WriteClosure.do_region_loop] in H. inv_ok H. rename a into s1.
    unfold WriteClosure.append in Ha. inv_ok Ha. destruct a as [[r1 m1] mk1].
    inversion Ha; subst s1; clear Ha.
    set (w := to_intptr (le_combine (firstn 8 buf))) in *.
    pose proof Ha0 as Happ.
    apply append_intptr_t_Ok in Happ as (_ & _ & _ & Hr1 & Hm1 & Hmark).
    destruct (mark_pointer_bits _ _ _ _ bm Hmap Hwf Hmark)
      as (bm1 & Hmk1 & _ & Hwf1 & _ & Hbits1).
    assert (Hin : _ptr_base (ds_marker s) <= DumpRegion._top (ds_region s)
                  < _ptr_end (ds_marker s)) by (unfold wordSize in *; lia).
    assert (Hmarks : marks (ds_marker s) m1 (DumpRegion._top (ds_region s))
                     = negb (to_uintx w =? 0)).
    { unfold marks. rewrite (in_range_true _ _ Hin). subst m1.
      rewrite load_address_store_intptr. reflexivity. }
    destruct (IH (skipn 8 buf) (mkDS r1 m1 mk1) s' bm1) as (bm' & Hmap' & Hwf' & Hb' & He' & Hbits');
      try assumption.
    + subst mk1. reflexivity.
    + subst mk1 r1.
      cbn [DumpRegion._top DumpRegion.with_top ds_region ds_marker _ptr_end _ptr_base].
      unfold wordSize in *. lia.
    + subst mk1 r1.
      cbn [DumpRegion._top DumpRegion.with_top ds_region ds_marker _ptr_end _ptr_base].
      unfold wordSize in *. lia.
    + exists bm'. split; [assumption|]. split; [assumption|].
      split; [rewrite Hb'; subst mk1; reflexivity|].
      split; [rewrite He'; subst mk1; reflexivity|].
      intros j. rewrite Hbits', Hbits1, Hmarks.
      cbn [buf_words ds_marker ds_region]. fold w.
      rewrite word_marked_cons.
      replace (slot_index mk1 (DumpRegion._top r1))
        with (slot_index (ds_marker s) (DumpRegion._top (ds_region s)) + 1).
      * rewrite orb_assoc. reflexivity.
      * subst r1. cbn. symmetry. apply slot_index_next. subst mk1. reflexivity.
Qed.

(** X18.  The writer's [do_region] registers exactly the non-zero words of
    the region: when the words written (the tag and the data) lie in the
    instrumented range, the bitmap after a successful [do_region] has, on
    top of the bits set before, the bit of every data word that is not zero
    (data word [i] is at slot [index of the old top + 1 + i]); the tag and
    the zero words are not marked, and the marker's range is unchanged. *)
Theorem do_region_marks_non_zero_words
    (start : Z) (buf : list byte) (s s' : DumpState) (bm : CHeapBitMap.t) :
  _ptrmap (ds_marker s) = Some bm -> wf bm ->
  _ptr_base (ds_marker s) <= DumpRegion._top (ds_region s) ->
  DumpRegion._top (ds_region s) + wordSize + Z.of_nat (List.length buf)
  <= _ptr_end (ds_marker s) ->
  WriteClosure.do_region denv start buf s = Ok s' ->
  let words := Z.to_nat (Z.of_nat (List.length buf) / wordSize) in
  let idx0 := slot_index (ds_marker s) (DumpRegion._top (ds_region s)) in
  exists bm',
    _ptrmap (ds_marker s') = Some bm' /\ wf bm' /\
    _ptr_base (ds_marker s') = _ptr_base (ds_marker s) /\
    _ptr_end (ds_marker s') = _ptr_end (ds_marker s) /\
    forall j, at_ bm' j = at_ bm j || word_marked (buf_words words buf) (idx0 + 1) j.
Proof.
  intros Hmap Hwf Hlo Hhi H. cbv zeta.
  unfold WriteClosure.do_region in H. inv_ok H. rename a1 into s1.
  apply Z.eqb_eq in Ha0.
  unfold WriteClosure.do_tag, DumpRegion.need_to_mark_default in Ha1.
  apply append_unmarked_Ok in Ha1 as (_ & Hr1 & _ & _ & Hmk1).
  pose proof (region_length buf Ha0) as Hlen.
  destruct (do_region_loop_marks (Z.to_nat (Z.of_nat (List.length buf) / wordSize))
              buf s1 s' bm) as (bm' & Hmap' & Hwf' & Hb' & He' & Hbits');
    try assumption.
  - rewrite Hmk1. assumption.
  - rewrite Hmk1, Hr1. cbn [DumpRegion._top DumpRegion.with_top].
    unfold wordSize in *. lia.
  - rewrite Hmk1, Hr1. cbn [DumpRegion._top DumpRegion.with_top].
    unfold wordSize in *. lia.
  - exists bm'. rewrite Hmk1 in Hb', He', Hbits'.
    split; [assumption|]. split; [assumption|]. split; [assumption|]. split; [assumption|].
    intros j. rewrite Hbits'. rewrite Hr1. cbn [DumpRegion._top DumpRegion.with_top].
    rewrite (slot_index_next (ds_marker s) (ds_marker s)) by reflexivity.
    reflexivity.
Qed.

End RegionMarks.

(** ** Scalars *)

(** X19.  The reader narrows without validating: for any word under the
    cursor, [do_u4] returns its low 32 bits (a value in [[0, 2^32)]
    congruent to the word modulo 2^32), and [do_bool] returns true exactly
    when the word is not zero, whichever of its bits are set; both advance
    the cursor by one word. *)
Theorem reader_scalars_narrow (m : Mem) (rc : ReadClosure.t) :
  let w := load_intptr m (ReadClosure._ptr_array rc) in
  let rc' := ReadClosure.mk (ReadClosure._ptr_array rc + wordSize) in
  (exists v, ReadClosure.do_u4 m rc = (v, rc') /\ 0 <= v < 2 ^ 32 /\ v = w mod 2 ^ 32) /\
  ReadClosure.do_bool m rc = (negb (w =? 0), rc').
Proof.
  cbv zeta. unfold ReadClosure.do_u4, ReadClosure.do_bool, ReadClosure.nextPtr.
  set (w := load_intptr m (ReadClosure._ptr_array rc)).
  assert (Hw : is_intptr w) by apply to_intptr_range.
  split.
  - eexists. split; [reflexivity|]. unfold to_u4, to_uintx. split.
    + apply Z.mod_pos_bound. reflexivity.
    + apply Z.mod_mod_divide. exists (2 ^ 32). reflexivity.
  - f_equal. unfold to_bool, to_uintx. f_equal.
    destruct (Z.eqb_spec w 0) as [-> | Hnz]; [reflexivity|].
    apply Z.eqb_neq. intros Hz.
    apply Z.mod_divide in Hz; [| int_lia]. destruct Hz as [q Hq].
    int_lia.
Qed.

(** ** References, and the order of marking *)

(** X20.  A reference round-trips in value when the heap subsystem's decode
    inverts its encode: if the writer's [do_oop] returns on a reference
    (null, or one that encodes to a non-zero 32-bit value), then the
    reader's [do_oop] at the same place, with the open archive heap region
    mapped and archiving allowed, stores null for null and the decoded
    value, equal to the reference written, otherwise; the destination's old
    value plays no part. *)
Theorem reference_round_trip (denv lenv : VMEnv) (o : Z) (s s' : DumpState) :
  WriteClosure.do_oop denv o s = Ok s' ->
  (o <> 0 -> 0 < encode_not_null denv o < 2 ^ 32) ->
  (forall n, 0 <= n < 2 ^ 32 -> narrow_oop_cast lenv n = Ok n) ->
  open_archive_heap_region_mapped lenv = true ->
  is_heap_object_archiving_allowed lenv = true ->
  (o <> 0 -> decode_from_archive lenv (encode_not_null denv o) = o) ->
  forall old_p,
    ReadClosure.do_oop lenv (ds_mem s') old_p
                       (ReadClosure.mk (DumpRegion._top (ds_region s)))
    = Ok (o, ReadClosure.mk (DumpRegion._top (ds_region s) + wordSize)).
Proof.
  intros H Henc Hcast Hmapped Hallowed Hdec old_p.
  destruct (write_field_Ok denv (F_oop o) s s' H) as (_ & Hw & _).
  cbn [field_words words_at] in Hw. destruct Hw as [Hw _].
  unfold ReadClosure.do_oop, ReadClosure.nextPtr. cbn [ReadClosure._ptr_array].
  rewrite Hw, Hmapped, Hallowed.
  destruct (Z.eqb_spec o 0) as [-> | Hnz].
  - rewrite Hcast by int_lia. reflexivity.
  - specialize (Henc Hnz). rewrite to_intptr_id by int_lia.
    rewrite Hcast by lia. cbn [bind].
    replace (is_null (encode_not_null denv o)) with false
      by (symmetry; apply Z.eqb_neq; lia).
    cbn [negb orb assert_ bind]. rewrite (Hdec Hnz). reflexivity.
Qed.

Section MarkOrder.
Import CHeapBitMap ArchivePtrMarker BitMapFacts.

(** X21.  The order of marking does not matter for the bits: if marking
    slot [a] and then slot [b] succeeds on a well-formed bitmap, so does
    marking [b] and then [a] (on the same memory), and the two resulting
    bitmaps have the same bits set (their sizes may differ, as the bitmap
    is resized to twice the index that did not fit). *)
Theorem mark_pointer_order_irrelevant
    (st st1 st2 : ArchivePtrMarker.t) (m : Mem) (a b : Z) (bm : CHeapBitMap.t) :
  _ptrmap st = Some bm -> wf bm ->
  mark_pointer st m a = Ok st1 -> mark_pointer st1 m b = Ok st2 ->
  exists st1' st2' bm2 bm2',
    mark_pointer st m b = Ok st1' /\ mark_pointer st1' m a = Ok st2' /\
    _ptrmap st2 = Some bm2 /\ _ptrmap st2' = Some bm2' /\
    forall j, at_ bm2' j = at_ bm2 j.
Proof.
  intros Hmap Hwf Ha Hb.
  assert (Hoka : is_ok (mark_pointer st m a) = true) by (rewrite Ha; reflexivity).
  apply mark_pointer_ok_markable in Hoka as (_ & Hc & Hmka).
  destruct (mark_pointer_bits st st1 m a bm Hmap Hwf Ha)
    as (bm1 & -> & _ & Hwf1 & _ & Hbits1).
  assert (Hokb : is_ok (mark_pointer
                          (ArchivePtrMarker.mk (Some bm1) (_ptr_base st) (_ptr_end st) false)
                          m b) = true) by (rewrite Hb; reflexivity).
  apply mark_pointer_ok_markable in Hokb as (_ & _ & Hmkb).
  change (markable st m b = true) in Hmkb.
  destruct (mark_pointer_bits
              (ArchivePtrMarker.mk (Some bm1) (_ptr_base st) (_ptr_end st) false)
              st2 m b bm1 eq_refl Hwf1 Hb)
    as (bm2 & -> & _ & Hwf2 & _ & Hbits2).
  (* the other order *)
  destruct (mark_pointer st m b) as [st1' | e] eqn:Hb';
    [| rewrite (mark_pointer_eq st m b bm Hmap Hc Hmkb) in Hb'; discriminate Hb'].
  destruct (mark_pointer_bits st st1' m b bm Hmap Hwf Hb')
    as (bm1' & -> & _ & Hwf1' & _ & Hbits1').
  set (st1' := ArchivePtrMarker.mk (Some bm1') (_ptr_base st) (_ptr_end st) false).
  destruct (mark_pointer st1' m a) as [st2' | e] eqn:Ha';
    [| rewrite (mark_pointer_eq st1' m a bm1' eq_refl eq_refl Hmka) in Ha';
       discriminate Ha'].
  destruct (mark_pointer_bits st1' st2' m a bm1' eq_refl Hwf1' Ha')
    as (bm2' & -> & _ & _ & _ & Hbits2').
  exists st1', (ArchivePtrMarker.mk (Some bm2') (_ptr_base st1') (_ptr_end st1') false),
         bm2, bm2'.
  split; [reflexivity|]. split; [exact Ha'|]. split; [reflexivity|]. split; [reflexivity|].
  intros j. rewrite Hbits2', Hbits1', Hbits2, Hbits1.
  change (marks st1' m a) with (marks st m a).
  change (slot_index st1' a) with (slot_index st a).
  change (marks (ArchivePtrMarker.mk (Some bm1) (_ptr_base st) (_ptr_end st) false) m b)
    with (marks st m b).
  change (slot_index (ArchivePtrMarker.mk (Some bm1) (_ptr_base st) (_ptr_end st) false) b)
    with (slot_index st b).
  rewrite <- !orb_assoc. f_equal. apply orb_comm.
Qed.

End MarkOrder.

(** ** The properties above at concrete inputs *)

Lemma sample_marker_wf (bits : Z) : 0 <= bits -> CHeapBitMap.wf (CHeapBitMap.initialize bits).
Proof. apply BitMapFacts.wf_initialize. Qed.

Lemma mark_pointer_ok_iff_witness :
  is_ok (ArchivePtrMarker.mark_pointer (sample_marker 16) sample_mem (65536 + 8 * 5)) = true /\
  is_ok (ArchivePtrMarker.mark_pointer (sample_marker 16) sample_mem (65536 + 8 * 7 + 1))
  = true /\
  markable (sample_marker 16)
           (store_intptr zero_mem (65536 + 8 * 5 + 1) 77) (65536 + 8 * 5 + 1) = false.
Proof.
  split; [| split].
  - apply (proj1 (mark_pointer_ok_iff (sample_marker 16) sample_mem (65536 + 8 * 5))).
    split; [eexists; reflexivity|]. split; reflexivity.
  - apply (proj1 (mark_pointer_ok_iff (sample_marker 16) sample_mem (65536 + 8 * 7 + 1))).
    split; [eexists; reflexivity|]. split; reflexivity.
  - reflexivity.
Defined.

Lemma mark_pointer_only_adds_witness :
  exists st' bm',
    ArchivePtrMarker.mark_pointer (sample_marker 16) sample_mem (65536 + 8 * 5) = Ok st' /\
    ArchivePtrMarker._ptrmap st' = Some bm' /\
    CHeapBitMap.at_ bm' 5 = true /\ 16 <= CHeapBitMap.size bm'.
Proof.
  destruct (ArchivePtrMarker.mark_pointer (sample_marker 16) sample_mem (65536 + 8 * 5))
    as [st' | e] eqn:H; [| vm_compute in H; discriminate H].
  destruct (mark_pointer_only_adds (sample_marker 16) st' sample_mem (65536 + 8 * 5)
              (CHeapBitMap.initialize 16) eq_refl (sample_marker_wf 16 ltac:(lia)) H)
    as (bm' & Hmap & _ & _ & _ & _ & Hsz & _ & _ & Hbit).
  exists st', bm'. split; [reflexivity|]. split; [exact Hmap|].
  split; [exact Hbit | exact Hsz].
Defined.

Lemma mark_pointer_idempotent_witness :
  exists st',
    ArchivePtrMarker.mark_pointer (sample_marker 2) sample_mem (65536 + 8 * 5) = Ok st' /\
    ArchivePtrMarker.mark_pointer st' sample_mem (65536 + 8 * 5) = Ok st'.
Proof.
  destruct (ArchivePtrMarker.mark_pointer (sample_marker 2) sample_mem (65536 + 8 * 5))
    as [st' | e] eqn:H; [| vm_compute in H; discriminate H].
  exists st'. split; [reflexivity|].
  exact (mark_pointer_idempotent (sample_marker 2) st' sample_mem (65536 + 8 * 5)
           (CHeapBitMap.initialize 2) eq_refl (sample_marker_wf 2 ltac:(lia)) H).
Defined.

Lemma clear_pointer_spec_witness :
  is_ok (ArchivePtrMarker.clear_pointer (sample_marker 16) (65536 + 8 * 5)) = true /\
  (is_ok (ArchivePtrMarker.clear_pointer (sample_marker 16) (65536 + 8 * 20)) = true ->
   20 < 16).
Proof.
  destruct (clear_pointer_spec (sample_marker 16) (65536 + 8 * 5)
              (CHeapBitMap.initialize 16) eq_refl) as [Hiff _].
  destruct (clear_pointer_spec (sample_marker 16) (65536 + 8 * 20)
              (CHeapBitMap.initialize 16) eq_refl) as [Hiff' _].
  split.
  - apply Hiff. vm_compute. repeat split; congruence.
  - intros H. apply Hiff' in H. apply H.
Defined.

Lemma clear_after_mark_witness :
  exists st1 st2 bm2,
    ArchivePtrMarker.mark_pointer (sample_marker 2) sample_mem (65536 + 8 * 5) = Ok st1 /\
    ArchivePtrMarker.clear_pointer st1 (65536 + 8 * 5) = Ok st2 /\
    ArchivePtrMarker._ptrmap st2 = Some bm2 /\
    forall j, CHeapBitMap.at_ bm2 j = false.
Proof.
  destruct (ArchivePtrMarker.mark_pointer (sample_marker 2) sample_mem (65536 + 8 * 5))
    as [st1 | e] eqn:H; [| vm_compute in H; discriminate H].
  destruct (clear_after_mark (sample_marker 2) st1 sample_mem (65536 + 8 * 5)
              (CHeapBitMap.initialize 2) eq_refl (sample_marker_wf 2 ltac:(lia)) H eq_refl)
    as (st2 & bm2 & Hclear & Hmap & _ & Hbits).
  exists st1, st2, bm2. split; [reflexivity|]. split; [exact Hclear|].
  split; [exact Hmap|].
  intros j. rewrite Hbits. unfold CHeapBitMap.at_, CHeapBitMap.initialize; cbn.
  rewrite Z.bits_0. reflexivity.
Defined.

Lemma initialize_once_witness :
  exists st',
    ArchivePtrMarker.initialize sample_env ArchivePtrMarker.uninitialized
      (CHeapBitMap.mk 0 0) 65536 (65536 + 8192) = Ok st' /\
    ArchivePtrMarker.initialize sample_env st' (CHeapBitMap.mk 0 0) 65536 (65536 + 8192)
    = Fail (AssertFailed "initialize only once").
Proof.
  destruct (proj1 (initialize_once sample_env ArchivePtrMarker.uninitialized
                     (CHeapBitMap.mk 0 0) 65536 (65536 + 8192)) eq_refl)
    as (bm & Hrun & _ & _ & _ & Hagain).
  eexists. split; [exact Hrun | apply Hagain].
Defined.

Lemma compact_result_relocatable_witness :
  let bm := CHeapBitMap.set_bit (CHeapBitMap.set_bit (CHeapBitMap.initialize 1024) 5) 900 in
  let st := ArchivePtrMarker.mk (Some bm) 65536 (65536 + 8 * 1024) false in
  exists st' bm',
    ArchivePtrMarker.compact st sample_mem 65536 (65536 + 8 * 1024) = Ok st' /\
    ArchivePtrMarker._ptrmap st' = Some bm' /\
    forall i, CHeapBitMap.at_ bm' i = true ->
      ArchivePtrMarker.slot_value sample_mem 65536 i <> 0.
Proof.
  intros bm st.
  assert (Hwf : CHeapBitMap.wf bm).
  { apply BitMapFacts.wf_set_bit;
      [apply BitMapFacts.wf_set_bit; [apply BitMapFacts.wf_initialize; lia | simpl; lia]
      | simpl; lia]. }
  destruct (ArchivePtrMarker.compact st sample_mem 65536 (65536 + 8 * 1024))
    as [st' | e] eqn:H; [| vm_compute in H; discriminate H].
  destruct (compact_result_relocatable st st' sample_mem 65536 (65536 + 8 * 1024) bm
              eq_refl Hwf H) as (bm' & Hmap & _ & _ & Hbits).
  exists st', bm'. split; [reflexivity|]. split; [exact Hmap|].
  intros i Hi. apply (Hbits i Hi).
Defined.

Lemma sample_region_inv : region_inv sample_region.
Proof. unfold region_inv. vm_compute. split; congruence. Qed.

Lemma region_cursors_stay_ordered_witness :
  region_inv sample_region /\
  forall m n p r' m',
    DumpRegion.allocate sample_env sample_region m n = Ok (p, (r', m')) ->
    region_inv r' /\ DumpRegion._top sample_region <= DumpRegion._top r'.
Proof.
  split; [exact sample_region_inv|].
  intros m n p r' m' H.
  destruct (proj1 (proj2 (region_cursors_stay_ordered sample_env sample_region
                            sample_region_inv)) m n p r' m' H) as (Hinv & Htop & _).
  split; assumption.
Defined.

Lemma expand_top_to_delta_check_witness :
  DumpRegion.expand_top_to sample_env small_region (4096 + 8)
  = Ok (4096 + 8, DumpRegion.with_top small_region (4096 + 8)) /\
  DumpRegion.expand_top_to sample_env
    (DumpRegion.init (fresh_region "ro") (mkRS 256 (2 ^ 33) (2 ^ 34)) 512) (2 ^ 33 + 8)
  = Fail (VmExit "Out of memory in the CDS archive").
Proof.
  split.
  - refine (proj1 (expand_top_to_delta_check sample_env small_region (4096 + 8) _ _) _ _);
      vm_compute; congruence.
  - refine (proj1 (proj1 (proj2 (expand_top_to_delta_check sample_env
               (DumpRegion.init (fresh_region "ro") (mkRS 256 (2 ^ 33) (2 ^ 34)) 512)
               (2 ^ 33 + 8) _ _)) _ _) _);
      vm_compute; congruence.
Defined.

Lemma allocate_frame_witness :
  exists p r' m',
    DumpRegion.allocate sample_env (DumpRegion.with_top sample_region (65536 + 3))
                        sample_mem 10 = Ok (p, (r', m')) /\
    forall a, a < p \/ DumpRegion._top r' <= a -> m' a = sample_mem a.
Proof.
  destruct (DumpRegion.allocate sample_env (DumpRegion.with_top sample_region (65536 + 3))
                                sample_mem 10) as [[p [r' m']] | e] eqn:H;
    [| vm_compute in H; discriminate H].
  exists p, r', m'. split; [reflexivity|].
  assert (Htop : 0 <= DumpRegion._top (DumpRegion.with_top sample_region (65536 + 3)))
    by (vm_compute; congruence).
  exact (proj2 (allocate_frame sample_env _ r' sample_mem m' 10 p Htop H)).
Defined.


(* The "rw" region packed at 65636, the "ro" region placed after it, then
   24 and 10 bytes allocated from "ro" in a memory in which no byte is
   zero. *)
Lemma pack_then_allocate_next_witness :
  let r := DumpRegion.with_top sample_region (65536 + 100) in
  exists r' nx' p1 nx1 m1 p2 nx2 m2,
    DumpRegion.pack sample_env r (Some (fresh_region "ro")) = Ok (r', Some nx') /\
    DumpRegion.pack sample_env r' None = Fail (AssertFailed "sanity") /\
    DumpRegion.allocate sample_env nx' ff_mem 24 = Ok (p1, (nx1, m1)) /\
    DumpRegion.allocate sample_env nx1 m1 10 = Ok (p2, (nx2, m2)) /\
    DumpRegion._end r' <= p2 /\ p2 mod 8 = 0 /\
    forall a, a < DumpRegion._end r' -> m2 a = Byte.xff.
Proof.
  intros r.
  destruct (DumpRegion.pack sample_env r (Some (fresh_region "ro")))
    as [[r' [nx' |]] | e] eqn:H;
    [| vm_compute in H; discriminate H | vm_compute in H; discriminate H].
  destruct (pack_then_allocate_next sample_env r (fresh_region "ro") r' nx'
              sample_alignment H) as (Hagain & _ & _ & Hlater).
  assert (E : r' = DumpRegion.mk "rw" 65536 (65536 + 100) (65536 + 4096) true sample_rs 512
              /\ nx' = DumpRegion.mk "ro" (65536 + 4096) (65536 + 4096) (65536 + 1048576)
                                     false sample_rs 512).
  { vm_compute in H. inversion H. split; reflexivity. }
  destruct E as [Er Enx].
  destruct (DumpRegion.allocate sample_env nx' ff_mem 24) as [[p1 [nx1 m1]] | e] eqn:H1;
    [| exfalso; rewrite Enx in H1; vm_compute in H1; discriminate H1].
  assert (E1 : nx1 = DumpRegion.with_top nx' (65536 + 4096 + 24)).
  { rewrite Enx in H1 |- *. vm_compute in H1. inversion H1. reflexivity. }
  destruct (DumpRegion.allocate sample_env nx1 m1 10) as [[p2 [nx2 m2]] | e] eqn:H2;
    [| exfalso; rewrite E1, Enx in H2; unfold DumpRegion.allocate in H2;
       vm_compute in H2; discriminate H2].
  destruct (Hlater ff_mem nx1 m1
              (steps_allocate sample_env nx' ff_mem nx' ff_mem 24 p1 nx1 m1
                 (steps_none sample_env nx' ff_mem) H1))
    as (_ & _ & Halloc).
  destruct (Halloc 10 p2 nx2 m2 H2) as (Hp & Hmod & Hmem).
  exists r', nx', p1, nx1, m1, p2, nx2, m2.
  split; [reflexivity|]. split; [apply Hagain|]. split; [exact H1|].
  split; [exact H2|]. split; [exact Hp|]. split; [exact Hmod|].
  intros a Ha. apply (Hmem a Ha).
Defined.

Lemma append_marks_non_null_witness :
  exists r' m' mk' bm',
    DumpRegion.append_intptr_t sample_env sample_region zero_mem (sample_marker 16)
                               43690 true = Ok (r', m', mk') /\
    ArchivePtrMarker._ptrmap mk' = Some bm' /\
    CHeapBitMap.at_ bm' 0 = true.
Proof.
  destruct (DumpRegion.append_intptr_t sample_env sample_region zero_mem (sample_marker 16)
                                       43690 true) as [[[r' m'] mk'] | e] eqn:H;
    [| vm_compute in H; discriminate H].
  destruct (append_marks_non_null sample_env sample_region r' zero_mem m'
              (sample_marker 16) mk' 43690 (CHeapBitMap.initialize 16)
              eq_refl (sample_marker_wf 16 ltac:(lia)))
    as (bm' & Hmap & _ & Hbit & _); [vm_compute; split; congruence | exact H |].
  exists r', m', mk', bm'. split; [reflexivity|]. split; [exact Hmap | exact Hbit].
Defined.

Lemma do_region_archive_layout_witness :
  exists s',
    WriteClosure.do_region sample_env 4096 sample_buf sample_state = Ok s' /\
    DumpRegion._top (ds_region s') = 65536 + 8 + 16 /\
    load_intptr (ds_mem s') 65536 = 16 /\
    load_bytes (ds_mem s') (65536 + 8) 16 = sample_buf.
Proof.
  destruct (WriteClosure.do_region sample_env 4096 sample_buf sample_state)
    as [s' | e] eqn:H; [| vm_compute in H; discriminate H].
  destruct (do_region_archive_layout sample_env 4096 sample_buf sample_state s' H)
    as (_ & Htop & Htag & Hbytes & _).
  exists s'. split; [reflexivity|]. split; [exact Htop|]. split; [exact Htag | exact Hbytes].
Defined.

Lemma read_region_verbatim_witness :
  let m := store_intptr (store_intptr zero_mem 65536 16) 65544 43690 in
  ReadClosure.do_region m 4096 16 (ReadClosure.mk 65536)
  = Ok (load_bytes m (65536 + 8) 16, ReadClosure.mk (65536 + 8 + 16)) /\
  ReadClosure.do_region m 4096 8 (ReadClosure.mk 65536)
  = Fail (AssertFailed "old tag doesn't match").
Proof.
  intros m. split.
  - refine (proj1 (read_region_verbatim m 4096 16 (ReadClosure.mk 65536) _ _ _) _);
      vm_compute; congruence.
  - refine (proj2 (read_region_verbatim m 4096 8 (ReadClosure.mk 65536) _ _ _) _);
      vm_compute; congruence.
Defined.

Lemma region_size_mismatch_detected_witness :
  exists s',
    WriteClosure.do_region sample_env 4096 sample_buf sample_state = Ok s' /\
    is_ok (ReadClosure.do_region (ds_mem s') 4096 8 (ReadClosure.mk 65536)) = false.
Proof.
  destruct (WriteClosure.do_region sample_env 4096 sample_buf sample_state)
    as [s' | e] eqn:H; [| vm_compute in H; discriminate H].
  exists s'. split; [reflexivity|].
  refine (region_size_mismatch_detected sample_env 4096 4096 8 sample_buf sample_state s'
            H _ _ _); vm_compute; first [congruence | split; congruence].
Defined.

Lemma do_ptr_accepts_region_tag_witness :
  exists s',
    WriteClosure.do_region sample_env 4096 sample_buf sample_state = Ok s' /\
    ReadClosure.do_ptr (ds_mem s') 0 (ReadClosure.mk 65536) = Ok (16, ReadClosure.mk 65544).
Proof.
  destruct (WriteClosure.do_region sample_env 4096 sample_buf sample_state)
    as [s' | e] eqn:H; [| vm_compute in H; discriminate H].
  exists s'. split; [reflexivity|].
  refine (do_ptr_accepts_region_tag sample_env 4096 sample_buf sample_state s' H _).
  vm_compute. reflexivity.
Defined.

Lemma do_region_marks_non_zero_words_witness :
  exists s' bm',
    WriteClosure.do_region sample_env 4096 sample_buf sample_state = Ok s' /\
    ArchivePtrMarker._ptrmap (ds_marker s') = Some bm' /\
    CHeapBitMap.at_ bm' 0 = false /\
    CHeapBitMap.at_ bm' 1 = true /\
    CHeapBitMap.at_ bm' 2 = false.
Proof.
  destruct (WriteClosure.do_region sample_env 4096 sample_buf sample_state)
    as [s' | e] eqn:H; [| vm_compute in H; discriminate H].
  destruct (do_region_marks_non_zero_words sample_env 4096 sample_buf sample_state s'
              (CHeapBitMap.initialize 1024) eq_refl (sample_marker_wf 1024 ltac:(lia)))
    as (bm' & Hmap & _ & _ & _ & Hbits);
    [vm_compute; congruence | vm_compute; congruence | exact H |].
  exists s', bm'. split; [reflexivity|]. split; [exact Hmap|].
  rewrite !Hbits. repeat split; vm_compute; reflexivity.
Defined.

Lemma reference_round_trip_witness :
  exists s',
    WriteClosure.do_oop sample_env 4096 sample_state = Ok s' /\
    ReadClosure.do_oop sample_env (ds_mem s') 12345 (ReadClosure.mk 65536)
    = Ok (4096, ReadClosure.mk (65536 + 8)).
Proof.
  destruct (WriteClosure.do_oop sample_env 4096 sample_state) as [s' | e] eqn:H;
    [| vm_compute in H; discriminate H].
  exists s'. split; [reflexivity|].
  refine (reference_round_trip sample_env sample_env 4096 sample_state s' H
            _ (proj1 sample_env_heap_ok) eq_refl eq_refl _ 12345).
  - intros _. vm_compute. split; congruence.
  - intros _. vm_compute. reflexivity.
Defined.

Lemma mark_pointer_order_irrelevant_witness :
  let m := store_intptr sample_mem (65536 + 8 * 40) (65536 + 64) in
  exists st1 st2 st1' st2',
    ArchivePtrMarker.mark_pointer (sample_marker 2) m (65536 + 8 * 5) = Ok st1 /\
    ArchivePtrMarker.mark_pointer st1 m (65536 + 8 * 40) = Ok st2 /\
    ArchivePtrMarker.mark_pointer (sample_marker 2) m (65536 + 8 * 40) = Ok st1' /\
    ArchivePtrMarker.mark_pointer st1' m (65536 + 8 * 5) = Ok st2'.
Proof.
  intros m.
  destruct (ArchivePtrMarker.mark_pointer (sample_marker 2) m (65536 + 8 * 5))
    as [st1 | e] eqn:H1; [| vm_compute in H1; discriminate H1].
  destruct (ArchivePtrMarker.mark_pointer st1 m (65536 + 8 * 40)) as [st2 | e] eqn:H2.
  - destruct (mark_pointer_order_irrelevant (sample_marker 2) st1 st2 m
                (65536 + 8 * 5) (65536 + 8 * 40) (CHeapBitMap.initialize 2)
                eq_refl (sample_marker_wf 2 ltac:(lia)) H1 H2)
      as (st1' & st2' & _ & _ & Hb & Ha & _).
    exists st1, st2, st1', st2'.
    split; [reflexivity|]. split; [exact H2|]. split; [exact Hb | exact Ha].
  - exfalso. vm_compute in H1. inversion H1; subst. vm_compute in H2. discriminate H2.
Defined.
